(** * Alias management script (python/aliases.py)

    A shallow embedding of [aliases.py]: the walk ([traverse]), the
    discovery of the source modules ([collect_imports]), the generator
    ([collect_managed]), the two reconciler commands ([fix] and [check])
    and the command line ([help] and [main]), with the properties of the
    generated re-export modules, of the reconciled tree and of a run of
    the script stated and proved over it. *)

From Stdlib Require Import Ascii ZArith.
From stdpp Require Import gmap strings list fin_maps sorting.

(** ** Strings

    A Python [str] is a [string]; the bytes are those of its UTF-8
    encoding, whose bytewise order is the order of the code points that
    Python's [<] on [str] uses. *)

Definition nl : string := String "010"%char "".
Definition dq : string := String "034"%char "".

(** [s.replace(old, new)] for one-character [old] and [new]. *)
Fixpoint replace (old new : ascii) (s : string) : string :=
  match s with
  | EmptyString => EmptyString
  | String c s' => String (if Ascii.eqb c old then new else c) (replace old new s')
  end.

(** [s.split(sep)] for a one-character separator. *)
Fixpoint split (sep : ascii) (s : string) : list string :=
  match s with
  | EmptyString => [EmptyString]
  | String c s' =>
      if Ascii.eqb c sep then EmptyString :: split sep s'
      else match split sep s' with
           | [] => [String c EmptyString]
           | w :: ws => String c w :: ws
           end
  end.

(** [s.rfind(c)]: the index of the last occurrence of [c]. *)
Fixpoint rfind (c : ascii) (s : string) : option nat :=
  match s with
  | EmptyString => None
  | String a s' =>
      match rfind c s' with
      | Some i => Some (S i)
      | None => if Ascii.eqb a c then Some 0 else None
      end
  end.

(** Truth value of an optional string: [None] and [""] are false. *)
Definition truthy (o : option string) : bool :=
  match o with
  | Some s => negb (String.eqb s "")
  | None => false
  end.

(** ** Paths

    A [pathlib] path is absolute here ([main] resolves the root before
    it calls a command): the list of its components below ["/"]. *)

Abbreviation Path := (list string).

(** The components of a path segment: pathlib drops empty components and
    ["."] components.  (The segments here are the constants below and
    package names whose dots were replaced by slashes.) *)
Definition segments (s : string) : Path :=
  filter (λ w, w ≠ EmptyString ∧ w ≠ ".") (split "/" s).

(** [p / s]: an absolute segment replaces [p]. *)
Definition joinpath (p : Path) (s : string) : Path :=
  if String.prefix "/" s then segments s else p ++ segments s.

(** [str(p)] *)
Definition path_str (p : Path) : string := "/" +:+ String.concat "/" p.

(** [p.parent]; the parent of ["/"] is ["/"]. *)
Definition parent (p : Path) : Path := removelast p.

(** [p.name]: the last component, [""] for ["/"]. *)
Definition name (p : Path) : string := List.last p EmptyString.

(** [p.suffix]: the last dot of the name and what follows it, unless that
    dot starts or ends the name. *)
Definition suffix (p : Path) : string :=
  let n := name p in
  match rfind "." n with
  | Some i =>
      if (0 <? i) && (i <? String.length n - 1)
      then String.substring i (String.length n - i) n
      else EmptyString
  | None => EmptyString
  end.

(** [p.is_relative_to(q)] *)
Definition is_relative_to (p q : Path) : bool := bool_decide (q `prefix_of` p).

Definition SOURCES : list string :=
  [ "hopsworks/__init__.py";
    "hopsworks/connection.py";
    "hopsworks/internal";
    "hopsworks/platform";
    "hopsworks/fs";
    "hopsworks/ml" ].

Definition IGNORED : list string :=
  [ "tests";
    "hsfs";
    "hopsworks";
    "hsml";
    "hopsworks_common";
    "hopsworks.egg-info" ].

(** ** The file tree

    A directory maps the names of its entries to files and directories.
    The contents of a file are the text that [read_text] returns and
    [write_text] is given (encodings and newline translation are not
    modelled). *)

Inductive node :=
  | File (content : string)
  | Dir (children : gmap string node).

Fixpoint lookup_node (p : Path) (n : node) : option node :=
  match p with
  | [] => Some n
  | x :: p' =>
      match n with
      | Dir ch => match ch !! x with Some c => lookup_node p' c | None => None end
      | File _ => None
      end
  end.

(** The content of the regular file at [p], if there is one. *)
Definition file_at (p : Path) (n : node) : option string :=
  match lookup_node p n with
  | Some (File c) => Some c
  | _ => None
  end.

(** ** Effects

    A command runs in a world made of the file tree, the lines printed so
    far and the module-level variable [ok] of [check]; it returns a
    value, leaves through [exit(code)], or raises. *)

Inductive exn :=
  | AttributeError (attr : string)
  | TypeError
  | RecursionError
  | FileNotFoundError (p : Path)
  | FileExistsError (p : Path)
  | NotADirectoryError (p : Path)
  | IsADirectoryError (p : Path).

Inductive result (A : Type) :=
  | Ok (a : A)
  | Exit (code : Z)
  | Raise (e : exn).
Arguments Ok {A} a.
Arguments Exit {A} code.
Arguments Raise {A} e.

(** The lines that the script prints, and their text. *)
Inductive line :=
  | CollisionError (original alias : string) (pkg : Path)
  | ShouldExist (p : Path)
  | WrongContent (p : Path)
  | ShouldntExist (p : Path)
  | AliasesCorrect
  | RunFix.

Definition line_str (l : line) : string :=
  match l with
  | CollisionError original alias pkg =>
      "Error: " +:+ original +:+ " is attempted to be exported as " +:+ alias
      +:+ " in " +:+ path_str pkg
      +:+ ", but the package already contains this alias."
  | ShouldExist p => "Error: " +:+ path_str p +:+ " should exist."
  | WrongContent p => "Error: " +:+ path_str p +:+ " has wrong content."
  | ShouldntExist p => "Error: " +:+ path_str p +:+ " shouldn't exist."
  | AliasesCorrect => "The aliases are correct!"
  | RunFix => "To fix the errors, run `aliases.py fix`."
  end.

Record World := mkWorld {
  fs : node;
  stdout : list line;
  ok : bool
}.

Definition M (A : Type) : Type := World → result A * World.

Definition ret {A} (a : A) : M A := λ w, (Ok a, w).

Definition bind {A B} (m : M A) (k : A → M B) : M B :=
  λ w, match m w with
       | (Ok a, w') => k a w'
       | (Exit c, w') => (Exit c, w')
       | (Raise e, w') => (Raise e, w')
       end.

#[global] Instance M_ret : MRet M := @ret.
#[global] Instance M_bind : MBind M := λ A B k m, bind m k.

Definition raise {A} (e : exn) : M A := λ w, (Raise e, w).
Definition exit {A} (code : Z) : M A := λ w, (Exit code, w).
Definition print (l : line) : M unit :=
  λ w, (Ok tt, mkWorld (fs w) (stdout w ++ [l]) (ok w)).
Definition set_ok (b : bool) : M unit :=
  λ w, (Ok tt, mkWorld (fs w) (stdout w) b).
Definition get_ok : M bool := λ w, (Ok (ok w), w).
Definition get_fs : M node := λ w, (Ok (fs w), w).

(** A value computed without the world, or the exception it raised. *)
Definition lift {A} (r : result A) : M A := λ w, (r, w).

(** [for x in l: s = body(s, x)] *)
Fixpoint for_each {A S} (l : list A) (body : S → A → M S) (s : S) : M S :=
  match l with
  | [] => ret s
  | x :: l' => s' ← body s x; for_each l' body s'
  end.

(** ** The registry

    [collect_aliases(root)] imports the source modules and returns
    [Registry.get_modules()]: a dict from destination package to the list
    of its [(from_module, import_name, options)] tuples.  The modules it
    imports are not part of the script; the dict is the input of the
    generator, in the order in which [items()] yields it. *)

(** Modelled from the spec: the class of the third component of a
    registry tuple is declared in [hopsworks.internal.aliases], outside
    the script.  Its attributes are the options of an alias declaration
    (asAlias, deprecated, availableUntil); it is a plain value object,
    equal to another when the attributes are equal, and it defines no
    ordering ([<] between two of them raises [TypeError]). *)
Record InModule := mkInModule {
  as_alias : option string;
  deprecated : bool;
  available_until : option string
}.

#[global] Instance InModule_eq_dec : EqDecision InModule.
Proof. solve_decision. Defined.

Abbreviation Import := (string * string * InModule)%type.
Abbreviation Registry := (list (string * list Import)).

#[global] Instance result_ret : MRet result := @Ok.
#[global] Instance result_bind : MBind result :=
  λ A B k r, match r with Ok a => k a | Exit c => Exit c | Raise e => Raise e end.

(** [a < b] on registry tuples: Python compares the first components
    that differ; tuples equal in every component are not less. *)
Definition tuple_lt (a b : Import) : result bool :=
  let '(f1, i1, im1) := a in
  let '(f2, i2, im2) := b in
  if negb (String.eqb f1 f2) then Ok (String.ltb f1 f2)
  else if negb (String.eqb i1 i2) then Ok (String.ltb i1 i2)
  else if bool_decide (im1 = im2) then Ok false
  else Raise TypeError.

(** [l.sort()]: a stable sort that uses [<] only and stops at the first
    comparison that raises.  Python sorts a short list by insertion, as
    here; whatever the order of the comparisons, the sort returns the one
    sorted list when no two tuples tie on the first two components and
    differ on the third, and raises when two do. *)
Fixpoint insort (x : Import) (l : list Import) : result (list Import) :=
  match l with
  | [] => Ok [x]
  | y :: l' =>
      b ← tuple_lt x y;
      if b : bool then Ok (x :: y :: l')
      else (l'' ← insort x l'; Ok (y :: l''))
  end.

Fixpoint sort_onto (sorted : list Import) (l : list Import) : result (list Import) :=
  match l with
  | [] => Ok sorted
  | x :: l' => sorted' ← insort x sorted; sort_onto sorted' l'
  end.

Definition list_sort (l : list Import) : result (list Import) := sort_onto [] l.

(** ** The generator *)

(** [managed]: a dict from path to content, in insertion order. *)
Abbreviation Managed := (list (Path * string)).

(** [d[k] = v] *)
Fixpoint dict_set (k : Path) (v : string) (d : Managed) : Managed :=
  match d with
  | [] => [(k, v)]
  | (k', v') :: d' =>
      if decide (k' = k) then (k, v) :: d' else (k', v') :: dict_set k v d'
  end.

(** [d[k] += s], for a key that is present. *)
Fixpoint dict_append (k : Path) (s : string) (d : Managed) : Managed :=
  match d with
  | [] => []
  | (k', v') :: d' =>
      if decide (k' = k) then (k', v' +:+ s) :: d' else (k', v') :: dict_append k s d'
  end.

(** [d.get(k)] *)
Fixpoint dict_get (k : Path) (d : Managed) : option string :=
  match d with
  | [] => None
  | (k', v') :: d' => if decide (k' = k) then Some v' else dict_get k d'
  end.

(** [k in d] *)
Definition dict_mem (k : Path) (d : Managed) : bool :=
  match dict_get k d with Some _ => true | None => false end.

Definition header : string :=
  "# ruff: noqa" +:+ nl +:+
  "# This file is generated by aliases.py. Do not edit it manually!" +:+ nl.

(** [im.available.until]: the options have no attribute [available]. *)
Definition available_dot_until (im : InModule) : M string :=
  raise (AttributeError "available").

(** The body of [for f, i, im in imports]; the state is [managed],
    [imported_modules] and [declared_names].  Nothing is ever added to
    [declared_names]. *)
Definition export_import (pkg : Path)
    (st : Managed * gset string * gset string) (x : Import)
    : M (Managed * gset string * gset string) :=
  let '(managed, imported_modules, declared_names) := st in
  let '(f, i, im) := x in
  let original := f +:+ "." +:+ i in
  let alias := if truthy (as_alias im) then default EmptyString (as_alias im) else i in
  (if bool_decide (alias ∈ declared_names)
   then (print (CollisionError original alias pkg);; exit 1%Z)
   else ret tt);;
  let '(managed, imported_modules) :=
    if bool_decide (f ∉ imported_modules)
    then (dict_append pkg ("import " +:+ f +:+ nl) managed, imported_modules ∪ {[f]})
    else (managed, imported_modules) in
  original ←
    (if deprecated im then
       until ← (if truthy (available_until im)
                then (u ← available_dot_until im;
                      ret ("available_until=" +:+ dq +:+ u +:+ dq))
                else ret EmptyString);
       ret ("hopsworks.internal.aliases.deprecated(" +:+ until +:+ ")("
            +:+ original +:+ ")")
     else ret original);
  ret (dict_append pkg (alias +:+ " = " +:+ original +:+ nl) managed,
       imported_modules, declared_names).

(** The body of [for pkg, imports in collect_aliases(root).items()]. *)
Definition manage_package (root : Path) (managed : Managed)
    (entry : string * list Import) : M Managed :=
  let '(pkg, imports) := entry in
  let pkg := joinpath (joinpath root (replace "." "/" pkg)) "__init__.py" in
  let managed := dict_set pkg header managed in
  match imports with
  | [] => ret managed
  | _ =>
      let managed := dict_append pkg ("import hopsworks.internal.aliases" +:+ nl) managed in
      imports ← lift (list_sort imports);
      '(managed, _, _) ←
        for_each imports (export_import pkg)
          (managed, {["hopsworks.internal.aliases"]}, ∅);
      ret managed
  end.

Definition collect_managed (root : Path) (registry : Registry) : M Managed :=
  for_each registry (manage_package root) [].

(** ** File operations *)

(** [p.mkdir(parents=True, exist_ok=True)]: a file on the way is an
    error, every missing directory is created. *)
Fixpoint mkdir (full p : Path) (n : node) : result node :=
  match n, p with
  | File _, [] => Raise (FileExistsError full)
  | File _, _ :: _ => Raise (NotADirectoryError full)
  | Dir _, [] => Ok n
  | Dir ch, x :: p' =>
      c ← mkdir full p' (default (Dir ∅) (ch !! x));
      Ok (Dir (<[x:=c]> ch))
  end.

(** Walk to the directory that holds [p] and change the entry of [p] in
    it: [f] gets the entry, if any, and returns the new one ([None]
    removes it). *)
Fixpoint update_entry (full p : Path) (f : option node → result (option node))
    (n : node) : result node :=
  match p with
  | [] => r ← f (Some n); Ok (default n r)
  | x :: p' =>
      match n with
      | File _ => Raise (NotADirectoryError full)
      | Dir ch =>
          match p' with
          | [] =>
              r ← f (ch !! x);
              Ok (Dir (match r with Some c => <[x:=c]> ch | None => delete x ch end))
          | _ :: _ =>
              match ch !! x with
              | Some c => c' ← update_entry full p' f c; Ok (Dir (<[x:=c']> ch))
              | None => Raise (FileNotFoundError full)
              end
          end
      end
  end.

(** [p.touch()]: creates an empty file, leaves what exists as it is. *)
Definition touch_entry (o : option node) : result (option node) :=
  match o with
  | None => Ok (Some (File EmptyString))
  | Some c => Ok (Some c)
  end.

(** [p.write_text(content)]: creates or overwrites a regular file. *)
Definition write_entry (full : Path) (content : string) (o : option node)
    : result (option node) :=
  match o with
  | Some (Dir _) => Raise (IsADirectoryError full)
  | _ => Ok (Some (File content))
  end.

(** [p.unlink()] *)
Definition unlink_entry (full : Path) (o : option node) : result (option node) :=
  match o with
  | Some (File _) => Ok None
  | Some (Dir _) => Raise (IsADirectoryError full)
  | None => Raise (FileNotFoundError full)
  end.

(** Run an operation on the tree of the world. *)
Definition on_fs (op : node → result node) : M unit :=
  λ w, match op (fs w) with
       | Ok n => (Ok tt, mkWorld n (stdout w) (ok w))
       | Exit c => (Exit c, w)
       | Raise e => (Raise e, w)
       end.

Definition mkdir_parents (p : Path) : M unit := on_fs (mkdir p p).
Definition touch (p : Path) : M unit := on_fs (update_entry p p touch_entry).
Definition write_text (p : Path) (content : string) : M unit :=
  on_fs (update_entry p p (write_entry p content)).
Definition unlink (p : Path) : M unit := on_fs (update_entry p p (unlink_entry p)).

(** [p.exists()] *)
Definition path_exists (p : Path) : M bool :=
  λ w, (Ok (bool_decide (is_Some (lookup_node p (fs w)))), w).

(** [p.read_text()] *)
Definition read_text (p : Path) : M string :=
  λ w, match lookup_node p (fs w) with
       | Some (File c) => (Ok c, w)
       | Some (Dir _) => (Raise (IsADirectoryError p), w)
       | None => (Raise (FileNotFoundError p), w)
       end.

(** ** The walk

    [traverse_rec] is the body of [traverse(path, f)], statement by
    statement, on the tree as it is when each statement runs; [depth]
    bounds the nesting of the calls, which Python stops at its recursion
    limit. *)

(** [p.is_file()] *)
Definition is_file (p : Path) : M bool :=
  λ w, (Ok (match lookup_node p (fs w) with Some (File _) => true | _ => false end), w).

(** [p.iterdir()], the entries listed when the loop starts. *)
Definition iterdir (p : Path) : M (list Path) :=
  λ w, match lookup_node p (fs w) with
       | Some (Dir ch) => (Ok ((λ e, p ++ [e.1]) <$> map_to_list ch), w)
       | Some (File _) => (Raise (NotADirectoryError p), w)
       | None => (Raise (FileNotFoundError p), w)
       end.

Fixpoint traverse_rec (depth : nat) (path : Path) (f : Path → M unit) : M unit :=
  match depth with
  | 0 => raise RecursionError
  | S d =>
      e ← path_exists path;
      if negb e then ret tt
      else
        b ← is_file path;
        if b : bool then f path
        else
          children ← iterdir path;
          for_each children (λ _ child, traverse_rec d child f) tt
  end.

(** [traverse] is the same walk on the tree found at [path] when the
    call starts: it returns when [path] does not exist, calls [f] on a
    file and visits the entries of a directory.  [iterdir] lists a
    directory when its loop starts, and the callbacks of [fix] and
    [check] change nothing outside the path they are called on, so each
    entry is found as it was listed.  The two walks are proved equal for
    such callbacks below the nesting bound, and the commands are stated
    with this one. *)
Fixpoint traverse_node (path : Path) (n : node) (f : Path → M unit) : M unit :=
  match n with
  | File _ => f path
  | Dir ch =>
      map_fold (λ x child rest, traverse_node (path ++ [x]) child f;; rest)
               (ret tt) ch
  end.

Definition traverse (path : Path) (f : Path → M unit) : M unit :=
  n ← get_fs;
  match lookup_node path n with
  | None => ret tt
  | Some t => traverse_node path t f
  end.

(** ** The reconciler *)

Definition ignored_paths (root : Path) : list Path :=
  map (joinpath root) (SOURCES ++ IGNORED).

Definition remove_if_excess (root : Path) (ignored : list Path) (managed : Managed)
    (path : Path) : M unit :=
  if bool_decide (parent path = root) then ret tt
  else if existsb (is_relative_to path) ignored then ret tt
  else if negb (dict_mem path managed) then unlink path
  else ret tt.

(** The body of [for filepath, content in managed.items()] in [fix]. *)
Definition write_managed (_ : unit) (item : Path * string) : M unit :=
  let '(filepath, content) := item in
  mkdir_parents (parent filepath);;
  touch filepath;;
  write_text filepath content.

(** [fix(root)], with the registry that [collect_aliases(root)] returns
    ([fix] is a keyword of Rocq). *)
Definition fix_ (root : Path) (registry : Registry) : M unit :=
  managed ← collect_managed root registry;
  for_each managed write_managed tt;;
  let ignored := ignored_paths root in
  traverse root (remove_if_excess root ignored managed).

(** The body of [for filepath, content in managed.items()] in [check]. *)
Definition check_managed (_ : unit) (item : Path * string) : M unit :=
  let '(filepath, content) := item in
  e ← path_exists filepath;
  if negb e then (print (ShouldExist filepath);; set_ok false)
  else
    t ← read_text filepath;
    if negb (String.eqb t content)
    then (print (WrongContent filepath);; set_ok false)
    else ret tt.

Definition check_file (root : Path) (ignored : list Path) (managed : Managed)
    (path : Path) : M unit :=
  if bool_decide (parent path = root) || existsb (is_relative_to path) ignored
  then ret tt
  else if String.eqb (suffix path) ".pyc" || bool_decide ("__pycache__" ∈ path)
  then ret tt
  else if negb (dict_mem path managed)
  then (print (ShouldntExist path);; set_ok false)
  else ret tt.

(** [check(root)], with the registry that [collect_aliases(root)] returns. *)
Definition check (root : Path) (registry : Registry) : M unit :=
  set_ok true;;
  managed ← collect_managed root registry;
  for_each managed check_managed tt;;
  let ignored := ignored_paths root in
  traverse root (check_file root ignored managed);;
  b ← get_ok;
  if b : bool then print AliasesCorrect
  else (print RunFix;; exit 1%Z).


(** ** Notions used in the statements *)

(** The paths of the regular files of the tree [n] found at [path], in
    the order of the walk. *)
Fixpoint files (path : Path) (n : node) : list Path :=
  match n with
  | File _ => [path]
  | Dir ch => map_fold (λ x child rest, files (path ++ [x]) child ++ rest) [] ch
  end.

(** [for q in l: f(q)] *)
Fixpoint run_all (f : Path → M unit) (l : list Path) : M unit :=
  match l with
  | [] => ret tt
  | q :: l' => f q;; run_all f l'
  end.

Fixpoint nsize (n : node) : nat :=
  match n with
  | File _ => 1
  | Dir ch => S (map_fold (λ _ child acc, nsize child + acc) 0 ch)
  end.

(** A file that the walk of [fix] removes. *)
Definition excess (root : Path) (ignored : list Path) (managed : Managed)
    (path : Path) : bool :=
  negb (bool_decide (parent path = root))
  && negb (existsb (is_relative_to path) ignored)
  && negb (dict_mem path managed).

(** The length of the longest path of a tree. *)
Fixpoint height (n : node) : nat :=
  match n with
  | File _ => 0
  | Dir ch => S (map_fold (λ _ child acc, height child `max` acc) 0 ch)
  end.

(** A callback that leaves alone whatever is neither below the path it
    is called on nor on the way to it. *)
Definition local (f : Path → M unit) : Prop :=
  ∀ q w r w' q', f q w = (r, w') →
    ¬ q `prefix_of` q' → ¬ q' `prefix_of` q →
    lookup_node q' (fs w') = lookup_node q' (fs w).

(** An operation on one entry that leaves what lies below it as it is. *)
Definition leaf_op (f : option node → result (option node)) : Prop :=
  ∀ o r q, f o = Ok r → q ≠ [] → r ≫= file_at q = o ≫= file_at q.

Ltac unfold_bind :=
  unfold mbind, M_bind, bind, mret, M_ret, ret, lift, raise, exit.

Definition keys_nonempty (m : Managed) : Prop := ∀ p c, (p, c) ∈ m → p ≠ [].

(** ** The generator as a function of the registry

    The content of a file and the managed files, computed without the
    world; the generator is proved to return them. *)

(** The exported name of a declaration. *)
Definition alias_of (x : Import) : string :=
  let '(_, i, im) := x in
  if truthy (as_alias im) then default EmptyString (as_alias im) else i.

(** The right-hand side of the binding of a declaration. *)
Definition binding_rhs (x : Import) : result string :=
  let '(f, i, im) := x in
  let original := f +:+ "." +:+ i in
  if deprecated im then
    if truthy (available_until im) then Raise (AttributeError "available")
    else Ok ("hopsworks.internal.aliases.deprecated()(" +:+ original +:+ ")")
  else Ok original.

(** The lines written for a sorted list of declarations. *)
Fixpoint render_lines (imported : gset string) (l : list Import) : result string :=
  match l with
  | [] => Ok EmptyString
  | x :: l' =>
      rhs ← binding_rhs x;
      rest ← render_lines (imported ∪ {[x.1.1]}) l';
      Ok ((if bool_decide (x.1.1 ∉ imported)
           then "import " +:+ x.1.1 +:+ nl else EmptyString)
          +:+ (alias_of x +:+ " = " +:+ rhs +:+ nl) +:+ rest)
  end.

(** The content generated for the declarations of one package. *)
Definition render (imports : list Import) : result string :=
  match imports with
  | [] => Ok header
  | _ =>
      sorted ← list_sort imports;
      body ← render_lines {["hopsworks.internal.aliases"]} sorted;
      Ok (header +:+ ("import hopsworks.internal.aliases" +:+ nl) +:+ body)
  end.

(** The file of a destination package. *)
Definition package_path (root : Path) (pkg : string) : Path :=
  joinpath (joinpath root (replace "." "/" pkg)) "__init__.py".

Fixpoint collect_from (root : Path) (managed : Managed) (registry : Registry)
    : result Managed :=
  match registry with
  | [] => Ok managed
  | (pkg, imports) :: registry' =>
      c ← render imports;
      collect_from root (dict_set (package_path root pkg) c managed) registry'
  end.

(** The paths of the files of the packages of a registry. *)
Definition package_paths (root : Path) (registry : Registry) : list Path :=
  (λ e, package_path root e.1) <$> registry.

(** ** The order of the sort *)

(** The order of the keys [(from_module, import_name)]. *)
Definition import_le (a b : Import) : Prop :=
  String.le a.1.1 b.1.1 ∧ (a.1.1 = b.1.1 → String.le a.1.2 b.1.2).

Definition same_key (a b : Import) : Prop := a.1.1 = b.1.1 ∧ a.1.2 = b.1.2.

(** Two declarations that the sort cannot order. *)
Definition conflict (a b : Import) : Prop := same_key a b ∧ a ≠ b.

Definition has_conflict (l : list Import) : Prop :=
  Exists (λ a, Exists (conflict a) l) l.

(** ** The registry in another order *)

(** [r2] holds the packages of [r1], in some order, each with the
    declarations it has in [r1], in some order. *)
Definition same_declarations (r1 r2 : Registry) : Prop :=
  ∃ r, r1 ≡ₚ r ∧ Forall2 (λ e1 e2, e1.1 = e2.1 ∧ e1.2 ≡ₚ e2.2) r r2.

(** The files of the packages, one after the other. *)
Fixpoint rendered (root : Path) (registry : Registry) : result Managed :=
  match registry with
  | [] => Ok []
  | (pkg, imports) :: registry' =>
      c ← render imports;
      rest ← rendered root registry';
      Ok ((package_path root pkg, c) :: rest)
  end.

(** ** Sample trees and registries *)

Definition sample_tree : node :=
  Dir (list_to_map
    [("r", Dir (list_to_map
       [("setup.py", File "setup");
        ("hopsworks", Dir (list_to_map [("__init__.py", File "source")]));
        ("hsfs", Dir (list_to_map [("__init__.py", File "x")]));
        ("stray", Dir (list_to_map [("old.py", File "junk")]));
        ("pkg", Dir (list_to_map
           [("__pycache__", Dir (list_to_map
              [("m.pyc", File "bytes");
               ("__init__.py", File "x")]))]))]))]).

Definition sample_world : World := mkWorld sample_tree [] false.

Definition sample_registry : Registry :=
  [("pkg.sub", [("pkg.impl", "Foo", mkInModule None false None);
                ("pkg.impl", "Bar", mkInModule (Some "Baz") true None)]);
   ("hsfs", [])].

Definition sample_registry_reordered : Registry :=
  [("hsfs", []);
   ("pkg.sub", [("pkg.impl", "Bar", mkInModule (Some "Baz") true None);
                ("pkg.impl", "Foo", mkInModule None false None)])].

(** Two declarations of the package "pkg.sub" that export the name Foo. *)
Definition collision_registry : Registry :=
  [("pkg.sub", [("pkg.a", "Foo", mkInModule None false None);
                ("pkg.b", "Foo", mkInModule None false None)])].

Definition sample_managed : Managed :=
  match (collect_managed ["r"] sample_registry sample_world).1 with
  | Ok m => m
  | _ => []
  end.

Definition sample_fixed : World := (fix_ ["r"] sample_registry sample_world).2.

Definition sample_checked : World := (check ["r"] sample_registry sample_fixed).2.

(** ** What the walks visit, remove and report *)

(** The files that a walk from [root] visits. *)
Definition tree_files (root : Path) (n : node) : list Path :=
  match lookup_node root n with
  | Some t => files root t
  | None => []
  end.

(** A compiled file or a file of a cache directory. *)
Definition bytecode (path : Path) : bool :=
  String.eqb (suffix path) ".pyc" || bool_decide ("__pycache__" ∈ path).

(** A file that the walk of [check] reports. *)
Definition reportable (root : Path) (ignored : list Path) (managed : Managed)
    (path : Path) : bool :=
  excess root ignored managed path && negb (bytecode path).

(** A tree that [fix] has nothing to do on: every managed file is there
    with its content, and no file under the root is in excess. *)
Definition reconciled (root : Path) (m : Managed) (n : node) : Prop :=
  (∀ p c, (p, c) ∈ m → file_at p n = Some c)
  ∧ (∀ q, root `prefix_of` q → is_Some (file_at q n) →
          excess root (ignored_paths root) m q = false).

(** ** Package names *)

Fixpoint has_char (c : ascii) (s : string) : bool :=
  match s with
  | EmptyString => false
  | String a s' => Ascii.eqb a c || has_char c s'
  end.

(** A dotted module name: no slash, and no empty component. *)
Definition package_name (s : string) : Prop :=
  has_char "/" s = false ∧ EmptyString ∉ split "." s.

(** ** Discovering the source modules *)

(** [p.relative_to(q)]: the components of [p] that follow those of [q];
    [None] stands for the [ValueError] that is raised when [p] is not
    below [q]. *)
Fixpoint relative_to (p q : Path) {struct q} : option (list string) :=
  match q with
  | [] => Some p
  | y :: q' =>
      match p with
      | x :: p' => if decide (x = y) then relative_to p' q' else None
      | [] => None
      end
  end.

(** [str(p)] for a relative path: ["."] when it has no component. *)
Definition relative_str (p : list string) : string :=
  match p with
  | [] => "."
  | _ :: _ => String.concat "/" p
  end.

(** [s[:-3]] *)
Definition drop_last3 (s : string) : string :=
  String.substring 0 (String.length s - 3) s.




(** The closure [imports_add(file)] of [collect_imports]; [imports] is
    the list it appends to. *)
Definition imports_add (root : Path) (imports : list string) (file : Path)
    : option (list string) :=
  rel ← relative_to (parent file) root;
  let pkg := replace "/" "." (relative_str rel) in
  if String.eqb (name file) "__init__.py" then Some (imports ++ [pkg])
  else if String.eqb (suffix file) ".py"
  then Some (imports ++ [pkg +:+ "." +:+ drop_last3 (name file)])
  else Some imports.


(** ** The command line

    [main] prints text of its own (through [help]) besides the lines of
    the command it runs.  A run of the script shows the tree, the text
    printed, one entry for each call of [print], and the variable [ok]. *)

Record Process := mkProcess {
  tree : node;
  printed : list string;
  ok_var : bool
}.

Definition Script (A : Type) : Type := Process → result A * Process.

#[global] Instance Script_ret : MRet Script := λ A a s, (Ok a, s).
#[global] Instance Script_bind : MBind Script :=
  λ A B k m s, match m s with
               | (Ok a, s') => k a s'
               | (Exit c, s') => (Exit c, s')
               | (Raise e, s') => (Raise e, s')
               end.

Definition print_text (text : string) : Script unit :=
  λ s, (Ok tt, mkProcess (tree s) (printed s ++ [text]) (ok_var s)).

Definition exit_with {A} (code : Z) : Script A := λ s, (Exit code, s).

(** [p.exists()] *)
Definition exists_path (p : Path) : Script bool :=
  λ s, (Ok (bool_decide (is_Some (lookup_node p (tree s)))), s).

(** A command called from [main]; each line that it prints is printed
    as its text. *)
Definition command (m : M unit) : Script unit :=
  λ s, let '(r, w) := m (mkWorld (tree s) [] (ok_var s)) in
       (r, mkProcess (fs w) (printed s ++ (line_str <$> stdout w)) (ok w)).

(** [help(msg)]; it leaves through [exit(1)]. *)
Definition help {A} (msg : option string) : Script A :=
  (if truthy msg then print_text (default EmptyString msg +:+ nl) else mret tt);;
  print_text "Use `aliases.py fix [path]` or `aliases.py check [path]`.";;
  print_text "`path` is optional, current directory (or its `python` subdirectory) is used by default; it should be the directory containing the hopsworks package, e.g., `./python/`.";;
  exit_with 1%Z.

(** [Path(s)] before it is resolved: whether it is absolute, and its
    components (empty and ["."] components are dropped, [".."] is
    kept). *)
Definition pure_path (s : string) : bool * list string :=
  (String.prefix "/" s, segments s).

(** [p / s] on such a path. *)
Definition pure_join (p : bool * list string) (s : string) : bool * list string :=
  if String.prefix "/" s then (true, segments s) else (p.1, p.2 ++ segments s).

(** The file that a path without [".."] names, for the current
    directory [cwd]. *)
Definition absolute (cwd : Path) (p : bool * list string) : Path :=
  if p.1 then p.2 else cwd ++ p.2.

(** [p.resolve()], for the current directory [cwd], on a tree without
    symbolic links: [".."] steps up, and stays at ["/"]. *)
Definition resolve (cwd : Path) (p : bool * list string) : Path :=
  foldl (λ acc x, if String.eqb x ".." then removelast acc else acc ++ [x])
        (if p.1 then [] else cwd) p.2.

(** [main()], for [sys.argv], the current directory and the registry
    that [collect_aliases] returns.  ([sys.argv[1]] is read after the
    checks of the path; it is bound here where the length of [sys.argv]
    is tested.) *)
Definition main (cwd : Path) (registry : Registry) (argv : list string) : Script unit :=
  '(cmd, root) ←
    match argv with
    | [_; cmd; arg] => mret (cmd, pure_path arg)
    | [_; cmd] =>
        let root := pure_path EmptyString in
        e ← exists_path (absolute cwd (pure_join root "hopsworks"));
        mret (cmd, if negb e then pure_join root "python" else root)
    | _ => help (Some "Wrong number of arguments.")
    end;
  let root := resolve cwd root in
  e ← exists_path (joinpath root "hopsworks");
  (if negb e
   then help (Some "The used path doesn't contain the hopsworks package.")
   else mret tt);;
  cmd ← (if bool_decide (cmd ∈ ["f"; "fix"]) then mret fix_
         else if bool_decide (cmd ∈ ["c"; "check"]) then mret check
         else help (Some "Unknown command."));
  command (cmd root registry).

(** ** More notions used in the statements *)

(** Whether [p] is a directory of the tree. *)
Definition dir_at (p : Path) (n : node) : bool :=
  match lookup_node p n with
  | Some (Dir _) => true
  | _ => false
  end.

(** An operation on one entry that leaves a directory as it is and puts
    no directory in the place of anything else. *)
Definition keeps_dirs (f : option node → result (option node)) : Prop :=
  ∀ o r, f o = Ok r →
    match o with
    | Some (Dir _) => r = o
    | _ => ∀ ch, r ≠ Some (Dir ch)
    end.


(** The line that the first loop of [check] prints for a generated file,
    if it prints one, on the tree [n]. *)
Definition managed_error (n : node) (item : Path * string) : list line :=
  match lookup_node item.1 n with
  | None => [ShouldExist item.1]
  | Some (File t) => if String.eqb t item.2 then [] else [WrongContent item.1]
  | Some (Dir _) => []
  end.


Definition sample_process : Process := mkProcess sample_tree [] false.

(** A tree with a directory in the place of the file of the package
    "pkg". *)
Definition blocked_tree : node :=
  Dir (list_to_map
    [("r", Dir (list_to_map
       [("hopsworks", Dir (list_to_map [("__init__.py", File "source")]));
        ("pkg", Dir (list_to_map [("__init__.py", Dir ∅)]))]))]).

(** ** The file tree: lemmas *)

Section Tree.

Implicit Types (p q full : Path) (n : node) (ch : gmap string node).

Lemma nsize_child ch x c : ch !! x = Some c → nsize c < nsize (Dir ch).
Proof.
  intros Hx. simpl.
  rewrite <- (insert_delete_id ch x c Hx).
  rewrite map_fold_insert_L.
  - lia.
  - intros; lia.
  - apply lookup_delete_eq.
Qed.

Lemma node_induction (P : node → Prop) :
  (∀ c, P (File c)) →
  (∀ ch, (∀ x c, ch !! x = Some c → P c) → P (Dir ch)) →
  ∀ n, P n.
Proof.
  intros HF HD n.
  remember (nsize n) as k eqn:Hk. revert n Hk.
  induction k as [k IH] using lt_wf_ind. intros [c|ch] ->.
  - apply HF.
  - apply HD. intros x c Hx. eapply IH; [|reflexivity].
    by apply (nsize_child ch x).
Qed.

Lemma lookup_node_app p q n :
  lookup_node (p ++ q) n = lookup_node p n ≫= lookup_node q.
Proof.
  revert n. induction p as [|x p IH]; intros n; simpl; [done|].
  destruct n as [c|ch]; [done|]. destruct (ch !! x); [apply IH|done].
Qed.

Lemma lookup_node_snoc p x n c :
  lookup_node (p ++ [x]) n = Some c →
  ∃ ch, lookup_node p n = Some (Dir ch) ∧ ch !! x = Some c.
Proof.
  rewrite lookup_node_app. destruct (lookup_node p n) as [[c'|ch]|]; simpl; try done.
  intros H. exists ch. split; [done|]. by destruct (ch !! x).
Qed.

Lemma file_at_cons x q n :
  file_at (x :: q) n =
  match n with
  | Dir ch => match ch !! x with Some c => file_at q c | None => None end
  | File _ => None
  end.
Proof. unfold file_at. simpl. destruct n as [|ch]; [done|]. by destruct (ch !! x). Qed.

Lemma file_at_empty_dir q : file_at q (Dir ∅) = None.
Proof. destruct q; [done|]. rewrite file_at_cons. by rewrite lookup_empty. Qed.

Lemma file_at_parent_dir p n c :
  p ≠ [] → file_at p n = Some c → ∃ ch, lookup_node (parent p) n = Some (Dir ch).
Proof.
  intros Hp. destruct (exists_last Hp) as (p' & x & ->).
  unfold parent. rewrite removelast_last. unfold file_at.
  destruct (lookup_node (p' ++ [x]) n) as [c'|] eqn:E; [|done].
  apply lookup_node_snoc in E as (ch & ? & ?). eauto.
Qed.

(** *** mkdir *)

Lemma mkdir_file_at full p n n' q :
  mkdir full p n = Ok n' → file_at q n' = file_at q n.
Proof.
  revert n n' q. induction p as [|x p IH]; intros [c|ch] n' q; simpl; try done.
  - by intros [= <-].
  - destruct (mkdir full p (default (Dir ∅) (ch !! x))) as [c| |] eqn:E; simpl; try done.
    intros [= <-]. destruct q as [|y q]; [done|].
    rewrite !file_at_cons. destruct (decide (x = y)) as [->|Hne].
    + rewrite lookup_insert_eq. rewrite (IH _ _ q E).
      destruct (ch !! y); simpl; [done|apply file_at_empty_dir].
    + by rewrite lookup_insert_ne.
Qed.

Lemma mkdir_id full p n ch :
  lookup_node p n = Some (Dir ch) → mkdir full p n = Ok n.
Proof.
  revert n. induction p as [|x p IH]; intros [c|ch'] H; simpl in *; try done.
  destruct (ch' !! x) as [c|] eqn:E; [|done]. simpl.
  rewrite (IH _ H). simpl. by rewrite insert_id.
Qed.

Lemma mkdir_is_dir full p n n' :
  mkdir full p n = Ok n' → ∃ ch, lookup_node p n' = Some (Dir ch).
Proof.
  revert n n'. induction p as [|x p IH]; intros [c|ch] n'; simpl; try done.
  - intros [= <-]. eauto.
  - destruct (mkdir full p (default (Dir ∅) (ch !! x))) as [c| |] eqn:E; simpl; try done.
    intros [= <-]. simpl. rewrite lookup_insert_eq. eauto.
Qed.

(** *** Changing one entry *)

Lemma prefix_cons_iff {A} (x y : A) (p q : list A) :
  (x :: p) `prefix_of` (y :: q) ↔ x = y ∧ p `prefix_of` q.
Proof.
  split.
  - intros H. split; [by eapply prefix_cons_inv_1|by eapply prefix_cons_inv_2].
  - intros [-> H]. by apply prefix_cons.
Qed.

Lemma update_entry_file_at full p f n n' :
  p ≠ [] → update_entry full p f n = Ok n' →
  ∃ r, f (lookup_node p n) = Ok r ∧
    ∀ q, file_at q n' =
         if decide (p `prefix_of` q) then r ≫= file_at (drop (length p) q)
         else file_at q n.
Proof.
  revert n n'. induction p as [|x p IH]; [done|]. intros [c|ch] n' _; [done|].
  simpl. destruct p as [|z p].
  - destruct (f (ch !! x)) as [r| |] eqn:Ef; simpl; try done.
    intros [= <-]. exists r. split.
    { by destruct (ch !! x). }
    intros [|y q].
    { rewrite decide_False; [done|]. intros H. by apply prefix_nil_not in H. }
    rewrite !file_at_cons. destruct (decide (x = y)) as [->|Hne].
    + rewrite decide_True by (apply prefix_cons, prefix_nil). simpl.
      destruct r as [c|]; simpl.
      * by rewrite lookup_insert_eq.
      * by rewrite lookup_delete_eq.
    + rewrite decide_False by (by intros [??]%prefix_cons_iff).
      destruct r as [c|]; simpl.
      * by rewrite lookup_insert_ne.
      * by rewrite lookup_delete_ne.
  - destruct (ch !! x) as [c|] eqn:Ex; [|done].
    destruct (update_entry full (z :: p) f c) as [c'| |] eqn:Eu; simpl; try done.
    intros [= <-]. destruct (IH c c' ltac:(done) Eu) as (r & Hr & Hq).
    exists r. split; [done|]. intros [|y q].
    { rewrite decide_False; [done|]. intros H. by apply prefix_nil_not in H. }
    rewrite !file_at_cons. destruct (decide (x = y)) as [->|Hne].
    + rewrite lookup_insert_eq, Ex, Hq.
      destruct (decide ((z :: p) `prefix_of` q)) as [Hp|Hp].
      * rewrite decide_True by (by apply prefix_cons). done.
      * rewrite decide_False by (by intros [??]%prefix_cons_iff). done.
    + rewrite lookup_insert_ne by done.
      rewrite decide_False by (by intros [??]%prefix_cons_iff). done.
Qed.

Lemma update_entry_id full p f n c :
  lookup_node p n = Some c → f (Some c) = Ok (Some c) →
  update_entry full p f n = Ok n.
Proof.
  revert n. induction p as [|x p IH]; intros n Hl Hf; simpl in *.
  - injection Hl as ->. by rewrite Hf.
  - destruct n as [c'|ch]; [done|].
    destruct (ch !! x) as [c0|] eqn:Ex; [|done].
    destruct p as [|z p].
    + injection Hl as ->. rewrite Hf. simpl. by rewrite insert_id.
    + rewrite (IH c0 Hl Hf). simpl. by rewrite insert_id.
Qed.

Lemma update_entry_ok full p f n c r :
  p ≠ [] → lookup_node p n = Some c → f (Some c) = Ok r →
  ∃ n', update_entry full p f n = Ok n'.
Proof.
  revert n. induction p as [|x p IH]; [done|]. intros n _ Hl Hf; simpl in *.
  destruct n as [c'|ch]; [done|].
  destruct (ch !! x) as [c0|] eqn:Ex; [|done].
  destruct p as [|z p].
  - injection Hl as ->. rewrite Hf. simpl. eauto.
  - destruct (IH c0 ltac:(done) Hl Hf) as [n' ->]. simpl. eauto.
Qed.

Lemma file_at_app p q n : file_at (p ++ q) n = lookup_node p n ≫= file_at q.
Proof. unfold file_at. rewrite lookup_node_app. by destruct (lookup_node p n). Qed.

Lemma file_at_below_file q c : q ≠ [] → file_at q (File c) = None.
Proof. by destruct q. Qed.

Lemma touch_entry_leaf : leaf_op touch_entry.
Proof.
  intros [c|] r q; simpl; intros [= <-] Hq; simpl; [done|].
  by apply file_at_below_file.
Qed.

Lemma write_entry_leaf full content : leaf_op (write_entry full content).
Proof.
  intros [[c|ch]|] r q; simpl; try done; intros [= <-] Hq; simpl;
    by rewrite ?file_at_below_file.
Qed.

Lemma unlink_entry_leaf full : leaf_op (unlink_entry full).
Proof.
  intros [[c|ch]|] r q; simpl; try done; intros [= <-] Hq; simpl.
  by rewrite file_at_below_file.
Qed.

Lemma update_entry_other full p f n n' q :
  leaf_op f → p ≠ [] → update_entry full p f n = Ok n' → q ≠ p →
  file_at q n' = file_at q n.
Proof.
  intros Hf Hp Hu Hq.
  destruct (update_entry_file_at _ _ _ _ _ Hp Hu) as (r & Hr & Hall).
  rewrite Hall. destruct (decide (p `prefix_of` q)) as [[k ->]|]; [|done].
  rewrite drop_app_length, file_at_app.
  apply Hf; [done|]. intros ->. by rewrite app_nil_r in Hq.
Qed.

Lemma update_entry_self full p f n n' :
  p ≠ [] → update_entry full p f n = Ok n' →
  ∃ r, f (lookup_node p n) = Ok r ∧ file_at p n' = r ≫= file_at [].
Proof.
  intros Hp Hu.
  destruct (update_entry_file_at _ _ _ _ _ Hp Hu) as (r & Hr & Hall).
  exists r. split; [done|]. rewrite Hall, decide_True by done.
  by rewrite drop_all.
Qed.

End Tree.

(** ** The operations on the world: lemmas *)

Section Ops.

Implicit Types (p q : Path) (w : World).

Lemma for_each_cons {A S} (x : A) (l : list A) (body : S → A → M S) (s : S) w :
  for_each (x :: l) body s w =
  match body s x w with
  | (Ok s', w') => for_each l body s' w'
  | (Exit c, w') => (Exit c, w')
  | (Raise e, w') => (Raise e, w')
  end.
Proof. reflexivity. Qed.

Lemma for_each_nil {A S} (body : S → A → M S) (s : S) w :
  for_each [] body s w = (Ok s, w).
Proof. reflexivity. Qed.

Lemma world_eta w : mkWorld (fs w) (stdout w) (ok w) = w.
Proof. by destruct w. Qed.

Lemma on_fs_frame op w r w' :
  on_fs op w = (r, w') → stdout w' = stdout w ∧ ok w' = ok w.
Proof. unfold on_fs. destruct (op (fs w)); by intros [= <- <-]. Qed.

Lemma on_fs_inv op w r w' :
  on_fs op w = (r, w') →
  (∃ n', op (fs w) = Ok n' ∧ r = Ok tt ∧ fs w' = n') ∨ (r ≠ Ok tt ∧ w' = w).
Proof.
  unfold on_fs. destruct (op (fs w)) eqn:E; intros [= <- <-]; eauto.
Qed.

Lemma on_fs_id op w : op (fs w) = Ok (fs w) → on_fs op w = (Ok tt, w).
Proof. unfold on_fs. intros ->. by rewrite world_eta. Qed.

Lemma mkdir_parents_file_at p w r w' q :
  mkdir_parents p w = (r, w') → file_at q (fs w') = file_at q (fs w).
Proof.
  intros H. apply on_fs_inv in H as [(n' & E & _ & <-)|[_ ->]]; [|done].
  by eapply mkdir_file_at.
Qed.

Lemma touch_other p w r w' q :
  p ≠ [] → touch p w = (r, w') → q ≠ p → file_at q (fs w') = file_at q (fs w).
Proof.
  intros Hp H Hq. apply on_fs_inv in H as [(n' & E & _ & <-)|[_ ->]]; [|done].
  eapply update_entry_other; eauto using touch_entry_leaf.
Qed.

Lemma touch_self p w r w' c :
  p ≠ [] → touch p w = (r, w') → file_at p (fs w) = Some c →
  file_at p (fs w') = Some c.
Proof.
  intros Hp H Hc. apply on_fs_inv in H as [(n' & E & _ & <-)|[_ ->]]; [|done].
  apply update_entry_self in E as (r' & Hr & ->); [|done].
  unfold file_at in Hc. destruct (lookup_node p (fs w)) as [[c'|]|]; try done.
  simpl in Hr. injection Hr as <-. done.
Qed.

Lemma write_text_other p content w r w' q :
  p ≠ [] → write_text p content w = (r, w') → q ≠ p →
  file_at q (fs w') = file_at q (fs w).
Proof.
  intros Hp H Hq. apply on_fs_inv in H as [(n' & E & _ & <-)|[_ ->]]; [|done].
  eapply update_entry_other; eauto using write_entry_leaf.
Qed.

Lemma write_text_self p content w w' :
  p ≠ [] → write_text p content w = (Ok tt, w') →
  file_at p (fs w') = Some content.
Proof.
  intros Hp H. apply on_fs_inv in H as [(n' & E & _ & <-)|[? _]]; [|done].
  apply update_entry_self in E as (r' & Hr & ->); [|done].
  destruct (lookup_node p (fs w)) as [[c'|]|]; simpl in Hr; try done;
    by injection Hr as <-.
Qed.

Lemma write_text_keeps p content w r w' c :
  p ≠ [] → write_text p content w = (r, w') → file_at p (fs w) = Some c →
  is_Some (file_at p (fs w')).
Proof.
  intros Hp H Hc. pose proof H as H'.
  apply on_fs_inv in H as [(n' & E & -> & <-)|[_ ->]]; [|by eauto].
  rewrite (write_text_self _ _ _ _ Hp H'). eauto.
Qed.

Lemma unlink_other p w r w' q :
  p ≠ [] → unlink p w = (r, w') → q ≠ p → file_at q (fs w') = file_at q (fs w).
Proof.
  intros Hp H Hq. apply on_fs_inv in H as [(n' & E & _ & <-)|[_ ->]]; [|done].
  eapply update_entry_other; eauto using unlink_entry_leaf.
Qed.

Lemma unlink_file p w c :
  p ≠ [] → file_at p (fs w) = Some c →
  ∃ w', unlink p w = (Ok tt, w') ∧ file_at p (fs w') = None
        ∧ stdout w' = stdout w ∧ ok w' = ok w.
Proof.
  intros Hp Hc. unfold file_at in Hc.
  destruct (lookup_node p (fs w)) as [[c'|]|] eqn:El; try done.
  destruct (update_entry_ok p p (unlink_entry p) (fs w) _ None Hp El eq_refl)
    as [n' En].
  exists (mkWorld n' (stdout w) (ok w)). unfold unlink, on_fs. rewrite En.
  split; [done|]. split; [|done]. simpl.
  apply update_entry_self in En as (r' & Hr & ->); [|done].
  rewrite El in Hr. simpl in Hr. by injection Hr as <-.
Qed.

End Ops.

(** ** The write loop of [fix] *)

Section WriteLoop.

Implicit Types (p q : Path) (w : World) (m : Managed).

Lemma write_managed_frame p c w r w' :
  p ≠ [] → write_managed tt (p, c) w = (r, w') →
  stdout w' = stdout w ∧ ok w' = ok w
  ∧ (∀ q, q ≠ p → file_at q (fs w') = file_at q (fs w))
  ∧ (is_Some (file_at p (fs w)) → is_Some (file_at p (fs w')))
  ∧ (r = Ok tt → file_at p (fs w') = Some c).
Proof.
  intros Hp. unfold write_managed. unfold_bind.
  destruct (mkdir_parents (parent p) w) as [r1 w1] eqn:E1.
  pose proof (on_fs_frame _ _ _ _ E1) as [Ho1 Hk1].
  assert (∀ q, file_at q (fs w1) = file_at q (fs w)) as F1
    by (intros q; by eapply mkdir_parents_file_at).
  destruct r1 as [[]| |]; try (intros [= <- <-]; rewrite F1; by eauto).
  destruct (touch p w1) as [r2 w2] eqn:E2.
  pose proof (on_fs_frame _ _ _ _ E2) as [Ho2 Hk2].
  assert (∀ q, q ≠ p → file_at q (fs w2) = file_at q (fs w)) as F2.
  { intros q Hq. rewrite <- F1. by eapply touch_other. }
  assert (is_Some (file_at p (fs w)) → is_Some (file_at p (fs w2))) as K2.
  { intros [c' Hc']. rewrite <- F1 in Hc'. erewrite touch_self; eauto. }
  destruct r2 as [[]| |];
    try (intros [= <- <-]; repeat split; [congruence..|done|done|done]).
  intros E3. pose proof (on_fs_frame _ _ _ _ E3) as [Ho3 Hk3].
  repeat split; [congruence..| | |].
  - intros q Hq. rewrite <- F2 by done. by eapply write_text_other.
  - intros [c' Hc']%K2. by eapply write_text_keeps.
  - intros ->. by eapply write_text_self.
Qed.

Lemma write_managed_id p c w :
  p ≠ [] → file_at p (fs w) = Some c → write_managed tt (p, c) w = (Ok tt, w).
Proof.
  intros Hp Hc. unfold write_managed. unfold_bind.
  destruct (file_at_parent_dir _ _ _ Hp Hc) as [ch Hch].
  unfold mkdir_parents. rewrite on_fs_id by (by eapply mkdir_id).
  unfold file_at in Hc.
  destruct (lookup_node p (fs w)) as [[c'|]|] eqn:El; try done.
  injection Hc as ->.
  unfold touch. rewrite on_fs_id by (by eapply update_entry_id).
  unfold write_text. by rewrite on_fs_id by (by eapply update_entry_id).
Qed.

Lemma keys_nonempty_cons p c m :
  keys_nonempty ((p, c) :: m) → p ≠ [] ∧ keys_nonempty m.
Proof.
  intros H. split; [eapply H; left|]. intros p' c' ?. eapply H. by right.
Qed.

Lemma write_all_frame m w r w' :
  keys_nonempty m → for_each m write_managed tt w = (r, w') →
  stdout w' = stdout w ∧ ok w' = ok w
  ∧ (∀ q, q ∉ m.*1 → file_at q (fs w') = file_at q (fs w))
  ∧ (∀ q, is_Some (file_at q (fs w)) → is_Some (file_at q (fs w'))).
Proof.
  revert w. induction m as [|[p c] m IH]; intros w Hk.
  - rewrite for_each_nil. by intros [= <- <-].
  - apply keys_nonempty_cons in Hk as [Hp Hk]. rewrite for_each_cons.
    destruct (write_managed tt (p, c) w) as [r1 w1] eqn:E1.
    destruct (write_managed_frame _ _ _ _ _ Hp E1) as (Ho & Hok & Hq & Hs & _).
    assert (∀ q, is_Some (file_at q (fs w)) → is_Some (file_at q (fs w1))) as Hs'.
    { intros q. destruct (decide (q = p)) as [->|]; [done|]. by rewrite Hq. }
    assert (∀ q, q ∉ p :: m.*1 → file_at q (fs w1) = file_at q (fs w)) as Hq'.
    { intros q Hin. apply Hq. intros ->. apply Hin. left. }
    destruct r1 as [[]| |]; try (intros [= <- <-]; by eauto).
    intros E2. destruct (IH _ Hk E2) as (Ho2 & Hok2 & Hq2 & Hs2).
    repeat split; [congruence..| |by eauto].
    intros q Hin. rewrite Hq2, Hq'; [done..|]. intros ?. apply Hin. by right.
Qed.

Lemma write_all_done m w w' :
  keys_nonempty m → NoDup m.*1 → for_each m write_managed tt w = (Ok tt, w') →
  ∀ p c, (p, c) ∈ m → file_at p (fs w') = Some c.
Proof.
  revert w. induction m as [|[p c] m IH]; intros w Hk Hnd.
  - intros _ p c H. by apply elem_of_nil in H.
  - apply keys_nonempty_cons in Hk as [Hp Hk]. rewrite fmap_cons in Hnd.
    apply NoDup_cons in Hnd as [Hnotin Hnd]. rewrite for_each_cons.
    destruct (write_managed tt (p, c) w) as [r1 w1] eqn:E1.
    destruct (write_managed_frame _ _ _ _ _ Hp E1) as (_ & _ & _ & _ & Hdone).
    destruct r1 as [[]| |]; try done.
    intros E2 p' c' [[= -> ->]|Hin]%elem_of_cons.
    + destruct (write_all_frame _ _ _ _ Hk E2) as (_ & _ & Hq & _).
      rewrite Hq by done. by apply Hdone.
    + by eapply IH.
Qed.

Lemma write_all_id m w :
  keys_nonempty m → (∀ p c, (p, c) ∈ m → file_at p (fs w) = Some c) →
  for_each m write_managed tt w = (Ok tt, w).
Proof.
  induction m as [|[p c] m IH]; intros Hk Hall; [done|].
  apply keys_nonempty_cons in Hk as [Hp Hk]. rewrite for_each_cons.
  rewrite write_managed_id; [|done|apply Hall; left].
  apply IH; [done|]. intros p' c' ?. apply Hall. by right.
Qed.

End WriteLoop.

(** ** The walk: lemmas *)

Section Walk.

Implicit Types (p q path : Path) (w : World) (n : node) (f : Path → M unit).

Lemma run_all_app f l1 l2 w :
  run_all f (l1 ++ l2) w = (run_all f l1;; run_all f l2) w.
Proof.
  revert w. induction l1 as [|q l1 IH]; intros w; simpl; unfold_bind; [done|].
  destruct (f q w) as [[[]| |] w1]; [apply IH|done..].
Qed.

Lemma traverse_node_run_all n : ∀ path f w,
  traverse_node path n f w = run_all f (files path n) w.
Proof.
  induction n as [c|ch IH] using node_induction; intros path f w.
  { simpl. unfold_bind. by destruct (f path w) as [[[]| |] ?]. }
  change (traverse_node path (Dir ch) f) with
    (map_fold (λ x child rest, traverse_node (path ++ [x]) child f;; rest)
       (ret tt) ch).
  change (files path (Dir ch)) with
    (map_fold (λ x child rest, files (path ++ [x]) child ++ rest) [] ch).
  rewrite !map_fold_foldr.
  assert (∀ x c, (x, c) ∈ map_to_list ch → ∀ path f w,
            traverse_node path c f w = run_all f (files path c) w) as IH'.
  { intros x c Hin. eapply IH. by apply elem_of_map_to_list. }
  clear IH. revert w. induction (map_to_list ch) as [|[x c] l IHl]; intros w.
  - done.
  - simpl. rewrite run_all_app. unfold_bind.
    rewrite (IH' x c) by left.
    destruct (run_all f (files (path ++ [x]) c) w) as [[[]| |] w1]; try done.
    apply IHl. intros x' c' ?. eapply IH'. by right.
Qed.

Lemma elem_of_files n : ∀ path q,
  q ∈ files path n ↔ ∃ q', q = path ++ q' ∧ is_Some (file_at q' n).
Proof.
  induction n as [c|ch IH] using node_induction; intros path q.
  - simpl. rewrite list_elem_of_singleton. split.
    + intros ->. exists []. by rewrite app_nil_r.
    + intros (q' & -> & [c' Hc]). destruct q'; [by rewrite app_nil_r|done].
  - change (files path (Dir ch)) with
      (map_fold (λ x child rest, files (path ++ [x]) child ++ rest) [] ch).
    rewrite map_fold_foldr.
    assert (q ∈ foldr (uncurry (λ x child rest, files (path ++ [x]) child ++ rest))
                  [] (map_to_list ch)
            ↔ ∃ x c, (x, c) ∈ map_to_list ch ∧ q ∈ files (path ++ [x]) c) as ->.
    { induction (map_to_list ch) as [|[x c] l IHl]; simpl.
      - split; [by intros ?%elem_of_nil|by intros (? & ? & ?%elem_of_nil & _)].
      - rewrite elem_of_app, IHl. split.
        + intros [?|(x' & c' & ? & ?)]; [exists x, c|exists x', c'];
            split; auto; by constructor.
        + intros (x' & c' & [[= -> ->]|?]%elem_of_cons & ?); eauto. }
    split.
    + intros (x & c & Hin%elem_of_map_to_list & Hq).
      apply (IH x c Hin) in Hq as (q' & -> & Hq').
      exists (x :: q'). split; [by rewrite <- app_assoc|].
      by rewrite file_at_cons, Hin.
    + intros (q' & -> & Hq'). destruct q' as [|x q']; [by destruct Hq'|].
      rewrite file_at_cons in Hq'. destruct (ch !! x) as [c|] eqn:Ex;
        [|by destruct Hq'].
      exists x, c. split; [by apply elem_of_map_to_list|].
      apply (IH x c Ex). exists q'. split; [by rewrite <- app_assoc|done].
Qed.

Lemma NoDup_files n : ∀ path, NoDup (files path n).
Proof.
  induction n as [c|ch IH] using node_induction; intros path.
  - apply NoDup_singleton.
  - change (files path (Dir ch)) with
      (map_fold (λ x child rest, files (path ++ [x]) child ++ rest) [] ch).
    rewrite map_fold_foldr.
    pose proof (NoDup_fst_map_to_list ch) as Hnd.
    assert (∀ x c, (x, c) ∈ map_to_list ch → ∀ path, NoDup (files path c)) as IH'.
    { intros x c Hin. eapply IH. by apply elem_of_map_to_list. }
    clear IH. induction (map_to_list ch) as [|[x c] l IHl]; simpl.
    + apply NoDup_nil_2.
    + simpl in Hnd. apply NoDup_cons in Hnd as [Hx Hnd].
      apply NoDup_app. split; [eapply IH'; left|]. split.
      * intros q Hq1 Hq2. apply Hx.
        apply elem_of_files in Hq1 as (q1 & -> & _).
        clear IHl IH' Hnd Hx. induction l as [|[y c'] l IHl]; simpl in Hq2.
        { by apply elem_of_nil in Hq2. }
        apply elem_of_app in Hq2 as [Hq2|Hq2].
        -- apply elem_of_files in Hq2 as (q2 & Heq & _).
           rewrite <- !app_assoc in Heq. apply app_inv_head in Heq.
           injection Heq as -> _. simpl. left.
        -- simpl. right. by apply IHl.
      * apply IHl; [done|]. intros x' c' ?. eapply IH'. by right.
Qed.

End Walk.

(** ** The generator returns the rendered files *)

Section Generator.

Implicit Types (p q : Path) (w : World) (m managed : Managed) (s : string).

Lemma append_assoc s1 s2 s3 : (s1 +:+ s2) +:+ s3 = s1 +:+ (s2 +:+ s3).
Proof.
  induction s1 as [|a s1 IH]; [done|].
  change (String a ((s1 +:+ s2) +:+ s3) = String a (s1 +:+ (s2 +:+ s3))).
  by rewrite IH.
Qed.

Lemma append_nil_r s : s +:+ EmptyString = s.
Proof.
  induction s as [|a s IH]; [done|].
  change (String a (s +:+ EmptyString) = String a s). by rewrite IH.
Qed.

Lemma dict_append_set p s v m :
  dict_append p s (dict_set p v m) = dict_set p (v +:+ s) m.
Proof.
  induction m as [|[k v'] m IH]; simpl.
  - by rewrite decide_True.
  - destruct (decide (k = p)) as [->|Hne]; simpl.
    + by rewrite decide_True.
    + rewrite decide_False by done. by rewrite IH.
Qed.

Lemma export_import_run pkg acc managed imported x w :
  export_import pkg (dict_set pkg acc managed, imported, ∅) x w =
  (rhs ← binding_rhs x;
   Ok (dict_set pkg
         (acc +:+ (if bool_decide (x.1.1 ∉ imported)
                   then "import " +:+ x.1.1 +:+ nl else EmptyString)
              +:+ (alias_of x +:+ " = " +:+ rhs +:+ nl)) managed,
       imported ∪ (if bool_decide (x.1.1 ∉ imported) then {[x.1.1]} else ∅),
       ∅), w).
Proof.
  destruct x as [[f i] im]. unfold export_import, binding_rhs, alias_of.
  unfold_bind. simpl.
  rewrite bool_decide_eq_false_2 by set_solver.
  destruct (bool_decide (f ∉ imported)) eqn:Ef;
    destruct (deprecated im); simpl;
    try destruct (truthy (available_until im)); simpl;
    rewrite ?dict_append_set, ?append_assoc, ?append_nil_r; try done.
  all: by rewrite ?(right_id_L ∅ (∪)).
Qed.

Lemma for_each_export pkg managed w l : ∀ acc imported,
  match render_lines imported l with
  | Ok body =>
      ∃ imported',
        for_each l (export_import pkg) (dict_set pkg acc managed, imported, ∅) w
        = (Ok (dict_set pkg (acc +:+ body) managed, imported', ∅), w)
  | Exit _ => False
  | Raise e =>
      for_each l (export_import pkg) (dict_set pkg acc managed, imported, ∅) w
      = (Raise e, w)
  end.
Proof.
  induction l as [|x l IH]; intros acc imported.
  - simpl. rewrite append_nil_r. eauto.
  - rewrite for_each_cons, export_import_run. simpl.
    destruct (binding_rhs x) as [rhs| |] eqn:Er; simpl.
    + assert (imported ∪ (if bool_decide (x.1.1 ∉ imported) then {[x.1.1]} else ∅)
              = imported ∪ {[x.1.1]}) as ->.
      { case_bool_decide as Hd; [done|].
        rewrite (right_id_L ∅ (∪)). apply set_eq. intros y.
        rewrite elem_of_union, elem_of_singleton.
        split; [by left|]. by intros [?| ->]. }
      specialize (IH (acc +:+ (if bool_decide (x.1.1 ∉ imported)
                               then "import " +:+ x.1.1 +:+ nl else EmptyString)
                          +:+ (alias_of x +:+ " = " +:+ rhs +:+ nl))
                     (imported ∪ {[x.1.1]})).
      destruct (render_lines (imported ∪ {[x.1.1]}) l) as [body| |]; simpl;
        [|done..].
      destruct IH as [imp' ->]. exists imp'. by rewrite !append_assoc.
    + destruct x as [[f i] im]. simpl in Er.
      destruct (deprecated im); [destruct (truthy (available_until im))|]; done.
    + done.
Qed.

Lemma tuple_lt_no_exit a b c : tuple_lt a b ≠ Exit c.
Proof.
  destruct a as [[f1 i1] im1], b as [[f2 i2] im2]. unfold tuple_lt.
  by repeat case_match.
Qed.

Lemma insort_no_exit x l c : insort x l ≠ Exit c.
Proof.
  induction l as [|y l IH]; simpl; [done|].
  destruct (tuple_lt x y) as [[]| |] eqn:E; simpl; try done.
  - by destruct (insort x l).
  - by apply tuple_lt_no_exit in E.
Qed.

Lemma sort_onto_no_exit l : ∀ sorted c, sort_onto sorted l ≠ Exit c.
Proof.
  induction l as [|x l IH]; intros sorted c; simpl; [done|].
  destruct (insort x sorted) eqn:E; simpl; try done.
  by apply insort_no_exit in E.
Qed.

Lemma manage_package_run root managed pkg imports w :
  manage_package root managed (pkg, imports) w =
  (c ← render imports; Ok (dict_set (package_path root pkg) c managed), w).
Proof.
  unfold manage_package, render. fold (package_path root pkg).
  destruct imports as [|x imports]; [done|].
  rewrite dict_append_set. unfold_bind.
  destruct (list_sort (x :: imports)) as [sorted|c|e] eqn:Es; simpl; [|done..].
  pose proof (for_each_export (package_path root pkg) managed w sorted
    (header +:+ "import hopsworks.internal.aliases" +:+ nl)
    {["hopsworks.internal.aliases"]}) as H.
  destruct (render_lines {["hopsworks.internal.aliases"]} sorted) as [body| |];
    simpl.
  - destruct H as [imp' ->]. by rewrite append_assoc.
  - done.
  - by rewrite H.
Qed.

Lemma for_each_manage root registry : ∀ managed w,
  for_each registry (manage_package root) managed w =
  (collect_from root managed registry, w).
Proof.
  induction registry as [|[pkg imports] registry IH]; intros managed w; [done|].
  rewrite for_each_cons, manage_package_run. simpl.
  destruct (render imports); simpl; [apply IH|done..].
Qed.

Lemma collect_managed_run root registry w :
  collect_managed root registry w = (collect_from root [] registry, w).
Proof. apply for_each_manage. Qed.

Lemma render_lines_no_exit l : ∀ imported c, render_lines imported l ≠ Exit c.
Proof.
  induction l as [|[[f i] im] l IH]; intros imported c; simpl; [done|].
  destruct (deprecated im); [destruct (truthy (available_until im))|];
    simpl; try done.
  all: specialize (IH (imported ∪ {[f]}));
    by destruct (render_lines (imported ∪ {[f]}) l).
Qed.

Lemma render_no_exit imports c : render imports ≠ Exit c.
Proof.
  unfold render. destruct imports as [|x l]; [done|].
  destruct (list_sort (x :: l)) as [sorted| |] eqn:Es; simpl.
  - pose proof (render_lines_no_exit sorted {["hopsworks.internal.aliases"]} c).
    by destruct (render_lines {["hopsworks.internal.aliases"]} sorted).
  - by apply sort_onto_no_exit in Es.
  - done.
Qed.

Lemma collect_from_no_exit root registry : ∀ managed c,
  collect_from root managed registry ≠ Exit c.
Proof.
  induction registry as [|[pkg imports] registry IH]; intros managed c; simpl;
    [done|].
  destruct (render imports) eqn:E; simpl; [apply IH| |done].
  by apply render_no_exit in E.
Qed.

End Generator.

(** ** The generated content *)

Section Content.

Implicit Types (p q : Path) (w : World) (m managed : Managed).

Lemma package_path_init root pkg :
  package_path root pkg = joinpath root (replace "." "/" pkg) ++ ["__init__.py"].
Proof. reflexivity. Qed.

Lemma package_path_nonempty root pkg : package_path root pkg ≠ [].
Proof. rewrite package_path_init. by destruct (joinpath root _). Qed.

(** Every step of the generator leaves the world as it is: it prints
    nothing and never leaves through [exit]. *)
Lemma collect_managed_silent root registry w r w' :
  collect_managed root registry w = (r, w') → w' = w ∧ ∀ c, r ≠ Exit c.
Proof.
  rewrite collect_managed_run. intros [= <- <-]. split; [done|].
  apply collect_from_no_exit.
Qed.

Lemma dict_get_set_eq p v m : dict_get p (dict_set p v m) = Some v.
Proof.
  induction m as [|[k v'] m IH]; simpl.
  - by rewrite decide_True.
  - destruct (decide (k = p)) as [->|Hne]; simpl.
    + by rewrite decide_True.
    + by rewrite decide_False.
Qed.

Lemma dict_get_set_ne p q v m : p ≠ q → dict_get q (dict_set p v m) = dict_get q m.
Proof.
  intros Hne. induction m as [|[k v'] m IH]; simpl.
  - by rewrite decide_False.
  - destruct (decide (k = p)) as [->|Hkp]; simpl.
    + by rewrite !decide_False.
    + destruct (decide (k = q)); [done|apply IH].
Qed.

Lemma dict_get_Some p v m : dict_get p m = Some v → (p, v) ∈ m.
Proof.
  induction m as [|[k v'] m IH]; simpl; [done|].
  destruct (decide (k = p)) as [->|Hne].
  - intros [= ->]. left.
  - intros H. right. by apply IH.
Qed.

Lemma dict_get_None p m : dict_get p m = None ↔ p ∉ m.*1.
Proof.
  induction m as [|[k v'] m IH]; simpl.
  - split; [intros _ H; by apply elem_of_nil in H|done].
  - rewrite elem_of_cons. destruct (decide (k = p)) as [->|Hne].
    + split; [done|]. intros H. destruct H. by left.
    + rewrite IH. split; [|by auto]. intros H [?|?]; [by subst|done].
Qed.

Lemma dict_mem_true p m : dict_mem p m = true ↔ p ∈ m.*1.
Proof.
  unfold dict_mem. destruct (dict_get p m) eqn:E.
  - split; [|done]. intros _. destruct (decide (p ∈ m.*1)) as [|Hn]; [done|].
    apply dict_get_None in Hn. congruence.
  - apply dict_get_None in E. by split.
Qed.

Lemma dict_get_NoDup p v m : NoDup m.*1 → (p, v) ∈ m → dict_get p m = Some v.
Proof.
  induction m as [|[k v'] m IH]; simpl; intros Hnd Hin.
  - by apply elem_of_nil in Hin.
  - apply NoDup_cons in Hnd as [Hk Hnd].
    apply elem_of_cons in Hin as [[= -> ->]|Hin].
    + by rewrite decide_True.
    + rewrite decide_False; [by apply IH|]. intros ->. apply Hk.
      apply list_elem_of_fmap. by exists (p, v).
Qed.

Lemma dict_set_keys p v m :
  (dict_set p v m).*1 = if decide (p ∈ m.*1) then m.*1 else m.*1 ++ [p].
Proof.
  induction m as [|[k v'] m IH]; [done|].
  cbn [dict_set]. rewrite (fmap_cons fst (k, v')). cbn [fst].
  destruct (decide (k = p)) as [->|Hne].
  - rewrite fmap_cons, decide_True; [done|left].
  - rewrite fmap_cons, IH. cbn [fst]. destruct (decide (p ∈ m.*1)) as [Hin|Hin].
    + rewrite decide_True; [done|by right].
    + rewrite decide_False; [done|]. intros [?|?]%elem_of_cons; by subst.
Qed.

Lemma dict_set_fresh p v m : p ∉ m.*1 → dict_set p v m = m ++ [(p, v)].
Proof.
  induction m as [|[k v'] m IH]; simpl; intros Hin; [done|].
  rewrite decide_False.
  - rewrite IH; [done|]. intros ?. apply Hin. by right.
  - intros ->. apply Hin. left.
Qed.

Lemma dict_set_NoDup p v m : NoDup m.*1 → NoDup (dict_set p v m).*1.
Proof.
  intros Hnd. rewrite dict_set_keys. case_decide; [done|].
  apply NoDup_app. split; [done|]. split; [|apply NoDup_singleton].
  intros x Hx ->%list_elem_of_singleton. done.
Qed.

Lemma collect_from_keys root registry : ∀ managed m,
  collect_from root managed registry = Ok m →
  NoDup managed.*1 →
  NoDup m.*1 ∧ ∀ p, p ∈ m.*1 ↔ p ∈ managed.*1 ∨ p ∈ package_paths root registry.
Proof.
  induction registry as [|[pkg imports] registry IH]; intros managed m; simpl.
  - intros [= <-] Hnd. split; [done|]. intros p. rewrite elem_of_nil. tauto.
  - destruct (render imports) as [c| |]; simpl; [|done..]. intros Hc Hnd.
    destruct (IH _ _ Hc (dict_set_NoDup _ c _ Hnd)) as [Hnd' Hkeys].
    split; [done|]. intros p. rewrite Hkeys, dict_set_keys.
    rewrite elem_of_cons. cbn [fst].
    case_decide as Hd; rewrite ?elem_of_app, ?list_elem_of_singleton; [|tauto].
    split; [tauto|]. intros [?|[->|?]]; auto.
Qed.

Lemma collect_from_get_other root registry : ∀ managed m p,
  collect_from root managed registry = Ok m →
  p ∉ package_paths root registry → dict_get p m = dict_get p managed.
Proof.
  induction registry as [|[pkg imports] registry IH]; intros managed m p; simpl.
  - by intros [= <-].
  - destruct (render imports) as [c| |]; simpl; [|done..]. intros Hc Hp.
    rewrite (IH _ _ _ Hc) by (intros ?; apply Hp; by right).
    apply dict_get_set_ne. intros <-. apply Hp. left.
Qed.

Lemma collect_from_get root registry : ∀ managed m pkg imports,
  collect_from root managed registry = Ok m →
  NoDup (package_paths root registry) →
  (pkg, imports) ∈ registry →
  ∃ c, render imports = Ok c ∧ dict_get (package_path root pkg) m = Some c.
Proof.
  induction registry as [|[pkg' imports'] registry IH];
    intros managed m pkg imports; simpl.
  - intros _ _ H. by apply elem_of_nil in H.
  - destruct (render imports') as [c| |] eqn:Er; simpl; [|done..].
    intros Hc Hnd Hin. apply NoDup_cons in Hnd as [Hfresh Hnd].
    apply elem_of_cons in Hin as [[= -> ->]|Hin].
    + exists c. split; [done|].
      rewrite (collect_from_get_other _ _ _ _ _ Hc Hfresh).
      apply dict_get_set_eq.
    + by eapply IH.
Qed.

End Content.

(** ** Sorting the declarations of a package *)

Section Sorting.

Implicit Types (a b x y : Import) (l : list Import).

#[local] Instance conflict_dec a b : Decision (conflict a b).
Proof. unfold conflict, same_key. apply _. Defined.

Lemma ltb_true s1 s2 : String.ltb s1 s2 = true → String.le s1 s2 ∧ s1 ≠ s2.
Proof.
  unfold String.ltb, String.le, String.leb.
  destruct (String.compare s1 s2) eqn:E; try done. intros _. split; [exact I|].
  intros ->. pose proof (String.compare_antisym s2 s2) as Ha.
  by rewrite E in Ha.
Qed.

Lemma ltb_false s1 s2 : String.ltb s1 s2 = false → String.le s2 s1.
Proof.
  unfold String.ltb, String.le, String.leb. rewrite (String.compare_antisym s2 s1).
  destruct (String.compare s1 s2); simpl; try done; intros _; exact I.
Qed.

Lemma eqb_false s1 s2 : String.eqb s1 s2 = false ↔ s1 ≠ s2.
Proof. by rewrite <- String.eqb_neq. Qed.

#[local] Instance import_le_trans : Transitive import_le.
Proof.
  intros a b c [Hab Hab'] [Hbc Hbc']. split; [by etrans|].
  intros Heq. assert (a.1.1 = b.1.1) as E1.
  { apply (anti_symm String.le); [done|]. by rewrite Heq. }
  assert (b.1.1 = c.1.1) as E2 by congruence.
  etrans; [by apply Hab'|by apply Hbc'].
Qed.

Lemma import_le_antisym a b : import_le a b → import_le b a → same_key a b.
Proof.
  intros [H1 H1'] [H2 H2'].
  assert (a.1.1 = b.1.1) as E by (by apply (anti_symm String.le)).
  split; [done|]. apply (anti_symm String.le); auto.
Qed.

Lemma import_le_same a b : same_key a b → import_le a b.
Proof. intros [E1 E2]. split; [by rewrite E1|]. intros _. by rewrite E2. Qed.

Lemma conflict_sym a b : conflict a b → conflict b a.
Proof. intros [[??] ?]. split; [by split|done]. Qed.

(** What a comparison of two tuples returns. *)
Lemma tuple_lt_cases a b :
  (tuple_lt a b = Ok true ∧ import_le a b ∧ ¬ same_key a b)
  ∨ (tuple_lt a b = Ok false ∧ import_le b a ∧ ¬ conflict a b)
  ∨ (tuple_lt a b = Raise TypeError ∧ conflict a b).
Proof.
  destruct a as [[f1 i1] im1], b as [[f2 i2] im2].
  unfold tuple_lt, import_le, conflict, same_key. simpl.
  destruct (String.eqb f1 f2) eqn:Ef; simpl.
  - apply String.eqb_eq in Ef as ->.
    destruct (String.eqb i1 i2) eqn:Ei; simpl.
    + apply String.eqb_eq in Ei as ->. case_bool_decide as Him.
      * subst. right. left. repeat split; try done. by intros [_ ?].
      * right. right. repeat split; try done. congruence.
    + apply eqb_false in Ei. destruct (String.ltb i1 i2) eqn:El.
      * apply ltb_true in El as [??]. left. repeat split; try done.
        by intros [_ ?].
      * apply ltb_false in El. right. left. repeat split; try done.
        by intros [[_ ?] _].
  - apply eqb_false in Ef. destruct (String.ltb f1 f2) eqn:El.
    + apply ltb_true in El as [??]. left. repeat split; try done.
      by intros [? _].
    + apply ltb_false in El. right. left. repeat split; try done;
        first [by intros ->|by intros [[? _] _]].
Qed.

Lemma insort_ok x l :
  Forall (λ y, ¬ conflict x y) l →
  ∃ l', insort x l = Ok l' ∧ x :: l ≡ₚ l'
        ∧ (StronglySorted import_le l → StronglySorted import_le l').
Proof.
  induction l as [|y l IH]; intros Hx; simpl.
  - exists [x]. split; [done|]. split; [done|]. intros _. by repeat constructor.
  - apply Forall_cons in Hx as [Hxy Hx].
    destruct (tuple_lt_cases x y) as [(-> & Hle & _)|[(-> & Hle & _)|(_ & ?)]];
      simpl; [| |done].
    + exists (x :: y :: l). split; [done|]. split; [done|]. intros Hs.
      constructor; [done|]. constructor; [done|].
      apply StronglySorted_inv in Hs as [_ Hs].
      eapply Forall_impl; [exact Hs|]. intros z ?. by etrans.
    + destruct (IH Hx) as (l' & -> & Hp & Hs'). simpl.
      exists (y :: l'). split; [done|]. split.
      { rewrite <- Hp. apply Permutation_swap. }
      intros Hs. apply StronglySorted_inv in Hs as [Hs Hy].
      constructor; [by apply Hs'|]. rewrite <- Hp. by constructor.
Qed.

Lemma insort_raise x l :
  StronglySorted import_le l → Exists (conflict x) l →
  insort x l = Raise TypeError.
Proof.
  induction l as [|y l IH]; intros Hs Hex; simpl.
  - by apply Exists_nil in Hex.
  - apply StronglySorted_inv in Hs as [Hs Hy].
    destruct (tuple_lt_cases x y) as [(-> & Hle & Hk)|[(-> & Hle & Hc)|(-> & _)]];
      simpl; [| |done].
    + exfalso. apply Exists_cons in Hex as [[Hsame _]|Hex]; [done|].
      apply Exists_exists in Hex as (z & Hz & [Hsame _]).
      rewrite Forall_forall in Hy. apply Hk.
      apply import_le_antisym; [done|]. etrans; [by apply Hy|].
      apply import_le_same. by destruct Hsame.
    + apply Exists_cons in Hex as [?|Hex]; [done|]. by rewrite IH.
Qed.

Lemma has_conflict_perm l1 l2 : l1 ≡ₚ l2 → has_conflict l1 → has_conflict l2.
Proof.
  intros Hp. unfold has_conflict. rewrite !Exists_exists.
  intros (a & Ha & Hex). exists a. split; [by rewrite <- Hp|].
  revert Hex. rewrite !Exists_exists. intros (b & Hb & ?). exists b.
  split; [by rewrite <- Hp|done].
Qed.

Lemma has_conflict_cons x l :
  has_conflict (x :: l) ↔ Exists (conflict x) l ∨ has_conflict l.
Proof.
  unfold has_conflict. rewrite !Exists_exists. setoid_rewrite Exists_exists.
  split.
  - intros (a & [->|Ha]%elem_of_cons & b & [->|Hb]%elem_of_cons & Hc).
    + by destruct Hc as [_ ?].
    + left. eauto.
    + left. exists a. split; [done|]. by apply conflict_sym.
    + right. eauto.
  - intros [(b & Hb & Hc)|(a & Ha & b & Hb & Hc)].
    + exists x. split; [left|]. exists b. split; [by right|done].
    + exists a. split; [by right|]. exists b. split; [by right|done].
Qed.

(** The sort returns the sorted list when it can order the tuples, and
    raises as soon as two of them tie on the key and differ. *)
Lemma sort_onto_spec l : ∀ sorted,
  StronglySorted import_le sorted → ¬ has_conflict sorted →
  if decide (has_conflict (sorted ++ l))
  then sort_onto sorted l = Raise TypeError
  else ∃ l', sort_onto sorted l = Ok l' ∧ sorted ++ l ≡ₚ l'
             ∧ StronglySorted import_le l'.
Proof.
  induction l as [|x l IH]; intros sorted Hs Hnc; simpl.
  - rewrite app_nil_r. rewrite decide_False by done. eauto.
  - assert (sorted ++ x :: l ≡ₚ (x :: sorted) ++ l) as Hp.
    { simpl. by rewrite Permutation_middle. }
    destruct (decide (Exists (conflict x) sorted)) as [Hex|Hex].
    + rewrite decide_True.
      * by rewrite insort_raise.
      * apply (has_conflict_perm _ _ (symmetry Hp)). simpl.
        apply has_conflict_cons. left. apply Exists_app. by left.
    + apply not_Exists_Forall in Hex; [|apply _].
      destruct (insort_ok x sorted Hex) as (s' & -> & Hp' & Hs'). simpl.
      assert (¬ has_conflict s') as Hnc'.
      { intros Hc. apply (has_conflict_perm _ _ (symmetry Hp')) in Hc.
        apply has_conflict_cons in Hc as [Hc|Hc]; [|done].
        apply Exists_exists in Hc as (b & Hb & Hc).
        rewrite Forall_forall in Hex. by apply (Hex b). }
      specialize (IH s' (Hs' Hs) Hnc').
      assert (sorted ++ x :: l ≡ₚ s' ++ l) as Hp2 by (by rewrite Hp, Hp').
      destruct (decide (has_conflict (s' ++ l))) as [Hc|Hc].
      * rewrite decide_True; [done|]. by apply (has_conflict_perm _ _ (symmetry Hp2)).
      * rewrite decide_False.
        -- destruct IH as (l' & -> & ? & ?). exists l'. split; [done|].
           split; [by rewrite Hp2|done].
        -- intros ?. apply Hc. by apply (has_conflict_perm _ _ Hp2).
Qed.

Lemma list_sort_spec l :
  if decide (has_conflict l)
  then list_sort l = Raise TypeError
  else ∃ l', list_sort l = Ok l' ∧ l ≡ₚ l' ∧ StronglySorted import_le l'.
Proof.
  apply (sort_onto_spec l []); [constructor|]. unfold has_conflict.
  by intros ?%Exists_nil.
Qed.

(** A sorted list without ties is determined by its elements. *)
Lemma sorted_unique l1 : ∀ l2,
  StronglySorted import_le l1 → StronglySorted import_le l2 →
  ¬ has_conflict l1 → l1 ≡ₚ l2 → l1 = l2.
Proof.
  induction l1 as [|a l1 IH]; intros l2 Hs1 Hs2 Hnc Hp.
  - by apply Permutation_nil_l in Hp.
  - destruct l2 as [|b l2]; [by apply Permutation_nil_r in Hp|].
    apply StronglySorted_inv in Hs1 as [Hs1 Ha].
    apply StronglySorted_inv in Hs2 as [Hs2 Hb].
    rewrite Forall_forall in Ha, Hb.
    assert (a = b) as ->.
    { destruct (decide (a = b)) as [|Hne]; [done|]. exfalso. apply Hnc.
      assert (b ∈ l1) as Hb1.
      { assert (b ∈ a :: l1) as [?|?]%elem_of_cons by (rewrite Hp; left);
          [by subst|done]. }
      assert (a ∈ l2) as Ha2.
      { assert (a ∈ b :: l2) as [?|?]%elem_of_cons by (rewrite <- Hp; left);
          [by subst|done]. }
      apply has_conflict_cons. left. apply Exists_exists. exists b.
      split; [done|]. split; [|done]. apply import_le_antisym; auto. }
    f_equal. apply IH; [done..| |by apply Permutation_cons_inv in Hp].
    intros Hc. apply Hnc. apply has_conflict_cons. by right.
Qed.

Lemma list_sort_perm l1 l2 : l1 ≡ₚ l2 → list_sort l1 = list_sort l2.
Proof.
  intros Hp. pose proof (list_sort_spec l1) as H1.
  pose proof (list_sort_spec l2) as H2.
  destruct (decide (has_conflict l1)) as [Hc1|Hc1].
  - rewrite decide_True in H2 by (by eapply has_conflict_perm). congruence.
  - rewrite decide_False in H2.
    + destruct H1 as (s1 & -> & Hp1 & Hs1), H2 as (s2 & -> & Hp2 & Hs2).
      f_equal. apply sorted_unique; [done..| |].
      * intros Hc. apply Hc1. by apply (has_conflict_perm _ _ (symmetry Hp1)).
      * by rewrite <- Hp1, Hp.
    + intros Hc. apply Hc1. by apply (has_conflict_perm _ _ (symmetry Hp)).
Qed.

Lemma render_perm l1 l2 : l1 ≡ₚ l2 → render l1 = render l2.
Proof.
  intros Hp. unfold render. destruct l1 as [|a l1], l2 as [|b l2]; [done| | |].
  - by apply Permutation_nil_l in Hp.
  - by apply Permutation_nil_r in Hp.
  - by rewrite (list_sort_perm _ _ Hp).
Qed.

End Sorting.

(** ** Reordering the registry *)

Section Order.

Implicit Types (p q : Path) (w : World) (m managed : Managed) (r : Registry).

Lemma rendered_keys root r m :
  rendered root r = Ok m → m.*1 = package_paths root r.
Proof.
  revert m. induction r as [|[pkg imports] r IH]; intros m; simpl.
  - by intros [= <-].
  - destruct (render imports) as [c| |]; simpl; [|done..].
    destruct (rendered root r) as [rest| |]; simpl; [|done..].
    intros [= <-]. rewrite fmap_cons. simpl. f_equal. by apply IH.
Qed.

Lemma collect_from_rendered root r : ∀ managed,
  NoDup (managed.*1 ++ package_paths root r) →
  collect_from root managed r = (rest ← rendered root r; Ok (managed ++ rest)).
Proof.
  induction r as [|[pkg imports] r IH]; intros managed Hnd; simpl.
  - by rewrite app_nil_r.
  - destruct (render imports) as [c| |]; simpl; [|done..].
    assert (package_path root pkg ∉ managed.*1) as Hfresh.
    { apply NoDup_app in Hnd as (_ & Hd & _). intros Hin.
      apply (Hd _ Hin). left. }
    rewrite dict_set_fresh by done. rewrite IH.
    + destruct (rendered root r); simpl; [|done..]. by rewrite <- app_assoc.
    + rewrite fmap_app, <- app_assoc. done.
Qed.

Lemma rendered_perm root r1 r2 :
  r1 ≡ₚ r2 → ∀ m1, rendered root r1 = Ok m1 →
  ∃ m2, rendered root r2 = Ok m2 ∧ m1 ≡ₚ m2.
Proof.
  induction 1 as [|[pkg imports] r1 r2 Hp IH|[pkg1 i1] [pkg2 i2] r|r1 r2 r3 _ IH1 _ IH2];
    intros m1; simpl.
  - intros [= <-]. eauto.
  - destruct (render imports) as [c| |]; simpl; [|done..].
    destruct (rendered root r1) as [rest| |]; simpl; [|done..].
    intros [= <-]. destruct (IH rest eq_refl) as (m2 & -> & Hm). simpl.
    exists ((package_path root pkg, c) :: m2). split; [done|]. by constructor.
  - destruct (render i2) as [c2| |]; simpl; [|done..].
    destruct (render i1) as [c1| |]; simpl; [|done..].
    destruct (rendered root r) as [rest| |]; simpl; [|done..].
    intros [= <-]. eexists. split; [done|]. apply Permutation_swap.
  - intros H1. destruct (IH1 _ H1) as (m2 & H2 & Hp2).
    destruct (IH2 _ H2) as (m3 & H3 & Hp3). exists m3. split; [done|].
    by etrans.
Qed.

Lemma rendered_Forall2 root r1 r2 :
  Forall2 (λ e1 e2, e1.1 = e2.1 ∧ e1.2 ≡ₚ e2.2) r1 r2 →
  rendered root r1 = rendered root r2.
Proof.
  induction 1 as [|[pkg1 i1] [pkg2 i2] r1 r2 [Hk Hp] _ IH]; simpl; [done|].
  simpl in Hk, Hp. subst. by rewrite (render_perm _ _ Hp), IH.
Qed.

Lemma package_paths_same root r1 r2 :
  same_declarations r1 r2 → package_paths root r1 ≡ₚ package_paths root r2.
Proof.
  intros (r & Hp & Hf). unfold package_paths. rewrite Hp. clear Hp.
  induction Hf as [|[pkg1 i1] [pkg2 i2] r1' r2' [Hk _] _ IH]; [done|].
  rewrite !fmap_cons. simpl in *. subst. by constructor.
Qed.

Lemma dict_get_perm p m1 m2 :
  NoDup m1.*1 → m1 ≡ₚ m2 → dict_get p m2 = dict_get p m1.
Proof.
  intros Hnd Hp. assert (NoDup m2.*1) as Hnd2 by (by rewrite <- Hp).
  destruct (dict_get p m1) as [v|] eqn:E1.
  - apply dict_get_Some in E1. apply dict_get_NoDup; [done|]. by rewrite <- Hp.
  - apply dict_get_None in E1. apply dict_get_None. by rewrite <- Hp.
Qed.

End Order.

(** ** The walks of [fix] and [check] *)

Section Walks.

Implicit Types (p q root : Path) (w : World) (m managed : Managed).

Lemma run_all_cons f q l w :
  run_all f (q :: l) w =
  match f q w with
  | (Ok _, w') => run_all f l w'
  | (Exit c, w') => (Exit c, w')
  | (Raise e, w') => (Raise e, w')
  end.
Proof. reflexivity. Qed.

Lemma traverse_run root f w :
  traverse root f w = run_all f (tree_files root (fs w)) w.
Proof.
  unfold traverse, tree_files, get_fs. unfold_bind.
  destruct (lookup_node root (fs w)); [apply traverse_node_run_all|done].
Qed.

Lemma elem_of_tree_files root n q :
  q ∈ tree_files root n ↔ root `prefix_of` q ∧ is_Some (file_at q n).
Proof.
  unfold tree_files. destruct (lookup_node root n) as [t|] eqn:E.
  - rewrite elem_of_files. split.
    + intros (q' & -> & Hq'). split; [by apply prefix_app_r|].
      by rewrite file_at_app, E.
    + intros [[q' ->] Hq]. exists q'. split; [done|].
      by rewrite file_at_app, E in Hq.
  - rewrite elem_of_nil. split; [done|]. intros [[q' ->] Hq].
    rewrite file_at_app, E in Hq. by destruct Hq.
Qed.

Lemma NoDup_tree_files root n : NoDup (tree_files root n).
Proof.
  unfold tree_files. destruct (lookup_node root n); [apply NoDup_files|].
  apply NoDup_nil_2.
Qed.

Lemma remove_if_excess_run root ign m q :
  remove_if_excess root ign m q =
  if excess root ign m q then unlink q else ret tt.
Proof.
  unfold remove_if_excess, excess.
  destruct (bool_decide (parent q = root)); [done|].
  destruct (existsb (is_relative_to q) ign); [done|].
  by destruct (dict_mem q m).
Qed.

Lemma check_file_run root ign m q :
  check_file root ign m q =
  if reportable root ign m q then (print (ShouldntExist q);; set_ok false)
  else ret tt.
Proof.
  unfold check_file, reportable, excess, bytecode.
  destruct (bool_decide (parent q = root)); [done|].
  destruct (existsb (is_relative_to q) ign); [done|]. simpl.
  destruct (String.eqb (suffix q) ".pyc" || bool_decide ("__pycache__" ∈ q));
    simpl; [by rewrite andb_false_r|].
  rewrite andb_true_r. by destruct (dict_mem q m).
Qed.

Lemma excess_nonempty root ign m q :
  root `prefix_of` q → excess root ign m q = true → q ≠ [].
Proof.
  intros Hp He ->. apply prefix_nil_inv in Hp as ->.
  unfold excess in He. by rewrite bool_decide_eq_true_2 in He.
Qed.

(** The walk of [fix] removes the excess files among those it visits and
    nothing else. *)
Lemma fix_walk root ign m l : ∀ w,
  NoDup l →
  (∀ q, q ∈ l → root `prefix_of` q ∧ is_Some (file_at q (fs w))) →
  ∃ w', run_all (remove_if_excess root ign m) l w = (Ok tt, w')
        ∧ stdout w' = stdout w ∧ ok w' = ok w
        ∧ ∀ q, file_at q (fs w') =
               if decide (q ∈ l ∧ excess root ign m q = true) then None
               else file_at q (fs w).
Proof.
  induction l as [|q0 l IH]; intros w Hnd Hl.
  - exists w. do 3 (split; [done|]). intros q. rewrite decide_False; [done|].
    by intros [?%elem_of_nil _].
  - apply NoDup_cons in Hnd as [Hq0 Hnd].
    rewrite run_all_cons, remove_if_excess_run.
    destruct (Hl q0 ltac:(left)) as [Hpre [c0 Hc0]].
    destruct (excess root ign m q0) eqn:Ex.
    + pose proof (excess_nonempty _ _ _ _ Hpre Ex) as Hne.
      destruct (unlink_file q0 w c0 Hne Hc0) as (w1 & Hu & Hgone & Ho & Hk).
      rewrite Hu.
      destruct (IH w1 Hnd) as (w' & Hrun & Ho' & Hk' & Hf).
      { intros q Hq. destruct (Hl q ltac:(by right)) as [? ?]. split; [done|].
        erewrite unlink_other; [done|done|exact Hu|]. by intros ->. }
      exists w'. split; [done|]. do 2 (split; [congruence|]).
      intros q. rewrite Hf.
      destruct (decide (q = q0)) as [->|Hqq].
      * rewrite decide_False by (by intros [? _]).
        rewrite decide_True; [done|]. split; [left|done].
      * rewrite (unlink_other _ _ _ _ q Hne Hu Hqq).
        destruct (decide (q ∈ l ∧ excess root ign m q = true)) as [[??]|Hn].
        -- rewrite decide_True; [done|]. split; [by right|done].
        -- rewrite decide_False; [done|]. intros [[?|?]%elem_of_cons ?]; auto.
    + destruct (IH w Hnd) as (w' & Hrun & Ho' & Hk' & Hf).
      { intros q Hq. apply Hl. by right. }
      exists w'. do 3 (split; [done|]). intros q. rewrite Hf.
      destruct (decide (q ∈ l ∧ excess root ign m q = true)) as [[??]|Hn].
      * rewrite decide_True; [done|]. split; [by right|done].
      * rewrite decide_False; [done|]. intros [[->|?]%elem_of_cons ?]; [|auto].
        congruence.
Qed.

(** The walk of [check] prints one line for each reportable file that it
    visits, and clears [ok] when there is one. *)
Lemma check_walk root ign m l : ∀ w,
  ∃ w', run_all (check_file root ign m) l w = (Ok tt, w')
        ∧ fs w' = fs w
        ∧ stdout w' = stdout w
            ++ (ShouldntExist <$> filter (λ q, reportable root ign m q = true) l)
        ∧ ok w' = ok w && forallb (λ q, negb (reportable root ign m q)) l.
Proof.
  induction l as [|q0 l IH]; intros w.
  - exists w. simpl. by rewrite app_nil_r, andb_true_r.
  - rewrite run_all_cons, check_file_run, filter_cons. cbn [forallb].
    destruct (reportable root ign m q0) eqn:Er; simpl.
    + destruct (IH (mkWorld (fs w) (stdout w ++ [ShouldntExist q0]) false))
        as (w' & -> & Hf & Ho & Hk).
      exists w'. simpl in *.
      split; [done|]. split; [done|]. split; [|by rewrite andb_false_r].
      by rewrite Ho, <- app_assoc.
    + destruct (IH w) as (w' & -> & Hf & Ho & Hk). by exists w'.
Qed.

End Walks.

(** ** Running the write loop again *)

Section Rerun.

Implicit Types (p q full : Path) (n : node) (w : World) (m : Managed).

Lemma update_entry_lookup_self full p f n n' :
  p ≠ [] → update_entry full p f n = Ok n' →
  ∃ r, f (lookup_node p n) = Ok r ∧ lookup_node p n' = r.
Proof.
  revert n n'. induction p as [|x p IH]; [done|]. intros [c|ch] n' _; [done|].
  simpl. destruct p as [|z p].
  - destruct (f (ch !! x)) as [r| |] eqn:Ef; simpl; try done.
    intros [= <-]. exists r. split; [by destruct (ch !! x)|].
    destruct r as [c|]; simpl.
    + by rewrite lookup_insert_eq.
    + by rewrite lookup_delete_eq.
  - destruct (ch !! x) as [c|] eqn:Ex; [|done].
    destruct (update_entry full (z :: p) f c) as [c'| |] eqn:Eu; simpl; try done.
    intros [= <-]. destruct (IH c c' ltac:(done) Eu) as (r & Hr & Hl).
    exists r. split; [done|]. by rewrite lookup_insert_eq.
Qed.

Lemma update_entry_in_dir full p x f n ch r :
  lookup_node p n = Some (Dir ch) → f (ch !! x) = Ok r →
  ∃ n', update_entry full (p ++ [x]) f n = Ok n'.
Proof.
  revert n. induction p as [|y p IH]; intros n Hl Hf; simpl in *.
  - injection Hl as ->. rewrite Hf. simpl. eauto.
  - destruct n as [c|ch']; [done|].
    destruct (ch' !! y) as [c'|] eqn:Ey; [|done].
    destruct (IH c' Hl Hf) as [n' Hn'].
    destruct (p ++ [x]) as [|z pz] eqn:Epx; [by destruct p|].
    rewrite Hn'. simpl. eauto.
Qed.

Lemma touch_in_dir p w ch :
  p ≠ [] → lookup_node (parent p) (fs w) = Some (Dir ch) →
  ∃ w', touch p w = (Ok tt, w') ∧ is_Some (lookup_node p (fs w')).
Proof.
  intros Hp Hl. destruct (exists_last Hp) as (p' & x & ->).
  unfold parent in Hl. rewrite removelast_last in Hl.
  destruct (update_entry_in_dir (p' ++ [x]) p' x touch_entry (fs w) ch
              (Some (default (File EmptyString) (ch !! x))) Hl) as [n' Hn'].
  { by destruct (ch !! x). }
  exists (mkWorld n' (stdout w) (ok w)). unfold touch, on_fs. rewrite Hn'.
  split; [done|]. simpl.
  apply update_entry_lookup_self in Hn' as (r & Hr & ->); [|done].
  destruct (lookup_node (p' ++ [x]) (fs w)); simpl in Hr; injection Hr as <-; eauto.
Qed.

Lemma lookup_node_parent_dir p n c :
  p ≠ [] → lookup_node p n = Some c →
  ∃ ch, lookup_node (parent p) n = Some (Dir ch).
Proof.
  intros Hp Hl. destruct (exists_last Hp) as (p' & x & ->).
  unfold parent. rewrite removelast_last.
  apply lookup_node_snoc in Hl as (ch & ? & ?). eauto.
Qed.

Lemma touch_id p w c : lookup_node p (fs w) = Some c → touch p w = (Ok tt, w).
Proof. intros H. unfold touch. apply on_fs_id. by eapply update_entry_id. Qed.

(** One step of the write loop, run again from the world it left, ends
    the same way and changes nothing. *)
Lemma write_managed_idem p c w r w1 :
  p ≠ [] → write_managed tt (p, c) w = (r, w1) →
  write_managed tt (p, c) w1 = (r, w1).
Proof.
  intros Hp H. destruct r as [[]| |].
  { apply write_managed_id; [done|].
    by destruct (write_managed_frame _ _ _ _ _ Hp H) as (_ & _ & _ & _ & ->). }
  all: revert H; unfold write_managed; unfold_bind.
  all: destruct (mkdir_parents (parent p) w) as [r1 wa] eqn:E1.
  all: pose proof E1 as E1'.
  all: apply on_fs_inv in E1' as [(n' & Hm & -> & Hfa)|[Hr1 ->]];
    [|destruct r1 as [[]| |]; try done; intros [= <- <-]; by rewrite E1].
  all: destruct (mkdir_is_dir _ _ _ _ Hm) as [ch Hch]; rewrite <- Hfa in Hch.
  all: destruct (touch_in_dir p wa ch Hp Hch) as (wb & -> & [c' Hc']).
  all: intros E3; pose proof E3 as E3'.
  all: apply on_fs_inv in E3' as [(? & _ & ? & _)|[_ ->]]; [done|].
  all: destruct (lookup_node_parent_dir _ _ _ Hp Hc') as [ch' Hch'].
  all: unfold mkdir_parents at 1;
    rewrite on_fs_id by (by eapply mkdir_id).
  all: by rewrite (touch_id _ _ _ Hc').
Qed.

Lemma write_all_idem m : ∀ w r w1,
  keys_nonempty m → NoDup m.*1 →
  for_each m write_managed tt w = (r, w1) →
  for_each m write_managed tt w1 = (r, w1).
Proof.
  induction m as [|[p c] m IH]; intros w r w1 Hk Hnd.
  - rewrite !for_each_nil. by intros [= <- <-].
  - apply keys_nonempty_cons in Hk as [Hp Hk]. rewrite fmap_cons in Hnd.
    apply NoDup_cons in Hnd as [Hfresh Hnd]. rewrite !for_each_cons.
    destruct (write_managed tt (p, c) w) as [r0 w0] eqn:E0.
    destruct r0 as [[]| |].
    + intros E. destruct (write_managed_frame _ _ _ _ _ Hp E0)
        as (_ & _ & _ & _ & Hdone).
      destruct (write_all_frame _ _ _ _ Hk E) as (_ & _ & Hother & _).
      rewrite write_managed_id; [by eapply IH|done|].
      rewrite Hother by done. by apply Hdone.
    + intros [= <- <-]. by rewrite (write_managed_idem _ _ _ _ _ Hp E0).
    + intros [= <- <-]. by rewrite (write_managed_idem _ _ _ _ _ Hp E0).
Qed.

End Rerun.

(** ** The reconciler: lemmas *)

Section Reconciler.

Implicit Types (p q root : Path) (w : World) (m : Managed) (reg : Registry).

Lemma collect_ok_keys root reg m :
  collect_from root [] reg = Ok m →
  keys_nonempty m ∧ NoDup m.*1 ∧ ∀ p, p ∈ m.*1 ↔ p ∈ package_paths root reg.
Proof.
  intros Hc. destruct (collect_from_keys _ _ _ _ Hc (NoDup_nil_2)) as [Hnd Hk].
  assert (∀ p, p ∈ m.*1 ↔ p ∈ package_paths root reg) as Hk'.
  { intros p. rewrite Hk. rewrite fmap_nil, elem_of_nil. tauto. }
  split; [|done]. intros p c Hin.
  assert (p ∈ m.*1) as Hp by (apply list_elem_of_fmap; by exists (p, c)).
  apply Hk' in Hp. apply list_elem_of_fmap in Hp as ([pkg ?] & -> & _).
  apply package_path_nonempty.
Qed.

Lemma fix_run root reg w :
  fix_ root reg w =
  match collect_from root [] reg with
  | Ok m =>
      match for_each m write_managed tt w with
      | (Ok _, w1) =>
          run_all (remove_if_excess root (ignored_paths root) m)
                  (tree_files root (fs w1)) w1
      | (Exit c, w1) => (Exit c, w1)
      | (Raise e, w1) => (Raise e, w1)
      end
  | Exit c => (Exit c, w)
  | Raise e => (Raise e, w)
  end.
Proof.
  unfold fix_. unfold_bind. rewrite collect_managed_run.
  destruct (collect_from root [] reg) as [m| |]; [|done..].
  destruct (for_each m write_managed tt w) as [[[]| |] w1]; [|done..].
  apply traverse_run.
Qed.

Lemma check_run root reg w :
  check root reg w =
  let w0 := mkWorld (fs w) (stdout w) true in
  match collect_from root [] reg with
  | Ok m =>
      match for_each m check_managed tt w0 with
      | (Ok _, w1) =>
          match run_all (check_file root (ignored_paths root) m)
                        (tree_files root (fs w1)) w1 with
          | (Ok _, w2) =>
              if ok w2 then print AliasesCorrect w2
              else (print RunFix;; exit 1%Z) w2
          | (Exit c, w2) => (Exit c, w2)
          | (Raise e, w2) => (Raise e, w2)
          end
      | (Exit c, w1) => (Exit c, w1)
      | (Raise e, w1) => (Raise e, w1)
      end
  | Exit c => (Exit c, w0)
  | Raise e => (Raise e, w0)
  end.
Proof.
  unfold check. unfold_bind. unfold set_ok at 1. rewrite collect_managed_run.
  simpl. destruct (collect_from root [] reg) as [m| |]; [|done..].
  destruct (for_each m check_managed tt _) as [[[]| |] w1]; [|done..].
  rewrite traverse_run.
  destruct (run_all _ _ w1) as [[[]| |] w2]; [|done..].
  unfold get_ok. destruct (ok w2) eqn:E; [done|]. simpl. by rewrite E.
Qed.

(** What a completed [fix] leaves. *)
Lemma fix_ok_inv root reg w w1 :
  fix_ root reg w = (Ok tt, w1) →
  ∃ m, collect_from root [] reg = Ok m
       ∧ stdout w1 = stdout w ∧ ok w1 = ok w
       ∧ reconciled root m (fs w1)
       ∧ (∀ q, root `prefix_of` q → is_Some (file_at q (fs w)) →
               excess root (ignored_paths root) m q = true →
               file_at q (fs w1) = None).
Proof.
  rewrite fix_run. destruct (collect_from root [] reg) as [m| |] eqn:Ec; [|done..].
  destruct (collect_ok_keys _ _ _ Ec) as (Hk & Hnd & Hkeys).
  destruct (for_each m write_managed tt w) as [[[]| |] wm] eqn:Ew; [|done..].
  destruct (write_all_frame _ _ _ _ Hk Ew) as (Ho & Hok & Hother & Hkeep).
  pose proof (write_all_done _ _ _ Hk Hnd Ew) as Hdone.
  destruct (fix_walk root (ignored_paths root) m (tree_files root (fs wm)) wm
              (NoDup_tree_files _ _)) as (w' & -> & Ho' & Hok' & Hf).
  { intros q. by rewrite elem_of_tree_files. }
  intros [= <-]. exists m. split; [done|]. do 2 (split; [congruence|]).
  split; [split|].
  - intros p c Hin. rewrite Hf, decide_False; [by apply Hdone|].
    intros [_ He]. unfold excess in He.
    assert (dict_mem p m = true) as Hm.
    { apply dict_mem_true, list_elem_of_fmap. by exists (p, c). }
    rewrite Hm in He. by rewrite andb_false_r in He.
  - intros q Hpre. rewrite Hf.
    destruct (decide (q ∈ tree_files root (fs wm)
                      ∧ excess root (ignored_paths root) m q = true))
      as [|Hn]; [by intros [? ?]|].
    intros Hs. destruct (excess root (ignored_paths root) m q) eqn:E; [|done].
    destruct Hn. split; [|done]. by apply elem_of_tree_files.
  - intros q Hpre Hs He. rewrite Hf, decide_True; [done|]. split; [|done].
    apply elem_of_tree_files. split; [done|]. rewrite Hother; [done|].
    apply dict_get_None. unfold excess, dict_mem in He.
    destruct (dict_get q m); [|done]. by rewrite andb_false_r in He.
Qed.

(** On a reconciled tree [fix] changes nothing. *)
Lemma fix_reconciled root reg w m :
  collect_from root [] reg = Ok m → reconciled root m (fs w) →
  fix_ root reg w = (Ok tt, w).
Proof.
  intros Ec [Hm Hx]. rewrite fix_run, Ec.
  destruct (collect_ok_keys _ _ _ Ec) as (Hk & Hnd & Hkeys).
  rewrite write_all_id by done.
  assert (∀ l, (∀ q, q ∈ l → root `prefix_of` q ∧ is_Some (file_at q (fs w))) →
            run_all (remove_if_excess root (ignored_paths root) m) l w = (Ok tt, w))
    as Hwalk.
  { induction l as [|q l IH]; intros Hl; [done|].
    rewrite run_all_cons, remove_if_excess_run.
    destruct (Hl q ltac:(left)) as [Hpre Hs]. rewrite (Hx q Hpre Hs).
    apply IH. intros q' ?. apply Hl. by right. }
  apply Hwalk. intros q. by rewrite elem_of_tree_files.
Qed.

Lemma check_managed_ok p c w :
  file_at p (fs w) = Some c → check_managed tt (p, c) w = (Ok tt, w).
Proof.
  intros Hc. unfold file_at in Hc.
  destruct (lookup_node p (fs w)) as [[c'|]|] eqn:El; try done.
  injection Hc as ->. unfold check_managed, path_exists, read_text. unfold_bind.
  rewrite El, bool_decide_eq_true_2 by eauto. simpl.
  by rewrite El, String.eqb_refl.
Qed.

Lemma check_all_ok m w :
  (∀ p c, (p, c) ∈ m → file_at p (fs w) = Some c) →
  for_each m check_managed tt w = (Ok tt, w).
Proof.
  induction m as [|[p c] m IH]; intros Hall; [done|].
  rewrite for_each_cons, check_managed_ok by (apply Hall; left).
  apply IH. intros p' c' ?. apply Hall. by right.
Qed.

(** On a reconciled tree [check] reports success. *)
Lemma check_reconciled root reg w m :
  collect_from root [] reg = Ok m → reconciled root m (fs w) →
  check root reg w =
  (Ok tt, mkWorld (fs w) (stdout w ++ [AliasesCorrect]) true).
Proof.
  intros Ec [Hm Hx]. rewrite check_run, Ec. cbv zeta.
  rewrite check_all_ok by done. cbn [fs].
  destruct (check_walk root (ignored_paths root) m
              (tree_files root (fs w)) (mkWorld (fs w) (stdout w) true))
    as (w2 & -> & Hf & Ho & Hk).
  simpl in *.
  assert (filter (λ q, reportable root (ignored_paths root) m q = true)
            (tree_files root (fs w)) = []
          ∧ forallb (λ q, negb (reportable root (ignored_paths root) m q))
              (tree_files root (fs w)) = true) as [E1 E2].
  { assert (∀ q, q ∈ tree_files root (fs w) →
              reportable root (ignored_paths root) m q = false) as Hno.
    { intros q [Hpre Hs]%elem_of_tree_files. unfold reportable.
      by rewrite (Hx q Hpre Hs). }
    revert Hno. generalize (tree_files root (fs w)) as l.
    induction l as [|q l IH]; intros Hno; [done|].
    rewrite filter_cons. cbn [forallb]. rewrite (Hno q) by left.
    rewrite decide_False by done. apply IH. intros q' ?. apply Hno. by right. }
  rewrite E1, app_nil_r in Ho. rewrite E2 in Hk. rewrite Hk.
  unfold print. by rewrite Hf, Ho, Hk.
Qed.

Lemma check_managed_ok_inv p c w w1 :
  check_managed tt (p, c) w = (Ok tt, w1) → ok w1 = true →
  file_at p (fs w) = Some c ∧ w1 = w.
Proof.
  unfold check_managed, path_exists, read_text, print, set_ok, file_at.
  unfold_bind.
  destruct (lookup_node p (fs w)) as [[c'|ch]|] eqn:El; simpl; rewrite ?El;
    [|done|by intros [= <-]].
  destruct (String.eqb c' c) eqn:E; simpl; [|by intros [= <-]].
  apply String.eqb_eq in E as ->. by intros [= <-].
Qed.

Lemma check_all_ok_inv m : ∀ w w1,
  for_each m check_managed tt w = (Ok tt, w1) → ok w1 = true →
  (∀ p c, (p, c) ∈ m → file_at p (fs w) = Some c) ∧ w1 = w.
Proof.
  induction m as [|[p c] m IH]; intros w w1.
  - rewrite for_each_nil. intros [= <-] _. split; [|done].
    by intros p c ?%elem_of_nil.
  - rewrite for_each_cons.
    destruct (check_managed tt (p, c) w) as [r0 w0] eqn:E0.
    destruct r0 as [[]| |]; [|done..]. intros E Hok.
    destruct (IH _ _ E Hok) as [Hall ->].
    destruct (check_managed_ok_inv _ _ _ _ E0 Hok) as [Hp ->].
    split; [|done]. intros p' c' [[= -> ->]|?]%elem_of_cons; auto.
Qed.

(** [check] returns normally on reconciled trees only. *)
Lemma check_ok_inv root reg w w' :
  check root reg w = (Ok tt, w') →
  ∃ m, collect_from root [] reg = Ok m
       ∧ (∀ p c, (p, c) ∈ m → file_at p (fs w) = Some c)
       ∧ (∀ q, q ∈ tree_files root (fs w) →
               reportable root (ignored_paths root) m q = false).
Proof.
  rewrite check_run. cbv zeta.
  destruct (collect_from root [] reg) as [m| |] eqn:Ec; [|done..].
  destruct (for_each m check_managed tt _) as [r1 w1] eqn:E1.
  destruct r1 as [[]| |]; [|done..].
  destruct (check_walk root (ignored_paths root) m (tree_files root (fs w1)) w1)
    as (w2 & -> & Hf & _ & Hk).
  destruct (ok w2) eqn:Hok2; [|done]. intros _.
  symmetry in Hk. apply andb_true_iff in Hk as [Hok1 Hall].
  destruct (check_all_ok_inv _ _ _ E1 Hok1) as [Hm ->]. simpl in *.
  exists m. split; [done|]. split; [done|]. intros q Hq.
  rewrite forallb_forall in Hall. apply list_elem_of_In, Hall in Hq.
  by apply negb_true_iff in Hq.
Qed.

End Reconciler.

(** ** The lines that [check] prints *)

Section CheckLines.

Implicit Types (p q root : Path) (w : World) (m : Managed) (reg : Registry).

Lemma check_managed_lines p c w r w' :
  check_managed tt (p, c) w = (r, w') →
  fs w' = fs w
  ∧ ∃ out, stdout w' = stdout w ++ out
           ∧ ∀ l, l ∈ out → l = ShouldExist p ∨ l = WrongContent p.
Proof.
  unfold check_managed, path_exists, read_text, print, set_ok. unfold_bind.
  destruct (lookup_node p (fs w)) as [[c'|ch]|] eqn:El; simpl; rewrite ?El.
  - destruct (String.eqb c' c); simpl; intros [= <- <-]; (split; [done|]).
    + exists []. split; [by rewrite app_nil_r|]. by intros l ?%elem_of_nil.
    + exists [WrongContent p]. split; [done|].
      intros l ->%list_elem_of_singleton. by right.
  - intros [= <- <-]. split; [done|]. exists [].
    split; [by rewrite app_nil_r|]. by intros l ?%elem_of_nil.
  - intros [= <- <-]. split; [done|]. exists [ShouldExist p]. split; [done|].
    intros l ->%list_elem_of_singleton. by left.
Qed.

Lemma check_all_lines m : ∀ w r w',
  for_each m check_managed tt w = (r, w') →
  fs w' = fs w
  ∧ ∃ out, stdout w' = stdout w ++ out
           ∧ ∀ l, l ∈ out → ∃ p, p ∈ m.*1 ∧ (l = ShouldExist p ∨ l = WrongContent p).
Proof.
  induction m as [|[p c] m IH]; intros w r w'.
  - rewrite for_each_nil. intros [= <- <-]. split; [done|]. exists [].
    split; [by rewrite app_nil_r|]. by intros l ?%elem_of_nil.
  - rewrite for_each_cons.
    destruct (check_managed tt (p, c) w) as [r1 w1] eqn:E1.
    destruct (check_managed_lines _ _ _ _ _ E1) as (Hf1 & out1 & Ho1 & Hl1).
    assert (∀ l, l ∈ out1 →
              ∃ p', p' ∈ ((p, c) :: m).*1 ∧ (l = ShouldExist p' ∨ l = WrongContent p'))
      as Hl1'.
    { intros l Hl. exists p. split; [left|by apply Hl1]. }
    destruct r1 as [[]| |]; try (intros [= <- <-]; by eauto).
    intros E2. destruct (IH _ _ _ E2) as (Hf2 & out2 & Ho2 & Hl2).
    split; [congruence|]. exists (out1 ++ out2).
    split; [by rewrite Ho2, Ho1, <- app_assoc|].
    intros l [?|Hin]%elem_of_app; [by apply Hl1'|].
    destruct (Hl2 l Hin) as (p' & ? & ?). exists p'. split; [by right|done].
Qed.

Lemma check_lines root reg w r w' :
  check root reg w = (r, w') →
  fs w' = fs w
  ∧ ∃ out, stdout w' = stdout w ++ out
      ∧ ∀ l, l ∈ out →
          l = AliasesCorrect ∨ l = RunFix
          ∨ (∃ p, p ∈ package_paths root reg
                  ∧ (l = ShouldExist p ∨ l = WrongContent p))
          ∨ (∃ p m, collect_from root [] reg = Ok m ∧ l = ShouldntExist p
                    ∧ reportable root (ignored_paths root) m p = true).
Proof.
  rewrite check_run. cbv zeta.
  destruct (collect_from root [] reg) as [m| |] eqn:Ec.
  2,3: intros [= <- <-]; (split; [done|]); exists []; simpl;
    (split; [by rewrite app_nil_r|]); by intros l ?%elem_of_nil.
  destruct (collect_ok_keys _ _ _ Ec) as (_ & _ & Hkeys).
  destruct (for_each m check_managed tt _) as [r1 w1] eqn:E1.
  destruct (check_all_lines _ _ _ _ E1) as (Hf1 & out1 & Ho1 & Hl1).
  simpl in Hf1, Ho1.
  assert (∀ l, l ∈ out1 →
            l = AliasesCorrect ∨ l = RunFix
            ∨ (∃ p, p ∈ package_paths root reg
                    ∧ (l = ShouldExist p ∨ l = WrongContent p))
            ∨ (∃ p m0, Ok m = Ok m0 ∧ l = ShouldntExist p
                      ∧ reportable root (ignored_paths root) m0 p = true)) as Hl1'.
  { intros l Hl. destruct (Hl1 l Hl) as (p & Hp & ?). right. right. left.
    exists p. split; [by apply Hkeys|done]. }
  destruct r1 as [[]| |];
    try (intros [= <- <-]; split; [done|]; exists out1; by split).
  destruct (check_walk root (ignored_paths root) m (tree_files root (fs w1)) w1)
    as (w2 & -> & Hf2 & Ho2 & _).
  set (out2 := ShouldntExist <$>
         filter (λ q, reportable root (ignored_paths root) m q = true)
           (tree_files root (fs w1))) in *.
  assert (∀ l, l ∈ out2 →
            ∃ p m', Ok m = Ok m' ∧ l = ShouldntExist p
                    ∧ reportable root (ignored_paths root) m' p = true) as Hl2.
  { intros l (p & -> & Hp)%list_elem_of_fmap.
    apply list_elem_of_filter in Hp as [Hp _]. by exists p, m. }
  assert (∀ last, ∀ l, l ∈ out1 ++ out2 ++ [last] →
            last = AliasesCorrect ∨ last = RunFix →
            l = AliasesCorrect ∨ l = RunFix
            ∨ (∃ p, p ∈ package_paths root reg
                    ∧ (l = ShouldExist p ∨ l = WrongContent p))
            ∨ (∃ p m0, Ok m = Ok m0 ∧ l = ShouldntExist p
                      ∧ reportable root (ignored_paths root) m0 p = true)) as Hall.
  { intros last l [?|[?|Heq%list_elem_of_singleton]%elem_of_app]%elem_of_app Hlast.
    - by apply Hl1'.
    - right. right. right. by apply Hl2.
    - subst l. tauto. }
  destruct (ok w2); unfold print; unfold_bind; intros [= <- <-]; simpl;
    (split; [congruence|]).
  - exists (out1 ++ out2 ++ [AliasesCorrect]).
    split; [by rewrite Ho2, Ho1, <- !app_assoc|].
    intros l Hl. apply (Hall _ l Hl). by left.
  - exists (out1 ++ out2 ++ [RunFix]).
    split; [by rewrite Ho2, Ho1, <- !app_assoc|].
    intros l Hl. apply (Hall _ l Hl). by right.
Qed.

Lemma package_path_suffix root pkg : suffix (package_path root pkg) = ".py".
Proof.
  rewrite package_path_init. unfold suffix, name. by rewrite last_last.
Qed.

End CheckLines.

(** ** Package names and their files *)

Section PackageNames.

Implicit Types (s w : string) (c sep : ascii) (root : Path) (reg : Registry).

Lemma split_nonempty sep s : split sep s ≠ [].
Proof.
  destruct s as [|a s]; simpl; [done|].
  destruct (Ascii.eqb a sep); [done|]. by destruct (split sep s).
Qed.

Lemma split_replace s :
  has_char "/" s = false → split "/" (replace "." "/" s) = split "." s.
Proof.
  induction s as [|a s IH]; simpl; [done|].
  intros [Ha Hs]%orb_false_elim. rewrite (IH Hs).
  destruct (Ascii.eqb a ".") eqn:E; [done|]. by rewrite Ha.
Qed.

Lemma split_no_sep sep s : ∀ w, w ∈ split sep s → has_char sep w = false.
Proof.
  induction s as [|a s IH]; simpl; intros w.
  - by intros ->%list_elem_of_singleton.
  - destruct (Ascii.eqb a sep) eqn:E.
    + intros [->|?]%elem_of_cons; [done|by apply IH].
    + destruct (split sep s) as [|w0 ws] eqn:Es.
      * intros ->%list_elem_of_singleton. simpl. by rewrite E.
      * intros [->|?]%elem_of_cons.
        -- simpl. rewrite E. apply IH. left.
        -- apply IH. by right.
Qed.

Lemma concat_split sep s : String.concat (String sep EmptyString) (split sep s) = s.
Proof.
  induction s as [|a s IH]; simpl; [done|].
  pose proof (split_nonempty sep s) as Hne.
  destruct (Ascii.eqb a sep) eqn:E.
  - apply Ascii.eqb_eq in E as ->.
    destruct (split sep s) as [|w0 ws]; [done|].
    change (String sep (String.concat (String sep EmptyString) (w0 :: ws)) = String sep s).
    by rewrite IH.
  - destruct (split sep s) as [|w0 ws]; [done|].
    destruct ws as [|w1 ws].
    + simpl in *. by rewrite IH.
    + change (String a (String.concat (String sep EmptyString) (w0 :: w1 :: ws))
              = String a s).
      by rewrite IH.
Qed.

Lemma package_name_path root s :
  package_name s → package_path root s = root ++ split "." s ++ ["__init__.py"].
Proof.
  intros [Hslash Hempty]. rewrite package_path_init.
  assert (joinpath root (replace "." "/" s) = root ++ split "." s) as ->;
    [|by rewrite <- app_assoc].
  unfold joinpath.
  assert (String.prefix "/" (replace "." "/" s) = false) as ->.
  { destruct s as [|a s]; [by destruct Hempty; left|].
    cbn [has_char] in Hslash. apply orb_false_elim in Hslash as [Ha _].
    cbn [split] in Hempty. cbn [replace String.prefix].
    destruct (Ascii.eqb a ".") eqn:E; [destruct Hempty; left|].
    destruct (ascii_dec "/" a) as [<-|]; done. }
  f_equal. unfold segments. rewrite split_replace by done.
  assert (∀ w, w ∈ split "." s → w ≠ EmptyString ∧ w ≠ ".") as Hall.
  { intros w Hw. split; [by intros ->|]. intros ->.
    by apply split_no_sep in Hw. }
  revert Hall. generalize (split "." s) as l.
  induction l as [|w l IH]; intros Hall; [done|].
  rewrite filter_cons, decide_True by (apply Hall; left).
  f_equal. apply IH. intros w' ?. apply Hall. by right.
Qed.

Lemma package_path_inj root s1 s2 :
  package_name s1 → package_name s2 →
  package_path root s1 = package_path root s2 → s1 = s2.
Proof.
  intros H1 H2. rewrite !package_name_path by done.
  intros H%app_inv_head%app_inv_tail.
  by rewrite <- (concat_split "." s1), <- (concat_split "." s2), H.
Qed.

(** The keys of a dict of package names denote different files. *)
Lemma package_paths_NoDup root reg :
  NoDup reg.*1 → Forall package_name reg.*1 → NoDup (package_paths root reg).
Proof.
  unfold package_paths. induction reg as [|[pkg imports] reg IH]; simpl.
  - intros _ _. apply NoDup_nil_2.
  - intros [Hfresh Hnd]%NoDup_cons [Hpkg Hall]%Forall_cons.
    apply NoDup_cons. split; [|by apply IH].
    intros ([pkg' imports'] & Heq & Hin)%list_elem_of_fmap. simpl in Heq.
    apply Hfresh. apply list_elem_of_fmap. exists (pkg', imports').
    split; [|done]. simpl. apply (package_path_inj root); [done| |done].
    rewrite Forall_forall in Hall. apply Hall.
    apply list_elem_of_fmap. by exists (pkg', imports').
Qed.

End PackageNames.

(** ** The two walks agree *)

Section Literal.

Implicit Types (p q path root : Path) (n : node) (w : World) (f : Path → M unit).

Lemma height_child ch x c : ch !! x = Some c → height c < height (Dir ch).
Proof.
  intros Hx. simpl.
  rewrite <- (insert_delete_id ch x c Hx).
  rewrite map_fold_insert_L.
  - lia.
  - intros; lia.
  - apply lookup_delete_eq.
Qed.

Lemma update_entry_lookup_other full p g n n' q :
  update_entry full p g n = Ok n' →
  ¬ p `prefix_of` q → ¬ q `prefix_of` p →
  lookup_node q n' = lookup_node q n.
Proof.
  revert n n' q. induction p as [|x p IH]; intros n n' q Hu Hpq Hqp.
  { destruct Hpq. apply prefix_nil. }
  destruct q as [|y q]; [destruct Hqp; apply prefix_nil|].
  simpl in Hu. destruct n as [c|ch]; [done|].
  destruct (decide (x = y)) as [->|Hne].
  - destruct p as [|z p].
    { destruct Hpq. apply prefix_cons, prefix_nil. }
    destruct (ch !! y) as [c|] eqn:Ey; [|done].
    destruct (update_entry full (z :: p) g c) as [c'| |] eqn:Eu; simpl in Hu;
      try done.
    injection Hu as <-. simpl. rewrite lookup_insert_eq, Ey.
    apply (IH _ _ _ Eu).
    + intros H. apply Hpq. by apply prefix_cons.
    + intros H. apply Hqp. by apply prefix_cons.
  - destruct p as [|z p].
    + destruct (g (ch !! x)) as [[c|]| |]; simpl in Hu; try done;
        injection Hu as <-; simpl.
      * by rewrite lookup_insert_ne.
      * by rewrite lookup_delete_ne.
    + destruct (ch !! x) as [c|] eqn:Ex; [|done].
      destruct (update_entry full (z :: p) g c) as [c'| |]; simpl in Hu; try done.
      injection Hu as <-. simpl. by rewrite lookup_insert_ne.
Qed.

Lemma remove_if_excess_local root ign m : local (remove_if_excess root ign m).
Proof.
  intros q w r w' q' H Hqq' Hq'q. rewrite remove_if_excess_run in H.
  destruct (excess root ign m q); [|by injection H as _ <-].
  apply on_fs_inv in H as [(n' & E & _ & <-)|[_ ->]]; [|done].
  by eapply update_entry_lookup_other.
Qed.

Lemma check_file_local root ign m : local (check_file root ign m).
Proof.
  intros q w r w' q' H _ _. rewrite check_file_run in H.
  destruct (reportable root ign m q); by injection H as _ <-.
Qed.

Lemma run_all_local f l path : ∀ w r w' q',
  local f → (∀ q, q ∈ l → path `prefix_of` q) →
  run_all f l w = (r, w') →
  ¬ path `prefix_of` q' → ¬ q' `prefix_of` path →
  lookup_node q' (fs w') = lookup_node q' (fs w).
Proof.
  induction l as [|q l IH]; intros w r w' q' Hf Hl.
  - by intros [= _ <-].
  - rewrite run_all_cons. destruct (f q w) as [r1 w1] eqn:E1.
    intros H Hp Hq'.
    assert (lookup_node q' (fs w1) = lookup_node q' (fs w)) as H1.
    { apply (Hf _ _ _ _ _ E1).
      - intros Hqq'. apply Hp. etrans; [|done]. apply Hl. left.
      - intros Hq'q.
        destruct (prefix_weak_total path q' q) as [?|?]; [apply Hl; left|done..]. }
    destruct r1 as [[]| |]; try (by injection H as _ <-).
    rewrite <- H1. apply (IH w1 r w' q' Hf); [|done..].
    intros q0 ?. apply Hl. by right.
Qed.

Lemma traverse_node_local f n path w r w' q' :
  local f → traverse_node path n f w = (r, w') →
  ¬ path `prefix_of` q' → ¬ q' `prefix_of` path →
  lookup_node q' (fs w') = lookup_node q' (fs w).
Proof.
  intros Hf. rewrite traverse_node_run_all. apply run_all_local; [done|].
  intros q (q0 & -> & _)%elem_of_files. by apply prefix_app_r.
Qed.

Lemma snoc_prefix_inv path (x y : string) :
  (path ++ [x]) `prefix_of` (path ++ [y]) → x = y.
Proof.
  intros [k Hk]. rewrite <- app_assoc in Hk. apply app_inv_head in Hk.
  by injection Hk.
Qed.

(** The statement-by-statement walk is the walk on the tree found at the
    start, when the nesting bound is not reached. *)
Lemma traverse_rec_node f : local f → ∀ n path depth w,
  lookup_node path (fs w) = Some n → height n < depth →
  traverse_rec depth path f w = traverse_node path n f w.
Proof.
  intros Hf. induction n as [c|ch IH] using node_induction;
    intros path depth w Hl Hh; (destruct depth as [|d]; [lia|]).
  - simpl. unfold path_exists, is_file. unfold_bind.
    rewrite Hl. rewrite bool_decide_eq_true_2 by eauto. cbn [negb]. cbv beta.
    by rewrite Hl.
  - cbn [traverse_rec]. unfold path_exists, is_file, iterdir. unfold_bind.
    rewrite Hl. rewrite bool_decide_eq_true_2 by eauto. cbn [negb]. cbv beta.
    rewrite Hl. cbv beta. rewrite Hl.
    change (traverse_node path (Dir ch) f) with
      (map_fold (λ x child rest, traverse_node (path ++ [x]) child f;; rest)
         (ret tt) ch).
    rewrite map_fold_foldr.
    assert (∀ x c, (x, c) ∈ map_to_list ch →
              ch !! x = Some c ∧ lookup_node (path ++ [x]) (fs w) = Some c
              ∧ height c < d) as Hall.
    { intros x c Hin%elem_of_map_to_list. split; [done|]. split.
      - rewrite lookup_node_app, Hl. simpl. by rewrite Hin.
      - pose proof (height_child _ _ _ Hin). lia. }
    pose proof (NoDup_fst_map_to_list ch) as Hnd.
    clear Hl Hh. revert w Hall Hnd.
    induction (map_to_list ch) as [|[x c] l IHl]; intros w Hall Hnd; [done|].
    rewrite fmap_cons, for_each_cons. cbn [foldr uncurry fst]. unfold_bind.
    destruct (Hall x c ltac:(left)) as (Hx & Hlx & Hhx).
    rewrite (IH x c Hx _ _ _ Hlx Hhx).
    destruct (traverse_node (path ++ [x]) c f w) as [r1 w1] eqn:E1.
    destruct r1 as [[]| |]; [|done..].
    rewrite fmap_cons in Hnd. apply NoDup_cons in Hnd as [Hfresh Hnd].
    apply IHl; [|done]. intros x' c' Hin.
    destruct (Hall x' c' ltac:(by right)) as (? & Hl' & ?).
    split; [done|]. split; [|done]. rewrite <- Hl'.
    assert (x ≠ x') as Hne.
    { intros ->. apply Hfresh. apply list_elem_of_fmap. by exists (x', c'). }
    eapply traverse_node_local; [done|exact E1| |];
      intros ?%snoc_prefix_inv; congruence.
Qed.

Lemma traverse_rec_traverse f depth root w :
  local f → 0 < depth →
  (∀ n, lookup_node root (fs w) = Some n → height n < depth) →
  traverse_rec depth root f w = traverse root f w.
Proof.
  intros Hf Hd Hh. unfold traverse, get_fs. unfold_bind.
  destruct (lookup_node root (fs w)) as [n|] eqn:El.
  - by apply traverse_rec_node; [| |apply Hh].
  - destruct depth as [|d]; [lia|]. simpl. unfold path_exists. unfold_bind.
    rewrite El. rewrite bool_decide_eq_false_2; [done|]. by intros [? ?].
Qed.

(** The walks of [fix] and [check], statement by statement. *)
Lemma traverse_rec_remove_if_excess root m depth w :
  0 < depth →
  (∀ n, lookup_node root (fs w) = Some n → height n < depth) →
  traverse_rec depth root (remove_if_excess root (ignored_paths root) m) w
  = traverse root (remove_if_excess root (ignored_paths root) m) w.
Proof. apply traverse_rec_traverse, remove_if_excess_local. Qed.

Lemma traverse_rec_check_file root m depth w :
  0 < depth →
  (∀ n, lookup_node root (fs w) = Some n → height n < depth) →
  traverse_rec depth root (check_file root (ignored_paths root) m) w
  = traverse root (check_file root (ignored_paths root) m) w.
Proof. apply traverse_rec_traverse, check_file_local. Qed.

End Literal.

(** ** Properties of the generator *)

Section GeneratorProperties.

Implicit Types (p q : Path) (w : World) (m managed : Managed) (r : Registry).

Lemma package_path_relative root pkg :
  String.prefix "/" (replace "." "/" pkg) = false →
  package_path root pkg = root ++ segments (replace "." "/" pkg) ++ ["__init__.py"].
Proof.
  intros H. rewrite package_path_init. unfold joinpath. rewrite H.
  by rewrite <- app_assoc.
Qed.

Lemma collect_managed_single root pkg imports w :
  collect_managed root [(pkg, imports)] w =
  (c ← render imports; Ok [(package_path root pkg, c)], w).
Proof. rewrite collect_managed_run. simpl. by destruct (render imports). Qed.

(** C1 (the code does not do what the claim says).  A registry whose
    package "pkg.sub" has two declarations that both export the name Foo:
    the generator prints nothing and does not exit; it returns the file
    with both bindings, the second of which wins when the file is
    imported.  The set [declared_names] that the collision test reads is
    never added to. *)
Theorem collision_not_detected root w :
  collect_managed root
    [("pkg.sub", [("pkg.a", "Foo", mkInModule None false None);
                  ("pkg.b", "Foo", mkInModule None false None)])] w
  = (Ok [(root ++ ["pkg"; "sub"; "__init__.py"],
          "# ruff: noqa" +:+ nl +:+
          "# This file is generated by aliases.py. Do not edit it manually!" +:+ nl +:+
          "import hopsworks.internal.aliases" +:+ nl +:+
          "import pkg.a" +:+ nl +:+
          "Foo = pkg.a.Foo" +:+ nl +:+
          "import pkg.b" +:+ nl +:+
          "Foo = pkg.b.Foo" +:+ nl)], w).
Proof.
  rewrite collect_managed_single, package_path_relative by reflexivity.
  reflexivity.
Qed.

(** C2.  The registry with the one package "pkg.sub" and its one plain
    declaration of Foo from pkg.impl yields one file, pkg/sub/__init__.py
    under the root, whose content is the two header lines, the import of
    the alias support module, the import of pkg.impl and the binding of
    Foo, and nothing else. *)
Theorem single_alias_content root w :
  collect_managed root
    [("pkg.sub", [("pkg.impl", "Foo", mkInModule None false None)])] w
  = (Ok [(root ++ ["pkg"; "sub"; "__init__.py"],
          "# ruff: noqa" +:+ nl +:+
          "# This file is generated by aliases.py. Do not edit it manually!" +:+ nl +:+
          "import hopsworks.internal.aliases" +:+ nl +:+
          "import pkg.impl" +:+ nl +:+
          "Foo = pkg.impl.Foo" +:+ nl)], w).
Proof.
  rewrite collect_managed_single, package_path_relative by reflexivity.
  reflexivity.
Qed.

(** A deprecated declaration without an available-until value: the
    right-hand side of the binding is wrapped in [deprecated()]. *)
Lemma deprecated_binding_content root w :
  collect_managed root
    [("pkg.sub", [("pkg.impl", "Foo", mkInModule None true None)])] w
  = (Ok [(root ++ ["pkg"; "sub"; "__init__.py"],
          "# ruff: noqa" +:+ nl +:+
          "# This file is generated by aliases.py. Do not edit it manually!" +:+ nl +:+
          "import hopsworks.internal.aliases" +:+ nl +:+
          "import pkg.impl" +:+ nl +:+
          "Foo = hopsworks.internal.aliases.deprecated()(pkg.impl.Foo)" +:+ nl)], w).
Proof.
  rewrite collect_managed_single, package_path_relative by reflexivity.
  reflexivity.
Qed.

(** C3 (the code does not do what the claim says).  A deprecated
    declaration with the available-until value "4.0": the generator reads
    [im.available.until], an attribute that the options do not have, and
    raises [AttributeError] instead of returning the binding
    [Foo = hopsworks.internal.aliases.deprecated(available_until="4.0")(pkg.impl.Foo)]. *)
Theorem available_until_raises root w :
  collect_managed root
    [("pkg.sub", [("pkg.impl", "Foo", mkInModule None true (Some "4.0"))])] w
  = (Raise (AttributeError "available"), w).
Proof. rewrite collect_managed_single. reflexivity. Qed.

(** Whatever the declaration, a deprecated one with a non-empty
    available-until value stops the generator. *)
Lemma available_until_always_raises f i im :
  deprecated im = true → truthy (available_until im) = true →
  binding_rhs (f, i, im) = Raise (AttributeError "available").
Proof. intros Hd Ha. unfold binding_rhs. by rewrite Hd, Ha. Qed.

(** C4.  Two registries with the same packages and, for each package, the
    same declarations, in whatever orders: when the generator returns the
    managed files for one, it returns them for the other, and every file
    has the same content in both.  (The keys of the registry name
    different files, as the keys of a dict of package names do.) *)
Theorem generator_deterministic root r1 r2 w m1 w1 :
  same_declarations r1 r2 →
  NoDup (package_paths root r1) →
  collect_managed root r1 w = (Ok m1, w1) →
  ∃ m2, collect_managed root r2 w = (Ok m2, w1)
        ∧ m1 ≡ₚ m2
        ∧ ∀ filepath, dict_get filepath m2 = dict_get filepath m1.
Proof.
  intros Hsame Hnd. rewrite !collect_managed_run. intros [= Hc <-].
  pose proof (package_paths_same root _ _ Hsame) as Hpp.
  rewrite collect_from_rendered in Hc by done.
  rewrite collect_from_rendered by (simpl; by rewrite <- Hpp).
  destruct (rendered root r1) as [l1| |] eqn:E1; simpl in Hc; [|done..].
  injection Hc as <-. destruct Hsame as (r & Hp & Hf).
  destruct (rendered_perm root _ _ Hp _ E1) as (l2 & E2 & Hl).
  rewrite <- (rendered_Forall2 root _ _ Hf), E2. simpl.
  exists l2. split; [done|]. split; [done|]. intros filepath.
  apply dict_get_perm; [|done]. by rewrite (rendered_keys _ _ _ E1).
Qed.

Lemma generator_deterministic_witness :
  same_declarations sample_registry sample_registry_reordered
  ∧ NoDup (package_paths ["r"] sample_registry)
  ∧ collect_managed ["r"] sample_registry sample_world
    = (Ok sample_managed, sample_world)
  ∧ ∃ m2, collect_managed ["r"] sample_registry_reordered sample_world
          = (Ok m2, sample_world)
          ∧ sample_managed ≡ₚ m2
          ∧ ∀ filepath, dict_get filepath m2 = dict_get filepath sample_managed.
Proof.
  assert (same_declarations sample_registry sample_registry_reordered) as H1.
  { exists [("hsfs", []);
            ("pkg.sub", [("pkg.impl", "Foo", mkInModule None false None);
                         ("pkg.impl", "Bar", mkInModule (Some "Baz") true None)])].
    split; [apply Permutation_swap|].
    repeat constructor. }
  assert (NoDup (package_paths ["r"] sample_registry)) as H2.
  { apply (bool_decide_unpack _). vm_compute. exact I. }
  assert (collect_managed ["r"] sample_registry sample_world
          = (Ok sample_managed, sample_world)) as H3
    by (vm_compute; reflexivity).
  split; [exact H1|]. split; [exact H2|]. split; [exact H3|].
  exact (generator_deterministic _ _ _ _ _ _ H1 H2 H3).
Defined.

(** C8.  A package registered with an empty list of declarations: its
    file is a key of the managed files, and its content is the two
    header lines and nothing else; so a completed [fix] has written the
    file with these two lines, and [check] returns normally only on a
    tree that has it with these two lines.  (The keys of the registry
    name different files.) *)
Theorem empty_package_header root r pkg :
  let two_header_lines :=
    "# ruff: noqa" +:+ nl +:+
    "# This file is generated by aliases.py. Do not edit it manually!" +:+ nl in
  NoDup (package_paths root r) →
  (pkg, []) ∈ r →
  (∀ w m w1, collect_managed root r w = (Ok m, w1) →
     dict_mem (package_path root pkg) m = true
     ∧ dict_get (package_path root pkg) m = Some two_header_lines)
  ∧ (∀ w w1, fix_ root r w = (Ok tt, w1) →
       file_at (package_path root pkg) (fs w1) = Some two_header_lines)
  ∧ (∀ w w1, check root r w = (Ok tt, w1) →
       file_at (package_path root pkg) (fs w) = Some two_header_lines).
Proof.
  intros two_header_lines Hnd Hin.
  assert (∀ m, collect_from root [] r = Ok m →
            (package_path root pkg, two_header_lines) ∈ m) as Hkey.
  { intros m Hc.
    destruct (collect_from_get _ _ _ _ _ _ Hc Hnd Hin) as (c & Hr & Hg).
    injection Hr as <-. by apply dict_get_Some. }
  split; [|split].
  - intros w m w1. rewrite collect_managed_run. intros [= Hc <-].
    destruct (collect_from_get _ _ _ _ _ _ Hc Hnd Hin) as (c & Hr & Hg).
    injection Hr as <-. unfold dict_mem. by rewrite Hg.
  - intros w w1 H. destruct (fix_ok_inv _ _ _ _ H) as (m & Ec & _ & _ & [Hm _] & _).
    apply Hm. by apply Hkey.
  - intros w w1 H. destruct (check_ok_inv _ _ _ _ H) as (m & Ec & Hm & _).
    apply Hm. by apply Hkey.
Qed.

Lemma empty_package_header_witness :
  NoDup (package_paths ["r"] sample_registry)
  ∧ ("hsfs", []) ∈ sample_registry
  ∧ collect_managed ["r"] sample_registry sample_world
    = (Ok sample_managed, sample_world)
  ∧ fix_ ["r"] sample_registry sample_world = (Ok tt, sample_fixed)
  ∧ check ["r"] sample_registry sample_fixed = (Ok tt, sample_checked)
  ∧ dict_mem (package_path ["r"] "hsfs") sample_managed = true
  ∧ dict_get (package_path ["r"] "hsfs") sample_managed = Some header
  ∧ file_at (package_path ["r"] "hsfs") (fs sample_fixed) = Some header.
Proof.
  assert (NoDup (package_paths ["r"] sample_registry)) as H1.
  { apply (bool_decide_unpack _). vm_compute. exact I. }
  assert (("hsfs", []) ∈ sample_registry) as H2.
  { right. left. }
  assert (collect_managed ["r"] sample_registry sample_world
          = (Ok sample_managed, sample_world)) as H3
    by (vm_compute; reflexivity).
  assert (fix_ ["r"] sample_registry sample_world = (Ok tt, sample_fixed)) as H4
    by (vm_compute; reflexivity).
  assert (check ["r"] sample_registry sample_fixed = (Ok tt, sample_checked)) as H5
    by (vm_compute; reflexivity).
  destruct (empty_package_header ["r"] sample_registry "hsfs" H1 H2)
    as (Hgen & Hfix & Hcheck).
  do 5 (split; [assumption|]).
  destruct (Hgen _ _ _ H3) as [Hmem Hget].
  split; [exact Hmem|]. split; [exact Hget|]. exact (Hfix _ _ H4).
Defined.

End GeneratorProperties.

(** ** Properties of the reconciler *)

Section ReconcilerProperties.

Implicit Types (p q root : Path) (w : World) (m : Managed) (reg : Registry).

(** C5.  When [fix] has run to its end on a tree, [check] run right
    after it on the tree that [fix] left, with the same registry, prints
    the success message and nothing else, leaves [ok] true and returns
    without exiting. *)
Theorem check_after_fix root reg w w1 :
  fix_ root reg w = (Ok tt, w1) →
  check root reg w1 =
  (Ok tt, mkWorld (fs w1) (stdout w1 ++ [AliasesCorrect]) true).
Proof.
  intros H. destruct (fix_ok_inv _ _ _ _ H) as (m & Ec & _ & _ & Hrec & _).
  by eapply check_reconciled.
Qed.

Lemma check_after_fix_witness :
  fix_ ["r"] sample_registry sample_world = (Ok tt, sample_fixed)
  ∧ check ["r"] sample_registry sample_fixed =
    (Ok tt, mkWorld (fs sample_fixed) (stdout sample_fixed ++ [AliasesCorrect]) true).
Proof.
  assert (fix_ ["r"] sample_registry sample_world = (Ok tt, sample_fixed)) as H
    by (vm_compute; reflexivity).
  split; [exact H|]. exact (check_after_fix _ _ _ _ H).
Defined.

(** C6.  Running [fix] on the world that a first run of [fix] left, with
    the same registry, ends as the first run did and leaves that world as
    it is: the same tree, file by file, whether the first run completed
    or stopped on an error. *)
Theorem fix_idempotent root reg w :
  fix_ root reg (fix_ root reg w).2 = fix_ root reg w.
Proof.
  destruct (fix_ root reg w) as [r w1] eqn:E. simpl.
  destruct r as [[]| |].
  { destruct (fix_ok_inv _ _ _ _ E) as (m & Ec & _ & _ & Hrec & _).
    by eapply fix_reconciled. }
  all: revert E; rewrite !fix_run.
  all: destruct (collect_from root [] reg) as [m| |] eqn:Ec;
    [|by intros [= <- <-]..].
  all: destruct (collect_ok_keys _ _ _ Ec) as (Hk & Hnd & _).
  all: destruct (for_each m write_managed tt w) as [r0 wm] eqn:Ew.
  all: destruct r0 as [[]| |].
  all: try (intros [= <- <-]; by rewrite (write_all_idem _ _ _ _ Hk Hnd Ew)).
  all: destruct (fix_walk root (ignored_paths root) m (tree_files root (fs wm)) wm
                   (NoDup_tree_files _ _)) as (w' & -> & _);
    [intros q; by rewrite elem_of_tree_files|done].
Qed.

(** C7, as amended.  A file under a source root or an ignored path is
    never deleted by [fix], and [check] never prints that it should not
    exist; [check] prints an error about it only when it is the generated
    file of a registered package. *)
Theorem ignored_files_kept root reg w q c :
  existsb (is_relative_to q) (ignored_paths root) = true →
  file_at q (fs w) = Some c →
  is_Some (file_at q (fs (fix_ root reg w).2))
  ∧ ∃ out, stdout (check root reg w).2 = stdout w ++ out
           ∧ (ShouldntExist q ∉ out)
           ∧ (q ∉ package_paths root reg →
              (ShouldExist q ∉ out) ∧ (WrongContent q ∉ out)).
Proof.
  intros Hign Hc. split.
  - rewrite fix_run.
    destruct (collect_from root [] reg) as [m| |] eqn:Ec; [|by eauto..].
    destruct (collect_ok_keys _ _ _ Ec) as (Hk & Hnd & _).
    destruct (for_each m write_managed tt w) as [r0 wm] eqn:Ew.
    destruct (write_all_frame _ _ _ _ Hk Ew) as (_ & _ & _ & Hkeep).
    specialize (Hkeep q ltac:(eauto)).
    destruct r0 as [[]| |]; [|done..].
    destruct (fix_walk root (ignored_paths root) m (tree_files root (fs wm)) wm
                (NoDup_tree_files _ _)) as (w' & -> & _ & _ & Hf).
    { intros q'. by rewrite elem_of_tree_files. }
    simpl. rewrite Hf, decide_False; [done|]. intros [_ He].
    unfold excess in He. rewrite Hign in He. by rewrite andb_false_r in He.
  - destruct (check root reg w) as [r w'] eqn:E.
    destruct (check_lines _ _ _ _ _ E) as (_ & out & Ho & Hl).
    exists out. split; [done|]. split.
    + intros Hin. destruct (Hl _ Hin) as
        [?|[?|[(p & _ & [?|?])|(p & m & _ & [= <-] & Hr)]]]; try done.
      unfold reportable, excess in Hr. rewrite Hign in Hr.
      by rewrite andb_false_r in Hr.
    + intros Hq. split; intros Hin; destruct (Hl _ Hin) as
        [?|[?|[(p & Hp & [?|?])|(p & m & _ & ? & _)]]]; try done;
        by simplify_eq.
Qed.

Lemma ignored_files_kept_witness :
  existsb (is_relative_to ["r"; "hsfs"; "__init__.py"]) (ignored_paths ["r"]) = true
  ∧ file_at ["r"; "hsfs"; "__init__.py"] (fs sample_world) = Some "x"
  ∧ is_Some (file_at ["r"; "hsfs"; "__init__.py"]
               (fs (fix_ ["r"] collision_registry sample_world).2))
  ∧ ∃ out, stdout (check ["r"] collision_registry sample_world).2
           = stdout sample_world ++ out
           ∧ (ShouldntExist ["r"; "hsfs"; "__init__.py"] ∉ out)
           ∧ (["r"; "hsfs"; "__init__.py"] ∉ package_paths ["r"] collision_registry →
              (ShouldExist ["r"; "hsfs"; "__init__.py"] ∉ out)
              ∧ (WrongContent ["r"; "hsfs"; "__init__.py"] ∉ out)).
Proof.
  split; [reflexivity|]. split; [reflexivity|].
  apply (ignored_files_kept ["r"] collision_registry sample_world
           ["r"; "hsfs"; "__init__.py"] "x"); reflexivity.
Defined.

(** C7 as stated fails: the file hsfs/__init__.py lies under the ignored
    path hsfs, and [check] reports its content, because it is the
    generated file of the registered package "hsfs". *)
Lemma check_reports_managed_file_under_ignored :
  existsb (is_relative_to ["r"; "hsfs"; "__init__.py"]) (ignored_paths ["r"]) = true
  ∧ file_at ["r"; "hsfs"; "__init__.py"] (fs sample_world) = Some "x"
  ∧ check ["r"] [("hsfs", [])] sample_world
    = (Exit 1%Z,
       mkWorld sample_tree
         [WrongContent ["r"; "hsfs"; "__init__.py"];
          ShouldntExist ["r"; "stray"; "old.py"];
          RunFix]
         false).
Proof. split; [reflexivity|]. split; [reflexivity|]. vm_compute. reflexivity. Qed.

(** C9 (the code does not do what the claim says).  On the registry with
    two declarations that export Foo in "pkg.sub", [fix] does not exit:
    it returns normally, prints nothing, and has written the file of the
    package, with both bindings, into a tree that did not have it. *)
Theorem fix_writes_despite_collision :
  file_at ["r"; "pkg"; "sub"; "__init__.py"] (fs sample_world) = None
  ∧ (fix_ ["r"] collision_registry sample_world).1 = Ok tt
  ∧ stdout (fix_ ["r"] collision_registry sample_world).2 = []
  ∧ file_at ["r"; "pkg"; "sub"; "__init__.py"]
      (fs (fix_ ["r"] collision_registry sample_world).2)
    = Some ("# ruff: noqa" +:+ nl +:+
            "# This file is generated by aliases.py. Do not edit it manually!" +:+ nl +:+
            "import hopsworks.internal.aliases" +:+ nl +:+
            "import pkg.a" +:+ nl +:+
            "Foo = pkg.a.Foo" +:+ nl +:+
            "import pkg.b" +:+ nl +:+
            "Foo = pkg.b.Foo" +:+ nl).
Proof. repeat split; vm_compute; reflexivity. Qed.

(** When the generator does stop, [fix] has changed nothing. *)
Lemma fix_generator_failure root reg w :
  (∀ m, collect_from root [] reg ≠ Ok m) → (fix_ root reg w).2 = w.
Proof.
  intros H. rewrite fix_run. destruct (collect_from root [] reg); [|done..].
  by destruct (H a).
Qed.

(** C10, as amended.  For a file with the suffix .pyc or with a
    component __pycache__ in its path: [check] never prints that it
    should not exist, and prints no error about it at all unless it is
    the generated file of a registered package (which a .pyc file never
    is); a completed [fix] has deleted it when it was a file below the
    root, not directly inside the root, not under a source root or an
    ignored path, and not a generated file. *)
Theorem bytecode_files root reg w q :
  bytecode q = true →
  (∃ out, stdout (check root reg w).2 = stdout w ++ out
          ∧ (ShouldntExist q ∉ out)
          ∧ (String.eqb (suffix q) ".pyc" = true ∨ q ∉ package_paths root reg →
             (ShouldExist q ∉ out) ∧ (WrongContent q ∉ out)))
  ∧ ((fix_ root reg w).1 = Ok tt →
     root `prefix_of` q → is_Some (file_at q (fs w)) →
     parent q ≠ root →
     existsb (is_relative_to q) (ignored_paths root) = false →
     q ∉ package_paths root reg →
     file_at q (fs (fix_ root reg w).2) = None).
Proof.
  intros Hb. split.
  - destruct (check root reg w) as [r w'] eqn:E.
    destruct (check_lines _ _ _ _ _ E) as (_ & out & Ho & Hl).
    exists out. split; [done|]. split.
    + intros Hin. destruct (Hl _ Hin) as
        [?|[?|[(p & _ & [?|?])|(p & m & _ & [= <-] & Hr)]]]; try done.
      unfold reportable in Hr. rewrite Hb in Hr. by rewrite andb_false_r in Hr.
    + intros Hq.
      assert (q ∉ package_paths root reg) as Hq'.
      { destruct Hq as [Hs|]; [|done].
        intros ([pkg imports] & -> & _)%list_elem_of_fmap.
        by rewrite package_path_suffix in Hs. }
      split; intros Hin; destruct (Hl _ Hin) as
        [?|[?|[(p & Hp & [?|?])|(p & m & _ & ? & _)]]]; try done;
        by simplify_eq.
  - destruct (fix_ root reg w) as [r w1] eqn:E. cbn [fst snd].
    intros -> Hpre Hs Hpar Hign Hq.
    destruct (fix_ok_inv _ _ _ _ E) as (m & Ec & _ & _ & _ & Hdel).
    destruct (collect_ok_keys _ _ _ Ec) as (_ & _ & Hkeys).
    apply Hdel; [done..|]. unfold excess.
    rewrite bool_decide_eq_false_2 by done. rewrite Hign. cbn [negb andb].
    destruct (dict_mem q m) eqn:Em; [|done].
    apply dict_mem_true in Em. by apply Hkeys in Em.
Qed.

Lemma bytecode_files_witness :
  bytecode ["r"; "pkg"; "__pycache__"; "m.pyc"] = true
  ∧ (∃ out, stdout (check ["r"] sample_registry sample_world).2
            = stdout sample_world ++ out
            ∧ (ShouldntExist ["r"; "pkg"; "__pycache__"; "m.pyc"] ∉ out)
            ∧ (ShouldExist ["r"; "pkg"; "__pycache__"; "m.pyc"] ∉ out)
            ∧ (WrongContent ["r"; "pkg"; "__pycache__"; "m.pyc"] ∉ out))
  ∧ file_at ["r"; "pkg"; "__pycache__"; "m.pyc"] (fs sample_world) = Some "bytes"
  ∧ file_at ["r"; "pkg"; "__pycache__"; "m.pyc"]
      (fs (fix_ ["r"] sample_registry sample_world).2) = None.
Proof.
  destruct (bytecode_files ["r"] sample_registry sample_world
              ["r"; "pkg"; "__pycache__"; "m.pyc"] eq_refl)
    as [(out & Ho & Hn & Hq) Hfix].
  split; [reflexivity|]. split.
  - exists out. split; [exact Ho|]. split; [exact Hn|].
    apply Hq. left. reflexivity.
  - split; [reflexivity|]. apply Hfix.
    + reflexivity.
    + by exists ["pkg"; "__pycache__"; "m.pyc"].
    + by exists "bytes".
    + discriminate.
    + reflexivity.
    + vm_compute. intros H. repeat (apply elem_of_cons in H as [H|H]; [discriminate H|]).
      by apply elem_of_nil in H.
Defined.

(** C10 as stated fails: the file pkg/__pycache__/__init__.py has the
    component __pycache__ in its path, and [check] reports its content,
    because it is the generated file of the registered package
    "pkg.__pycache__". *)
Lemma check_reports_managed_file_in_pycache :
  bytecode ["r"; "pkg"; "__pycache__"; "__init__.py"] = true
  ∧ file_at ["r"; "pkg"; "__pycache__"; "__init__.py"] (fs sample_world) = Some "x"
  ∧ check ["r"] [("pkg.__pycache__", [])] sample_world
    = (Exit 1%Z,
       mkWorld sample_tree
         [WrongContent ["r"; "pkg"; "__pycache__"; "__init__.py"];
          ShouldntExist ["r"; "stray"; "old.py"];
          RunFix]
         false).
Proof. split; [reflexivity|]. split; [reflexivity|]. vm_compute. reflexivity. Qed.

End ReconcilerProperties.

(** ** Directories: lemmas *)

Section Directories.

Implicit Types (p q full : Path) (n : node) (w : World) (m : Managed).

Lemma dir_at_cons x q n :
  dir_at (x :: q) n =
  match n with
  | Dir ch => match ch !! x with Some c => dir_at q c | None => false end
  | File _ => false
  end.
Proof. unfold dir_at. simpl. destruct n as [|ch]; [done|]. by destruct (ch !! x). Qed.

Lemma dir_at_empty_dir q : dir_at q (Dir ∅) = bool_decide (q = []).
Proof. destruct q; [done|]. rewrite dir_at_cons. by rewrite lookup_empty. Qed.

Lemma dir_at_not_file q n c : dir_at q n = true → file_at q n ≠ Some c.
Proof. unfold dir_at, file_at. by destruct (lookup_node q n) as [[]|]. Qed.

Lemma lookup_node_None q n :
  lookup_node q n = None ↔ file_at q n = None ∧ dir_at q n = false.
Proof.
  unfold dir_at, file_at. destruct (lookup_node q n) as [[]|]; split; try done;
    by intros [??].
Qed.

Lemma mkdir_dir_at full p n n' :
  mkdir full p n = Ok n' →
  ∀ q, dir_at q n' = dir_at q n || bool_decide (q `prefix_of` p).
Proof.
  revert n n'. induction p as [|x p IH]; intros [c|ch] n'; simpl; try done.
  - intros [= <-] q. destruct q as [|y q]; [done|].
    case_bool_decide as H; [|by rewrite orb_false_r].
    by apply prefix_nil_not in H.
  - destruct (mkdir full p (default (Dir ∅) (ch !! x))) as [c| |] eqn:E; simpl; try done.
    intros [= <-] [|y q]; [done|].
    rewrite !dir_at_cons. destruct (decide (x = y)) as [->|Hne].
    + rewrite lookup_insert_eq, (IH _ _ E q).
      rewrite (bool_decide_ext ((y :: q) `prefix_of` (y :: p)) (q `prefix_of` p)).
      2:{ rewrite prefix_cons_iff. split; [by intros [_ ?]|by intros ?]. }
      destruct (ch !! y); simpl; [done|].
      rewrite dir_at_empty_dir. destruct q as [|z q]; [|done].
      by rewrite (bool_decide_eq_true_2 ([] `prefix_of` p)) by apply prefix_nil.
    + rewrite lookup_insert_ne by done.
      rewrite (bool_decide_eq_false_2 ((y :: q) `prefix_of` (x :: p))).
      2:{ rewrite prefix_cons_iff. by intros [? _]. }
      by rewrite orb_false_r.
Qed.



Lemma update_entry_above full p f n n' q :
  update_entry full p f n = Ok n' → q `prefix_of` p → q ≠ p →
  dir_at q n = true ∧ dir_at q n' = true.
Proof.
  revert n n' q. induction p as [|x p IH]; intros n n' q Hu Hq Hne.
  { apply prefix_nil_inv in Hq. done. }
  simpl in Hu. destruct n as [c|ch]; [done|].
  destruct p as [|z p].
  - destruct (f (ch !! x)) as [r| |]; simpl in Hu; try done. injection Hu as <-.
    destruct q as [|y q]; [done|].
    apply prefix_cons_iff in Hq as [<- Hq]. apply prefix_nil_inv in Hq as ->. done.
  - destruct (ch !! x) as [c|] eqn:Ex; [|done].
    destruct (update_entry full (z :: p) f c) as [c'| |] eqn:Eu; simpl in Hu; try done.
    injection Hu as <-. destruct q as [|y q]; [done|].
    apply prefix_cons_iff in Hq as [<- Hq].
    rewrite !dir_at_cons, lookup_insert_eq, Ex.
    apply (IH _ _ _ Eu Hq). congruence.
Qed.

Lemma update_entry_dir_at full p f n n' :
  keeps_dirs f → p ≠ [] → update_entry full p f n = Ok n' →
  ∀ q, dir_at q n' = dir_at q n.
Proof.
  intros Hf Hp Hu q.
  destruct (decide (p `prefix_of` q)) as [[k ->]|Hpq].
  - destruct (update_entry_lookup_self _ _ _ _ _ Hp Hu) as (r & Hr & Hl).
    unfold dir_at. rewrite !lookup_node_app, Hl.
    specialize (Hf _ _ Hr).
    destruct (lookup_node p n) as [[c|ch]|]; [| by subst |].
    all: destruct r as [[c'|ch']|]; try (by destruct (Hf ch')).
    all: by destruct k.
  - destruct (decide (q `prefix_of` p)) as [Hqp|Hqp].
    + assert (q ≠ p) as Hne by (intros ->; by apply Hpq).
      destruct (update_entry_above _ _ _ _ _ _ Hu Hqp Hne) as [-> ->]. done.
    + unfold dir_at. by rewrite (update_entry_lookup_other _ _ _ _ _ _ Hu).
Qed.

Lemma touch_entry_keeps_dirs : keeps_dirs touch_entry.
Proof. intros [[c|ch]|] r; simpl; intros [= <-]; done. Qed.

Lemma write_entry_keeps_dirs full content : keeps_dirs (write_entry full content).
Proof. intros [[c|ch]|] r; simpl; try done; intros [= <-]; done. Qed.

Lemma unlink_entry_keeps_dirs full : keeps_dirs (unlink_entry full).
Proof. intros [[c|ch]|] r; simpl; try done; intros [= <-]; done. Qed.

End Directories.

(** ** Running [fix]: lemmas *)

Section FixRuns.

Implicit Types (p q full root : Path) (n : node) (w : World) (m : Managed).

Lemma mkdir_no_exit full p n c : mkdir full p n ≠ Exit c.
Proof.
  revert n. induction p as [|x p IH]; intros [c'|ch]; simpl; try done.
  specialize (IH (default (Dir ∅) (ch !! x))).
  by destruct (mkdir full p (default (Dir ∅) (ch !! x))).
Qed.

Lemma update_entry_no_exit full p f n c :
  (∀ o c', f o ≠ Exit c') → update_entry full p f n ≠ Exit c.
Proof.
  intros Hf. revert n. induction p as [|x p IH]; intros n; simpl.
  - specialize (Hf (Some n)).
    destruct (f (Some n)) as [r|c0|e]; simpl; [done|by destruct (Hf c0)|done].
  - destruct n as [c'|ch]; [done|]. destruct p as [|z p].
    + specialize (Hf (ch !! x)).
      destruct (f (ch !! x)) as [r|c0|e]; simpl; [done|by destruct (Hf c0)|done].
    + destruct (ch !! x) as [c0|]; [|done]. specialize (IH c0).
      by destruct (update_entry full (z :: p) f c0).
Qed.

Lemma on_fs_no_exit op w c w' :
  (∀ n c', op n ≠ Exit c') → on_fs op w ≠ (Exit c, w').
Proof.
  intros Hop. unfold on_fs. specialize (Hop (fs w)).
  destruct (op (fs w)) as [n'|c0|e]; [done|by destruct (Hop c0)|done].
Qed.

Lemma write_managed_no_exit item w c w' : write_managed tt item w ≠ (Exit c, w').
Proof.
  destruct item as [p content]. unfold write_managed. unfold_bind.
  destruct (mkdir_parents (parent p) w) as [[[]| |] w1] eqn:E1.
  - destruct (touch p w1) as [[[]| |] w2] eqn:E2.
    + apply on_fs_no_exit. intros n c'. apply update_entry_no_exit.
      by intros [[|]|] ?.
    + exfalso. revert E2. apply on_fs_no_exit. intros n c'.
      apply update_entry_no_exit. by intros [|] ?.
    + done.
  - exfalso. revert E1. apply on_fs_no_exit. intros n c'. apply mkdir_no_exit.
  - done.
Qed.

Lemma write_all_no_exit m : ∀ w c w', for_each m write_managed tt w ≠ (Exit c, w').
Proof.
  induction m as [|item m IH]; intros w c w'; [done|].
  rewrite for_each_cons.
  destruct (write_managed tt item w) as [[[]| |] w1] eqn:E1; [apply IH| |done].
  by apply write_managed_no_exit in E1.
Qed.



Lemma mkdir_parents_dir_at p w r w' :
  mkdir_parents p w = (r, w') →
  (∀ q, dir_at q (fs w) = true → dir_at q (fs w') = true)
  ∧ (r = Ok tt →
     ∀ q, dir_at q (fs w') = dir_at q (fs w) || bool_decide (q `prefix_of` p)).
Proof.
  intros H. apply on_fs_inv in H as [(n' & E & -> & <-)|[Hr ->]]; [|done].
  pose proof (mkdir_dir_at _ _ _ _ E) as Hd. split; [|done].
  intros q Hq. by rewrite Hd, Hq.
Qed.

Lemma on_fs_update_dir_at full p f w r w' :
  keeps_dirs f → p ≠ [] → on_fs (update_entry full p f) w = (r, w') →
  ∀ q, dir_at q (fs w') = dir_at q (fs w).
Proof.
  intros Hf Hp H q. apply on_fs_inv in H as [(n' & E & _ & <-)|[_ ->]]; [|done].
  by eapply update_entry_dir_at.
Qed.

Lemma write_managed_dir_at p c w r w' :
  p ≠ [] → write_managed tt (p, c) w = (r, w') →
  (∀ q, dir_at q (fs w) = true → dir_at q (fs w') = true)
  ∧ (r = Ok tt →
     ∀ q, dir_at q (fs w') = dir_at q (fs w) || bool_decide (q `prefix_of` parent p)).
Proof.
  intros Hp. unfold write_managed. unfold_bind.
  destruct (mkdir_parents (parent p) w) as [r1 w1] eqn:E1.
  destruct (mkdir_parents_dir_at _ _ _ _ E1) as [Hm1 Hx1].
  destruct r1 as [[]| |]; try (by intros [= <- <-]).
  destruct (touch p w1) as [r2 w2] eqn:E2.
  pose proof (on_fs_update_dir_at _ _ _ _ _ _ touch_entry_keeps_dirs Hp E2) as H2.
  destruct r2 as [[]| |];
    try (intros [= <- <-]; split; [|done]; intros q Hq; rewrite H2; by apply Hm1).
  intros E3.
  pose proof (on_fs_update_dir_at _ _ _ _ _ _
                (write_entry_keeps_dirs p c) Hp E3) as H3.
  split.
  - intros q Hq. rewrite H3, H2. by apply Hm1.
  - intros _ q. rewrite H3, H2. by apply Hx1.
Qed.





End FixRuns.

(** ** What [fix] does to the tree *)

Section FixProperties.

Implicit Types (p q root : Path) (n : node) (w : World) (m : Managed).

Lemma unlink_dir_at q w r w' :
  unlink q w = (r, w') → ∀ p, dir_at p (fs w') = dir_at p (fs w).
Proof.
  destruct (decide (q = [])) as [->|Hq].
  - unfold unlink, on_fs. simpl. destruct (fs w) as [c|ch] eqn:E; simpl.
    + by intros [= <- <-].
    + intros [= <- <-]. by rewrite E.
  - by apply on_fs_update_dir_at; [apply unlink_entry_keeps_dirs|].
Qed.

Lemma fix_walk_dir_at root ign m l : ∀ w r w',
  run_all (remove_if_excess root ign m) l w = (r, w') →
  ∀ p, dir_at p (fs w') = dir_at p (fs w).
Proof.
  induction l as [|q l IH]; intros w r w'.
  { by intros [= <- <-]. }
  rewrite run_all_cons, remove_if_excess_run.
  destruct (excess root ign m q).
  - destruct (unlink q w) as [r1 w1] eqn:E1.
    pose proof (unlink_dir_at _ _ _ _ E1) as H1.
    destruct r1 as [[]| |]; [|intros [= <- <-]; done..].
    intros H p. by rewrite (IH _ _ _ H), H1.
  - apply IH.
Qed.

Lemma write_all_dir_at m : ∀ w r w',
  keys_nonempty m → for_each m write_managed tt w = (r, w') →
  ∀ q, dir_at q (fs w) = true → dir_at q (fs w') = true.
Proof.
  induction m as [|[p c] m IH]; intros w r w' Hk.
  { rewrite for_each_nil. by intros [= <- <-]. }
  apply keys_nonempty_cons in Hk as [Hp Hk]. rewrite for_each_cons.
  destruct (write_managed tt (p, c) w) as [r1 w1] eqn:E1.
  destruct (write_managed_dir_at _ _ _ _ _ Hp E1) as [Hmono _].
  destruct r1 as [[]| |]; [|intros [= <- <-]; done..].
  intros H q Hq. eapply IH; eauto.
Qed.

Lemma collect_managed_ok root reg w m :
  collect_managed root reg w = (Ok m, w) ↔ collect_from root [] reg = Ok m.
Proof.
  rewrite collect_managed_run. split; [by intros [= ->]|by intros ->].
Qed.

(** X14.  Whether it completes or stops on an error, [fix] leaves every
    file as it was that is not the generated file of a registered
    package and that lies outside the root, directly inside the root, or
    under a source root or an ignored path. *)
Theorem fix_leaves_other_files root reg w q :
  q ∉ package_paths root reg →
  ¬ root `prefix_of` q ∨ parent q = root
    ∨ existsb (is_relative_to q) (ignored_paths root) = true →
  file_at q (fs (fix_ root reg w).2) = file_at q (fs w).
Proof.
  intros Hq Hkeep. rewrite fix_run.
  destruct (collect_from root [] reg) as [m| |] eqn:Ec; [|done..].
  destruct (collect_ok_keys _ _ _ Ec) as (Hk & Hnd & Hkeys).
  destruct (for_each m write_managed tt w) as [r1 w1] eqn:Ew.
  destruct (write_all_frame _ _ _ _ Hk Ew) as (_ & _ & Hother & _).
  assert (file_at q (fs w1) = file_at q (fs w)) as H1.
  { apply Hother. by rewrite Hkeys. }
  destruct r1 as [[]| |]; [|done..].
  destruct (fix_walk root (ignored_paths root) m (tree_files root (fs w1)) w1
              (NoDup_tree_files _ _)) as (w' & -> & _ & _ & Hf).
  { intros q'. by rewrite elem_of_tree_files. }
  simpl. rewrite Hf, <- H1. apply decide_False. intros [Hin He].
  apply elem_of_tree_files in Hin as [Hpre _]. unfold excess in He.
  destruct Hkeep as [?|[Hpar|Hign]]; [done| |].
  - by rewrite bool_decide_eq_true_2 in He.
  - rewrite Hign in He. by rewrite andb_false_r in He.
Qed.

Lemma fix_leaves_other_files_witness :
  (["r"; "setup.py"] ∉ package_paths ["r"] sample_registry)
  ∧ (¬ ["r"] `prefix_of` ["r"; "setup.py"] ∨ parent ["r"; "setup.py"] = ["r"]
     ∨ existsb (is_relative_to ["r"; "setup.py"]) (ignored_paths ["r"]) = true)
  ∧ file_at ["r"; "setup.py"] (fs (fix_ ["r"] sample_registry sample_world).2)
    = Some "setup".
Proof.
  assert (["r"; "setup.py"] ∉ package_paths ["r"] sample_registry) as H1.
  { apply (bool_decide_unpack _). vm_compute. exact I. }
  assert (¬ ["r"] `prefix_of` ["r"; "setup.py"] ∨ parent ["r"; "setup.py"] = ["r"]
          ∨ existsb (is_relative_to ["r"; "setup.py"]) (ignored_paths ["r"]) = true)
    as H2 by (right; left; reflexivity).
  split; [exact H1|]. split; [exact H2|].
  exact (fix_leaves_other_files ["r"] sample_registry sample_world _ H1 H2).
Defined.


(** X16.  [fix] prints nothing, leaves the variable [ok] alone and
    never leaves through [exit]: it completes or raises. *)
Theorem fix_prints_nothing root reg w :
  stdout (fix_ root reg w).2 = stdout w
  ∧ ok (fix_ root reg w).2 = ok w
  ∧ ∀ code, (fix_ root reg w).1 ≠ Exit code.
Proof.
  rewrite fix_run.
  destruct (collect_from root [] reg) as [m| |] eqn:Ec;
    [|by apply collect_from_no_exit in Ec|done].
  destruct (collect_ok_keys _ _ _ Ec) as (Hk & _ & _).
  destruct (for_each m write_managed tt w) as [r1 w1] eqn:Ew.
  destruct (write_all_frame _ _ _ _ Hk Ew) as (Ho & Hok & _ & _).
  destruct r1 as [[]| |]; [|by apply write_all_no_exit in Ew|done].
  destruct (fix_walk root (ignored_paths root) m (tree_files root (fs w1)) w1
              (NoDup_tree_files _ _)) as (w' & -> & Ho' & Hok' & _).
  { intros q'. by rewrite elem_of_tree_files. }
  simpl. repeat split; [congruence..|done].
Qed.

(** X12.  When [fix] has run to its end, every generated file has its
    generated content, every other file below the root that was neither
    directly inside the root nor under a source root or an ignored path
    is gone, and every other file is as it was. *)
Theorem fix_result root reg w w1 :
  fix_ root reg w = (Ok tt, w1) →
  ∃ m, collect_managed root reg w = (Ok m, w)
       ∧ ∀ q, file_at q (fs w1) =
              match dict_get q m with
              | Some c => Some c
              | None =>
                  if bool_decide (root `prefix_of` q)
                     && excess root (ignored_paths root) m q
                  then None
                  else file_at q (fs w)
              end.
Proof.
  rewrite fix_run. destruct (collect_from root [] reg) as [m| |] eqn:Ec; [|done..].
  destruct (collect_ok_keys _ _ _ Ec) as (Hk & Hnd & Hkeys).
  destruct (for_each m write_managed tt w) as [[[]| |] wm] eqn:Ew; [|done..].
  destruct (write_all_frame _ _ _ _ Hk Ew) as (_ & _ & Hother & _).
  pose proof (write_all_done _ _ _ Hk Hnd Ew) as Hdone.
  destruct (fix_walk root (ignored_paths root) m (tree_files root (fs wm)) wm
              (NoDup_tree_files _ _)) as (w' & -> & _ & _ & Hf).
  { intros q. by rewrite elem_of_tree_files. }
  intros [= <-]. exists m. split; [by apply collect_managed_ok|].
  intros q. rewrite Hf. destruct (dict_get q m) as [c|] eqn:Eg.
  - rewrite decide_False; [by apply Hdone, dict_get_Some|].
    intros [_ He]. unfold excess, dict_mem in He. rewrite Eg in He.
    by rewrite andb_false_r in He.
  - apply dict_get_None in Eg. rewrite <- (Hother q Eg).
    destruct (excess root (ignored_paths root) m q) eqn:He.
    + case_bool_decide as Hpre; simpl.
      * destruct (decide (q ∈ tree_files root (fs wm) ∧ true = true))
          as [|Hn]; [done|].
        rewrite elem_of_tree_files in Hn.
        destruct (file_at q (fs wm)); [|done]. destruct Hn. eauto.
      * apply decide_False. intros [[? _]%elem_of_tree_files _]. done.
    + rewrite andb_false_r. apply decide_False. by intros [_ ?].
Qed.

Lemma fix_result_witness :
  fix_ ["r"] sample_registry sample_world = (Ok tt, sample_fixed)
  ∧ ∃ m, collect_managed ["r"] sample_registry sample_world = (Ok m, sample_world)
         ∧ ∀ q, file_at q (fs sample_fixed) =
                match dict_get q m with
                | Some c => Some c
                | None =>
                    if bool_decide (["r"] `prefix_of` q)
                       && excess ["r"] (ignored_paths ["r"]) m q
                    then None
                    else file_at q (fs sample_world)
                end.
Proof.
  assert (fix_ ["r"] sample_registry sample_world = (Ok tt, sample_fixed)) as H
    by (vm_compute; reflexivity).
  split; [exact H|]. exact (fix_result _ _ _ _ H).
Defined.




(** X15.  [fix] removes no directory: a directory of the tree is
    still one after [fix], whether it completes or stops on an error, and
    also when every file below it was removed. *)
Theorem fix_keeps_directories root reg w q :
  dir_at q (fs w) = true → dir_at q (fs (fix_ root reg w).2) = true.
Proof.
  intros Hq. rewrite fix_run.
  destruct (collect_from root [] reg) as [m| |] eqn:Ec; [|done..].
  destruct (collect_ok_keys _ _ _ Ec) as (Hk & _ & _).
  destruct (for_each m write_managed tt w) as [r1 w1] eqn:Ew.
  pose proof (write_all_dir_at _ _ _ _ Hk Ew q Hq) as H1.
  destruct r1 as [[]| |]; [|done..].
  destruct (run_all _ _ w1) as [r2 w2] eqn:E2. simpl.
  by rewrite (fix_walk_dir_at _ _ _ _ _ _ _ E2).
Qed.

Lemma fix_keeps_directories_witness :
  dir_at ["r"; "stray"] (fs sample_world) = true
  ∧ file_at ["r"; "stray"; "old.py"] (fs (fix_ ["r"] sample_registry sample_world).2)
    = None
  ∧ dir_at ["r"; "stray"] (fs (fix_ ["r"] sample_registry sample_world).2) = true.
Proof.
  split; [reflexivity|]. split; [vm_compute; reflexivity|].
  exact (fix_keeps_directories ["r"] sample_registry sample_world ["r"; "stray"]
           eq_refl).
Defined.


End FixProperties.

(** ** What [check] prints *)

Section CheckProperties.

Implicit Types (p q root : Path) (n : node) (w : World) (m : Managed).

Lemma check_managed_output p c w :
  dir_at p (fs w) = false →
  check_managed tt (p, c) w =
  (Ok tt, mkWorld (fs w) (stdout w ++ managed_error (fs w) (p, c))
            (ok w && bool_decide (managed_error (fs w) (p, c) = []))).
Proof.
  unfold dir_at, managed_error, check_managed, path_exists, read_text, print, set_ok.
  unfold_bind. simpl.
  destruct (lookup_node p (fs w)) as [[t|ch]|] eqn:El; simpl; rewrite ?El; [|done|].
  - intros _. destruct (String.eqb t c); simpl.
    + by rewrite app_nil_r, andb_true_r, world_eta.
    + by rewrite andb_false_r.
  - intros _. by rewrite andb_false_r.
Qed.


Lemma check_all_raises m : ∀ w,
  (∃ p, p ∈ m.*1 ∧ dir_at p (fs w) = true) →
  ∃ p w', p ∈ m.*1 ∧ dir_at p (fs w) = true
          ∧ for_each m check_managed tt w = (Raise (IsADirectoryError p), w')
          ∧ fs w' = fs w.
Proof.
  induction m as [|[p c] m IH]; intros w (p0 & Hin & Hd0).
  { by apply elem_of_nil in Hin. }
  rewrite for_each_cons. destruct (dir_at p (fs w)) eqn:Hd.
  - exists p, w. split; [left|]. split; [done|]. split; [|done].
    unfold dir_at in Hd. unfold check_managed, path_exists, read_text.
    unfold_bind. simpl.
    destruct (lookup_node p (fs w)) as [[t|ch]|] eqn:El; try done.
    simpl. by rewrite El.
  - rewrite check_managed_output by done.
    simpl in Hin. apply elem_of_cons in Hin as [->|Hin]; [congruence|].
    destruct (IH (mkWorld (fs w) (stdout w ++ managed_error (fs w) (p, c))
                    (ok w && bool_decide (managed_error (fs w) (p, c) = []))))
      as (p1 & w' & Hin1 & Hd1 & -> & Hf); [by exists p0|].
    exists p1, w'. split; [by right|]. done.
Qed.



(** X20.  [check] changes no file and no directory, however it ends. *)
Theorem check_changes_nothing root reg w :
  fs (check root reg w).2 = fs w.
Proof.
  destruct (check root reg w) as [r w'] eqn:E.
  by destruct (check_lines _ _ _ _ _ E) as [? _].
Qed.




(** X19.  When a directory is in the place of a generated file,
    [check] raises [IsADirectoryError] on such a file: it neither
    reports it nor leaves through [exit(1)]. *)
Theorem check_raises_on_directory root reg w m :
  collect_managed root reg w = (Ok m, w) →
  (∃ p, p ∈ m.*1 ∧ dir_at p (fs w) = true) →
  ∃ p w', p ∈ m.*1 ∧ dir_at p (fs w) = true
          ∧ check root reg w = (Raise (IsADirectoryError p), w').
Proof.
  intros Hm%collect_managed_ok Hex. rewrite check_run, Hm. cbv zeta.
  destruct (check_all_raises m (mkWorld (fs w) (stdout w) true) Hex)
    as (p & w' & Hin & Hd & -> & _).
  by exists p, w'.
Qed.

Lemma check_raises_on_directory_witness :
  collect_managed ["r"] [("pkg", [])] (mkWorld blocked_tree [] false)
  = (Ok [(["r"; "pkg"; "__init__.py"], header)], mkWorld blocked_tree [] false)
  ∧ (∃ p, p ∈ [(["r"; "pkg"; "__init__.py"], header)].*1
          ∧ dir_at p (fs (mkWorld blocked_tree [] false)) = true)
  ∧ ∃ p w', p ∈ [(["r"; "pkg"; "__init__.py"], header)].*1
            ∧ dir_at p (fs (mkWorld blocked_tree [] false)) = true
            ∧ check ["r"] [("pkg", [])] (mkWorld blocked_tree [] false)
              = (Raise (IsADirectoryError p), w').
Proof.
  assert (collect_managed ["r"] [("pkg", [])] (mkWorld blocked_tree [] false)
          = (Ok [(["r"; "pkg"; "__init__.py"], header)], mkWorld blocked_tree [] false))
    as H1 by (vm_compute; reflexivity).
  assert (∃ p, p ∈ [(["r"; "pkg"; "__init__.py"], header)].*1
               ∧ dir_at p (fs (mkWorld blocked_tree [] false)) = true) as H2.
  { exists ["r"; "pkg"; "__init__.py"]. split; [left|reflexivity]. }
  split; [exact H1|]. split; [exact H2|].
  exact (check_raises_on_directory _ _ _ _ H1 H2).
Defined.



End CheckProperties.

(** ** The files of the generator *)

Section GeneratedFiles.

Implicit Types (p q root : Path) (w : World) (m managed : Managed) (reg : Registry).

Lemma elem_of_dict_set k v q c managed :
  (q, c) ∈ dict_set k v managed → (q, c) = (k, v) ∨ (q, c) ∈ managed.
Proof.
  induction managed as [|[k' v'] d IH]; simpl.
  - intros ->%list_elem_of_singleton. by left.
  - destruct (decide (k' = k)) as [->|Hne].
    + intros [->|?]%elem_of_cons; [by left|]. right. by right.
    + intros [->|[?|?]%IH]%elem_of_cons; [right; left|by left|right; by right].
Qed.

Lemma collect_from_contents root reg : ∀ managed m p c,
  collect_from root managed reg = Ok m → (p, c) ∈ m →
  (p, c) ∈ managed
  ∨ ∃ pkg imports, (pkg, imports) ∈ reg ∧ p = package_path root pkg
                   ∧ render imports = Ok c.
Proof.
  induction reg as [|[pkg imports] reg IH]; intros managed m p c; simpl.
  { intros [= ->]. by left. }
  destruct (render imports) as [c0| |] eqn:Er; simpl; [|done..].
  intros Hc Hin. destruct (IH _ _ _ _ Hc Hin) as [Hd|(pkg' & imports' & ? & ? & ?)].
  - apply elem_of_dict_set in Hd as [[= -> ->]|?]; [|by left].
    right. exists pkg, imports. split; [left|done].
  - right. exists pkg', imports'. split; [by right|done].
Qed.

Lemma render_header imports c : render imports = Ok c → ∃ rest, c = header +:+ rest.
Proof.
  unfold render. destruct imports as [|x l].
  { intros [= <-]. exists EmptyString. by rewrite append_nil_r. }
  destruct (list_sort (x :: l)) as [sorted| |]; simpl; [|done..].
  destruct (render_lines _ sorted) as [body| |]; simpl; [|done..].
  intros [= <-]. eexists. by rewrite append_assoc.
Qed.

Lemma package_path_name root pkg : name (package_path root pkg) = "__init__.py".
Proof. rewrite package_path_init. unfold name. by rewrite last_last. Qed.

Lemma collect_from_app root r1 r2 : ∀ managed,
  collect_from root managed (r1 ++ r2)
  = (m1 ← collect_from root managed r1; collect_from root m1 r2).
Proof.
  induction r1 as [|[pkg imports] r1 IH]; intros managed; simpl; [done|].
  destruct (render imports) as [c| |]; simpl; [apply IH|done..].
Qed.

Lemma not_in_alias_module f :
  bool_decide (f ∉ ({["hopsworks.internal.aliases"]} : gset string))
  = if decide (f = "hopsworks.internal.aliases") then false else true.
Proof.
  destruct (decide (f = "hopsworks.internal.aliases")) as [->|Hne].
  - apply bool_decide_eq_false_2. intros H. apply H. by apply elem_of_singleton.
  - apply bool_decide_eq_true_2. by intros ?%elem_of_singleton.
Qed.

(** X5.  The generator prints nothing, reads and changes nothing and
    never leaves through [exit], whatever the registry: it returns the
    files or raises. *)
Theorem generator_never_exits root reg w :
  (collect_managed root reg w).2 = w
  ∧ ∀ code, (collect_managed root reg w).1 ≠ Exit code.
Proof.
  destruct (collect_managed root reg w) as [r w'] eqn:E.
  apply collect_managed_silent in E as [-> Hr]. by split.
Qed.

(** X6.  The files that the generator returns are those of the
    registered packages, each of them once; each is named __init__.py
    and begins with the two header lines. *)
Theorem generated_files root reg w m w' :
  collect_managed root reg w = (Ok m, w') →
  NoDup m.*1
  ∧ (∀ p, p ∈ m.*1 ↔ ∃ pkg, pkg ∈ reg.*1 ∧ p = package_path root pkg)
  ∧ ∀ p c, (p, c) ∈ m → name p = "__init__.py" ∧ ∃ rest, c = header +:+ rest.
Proof.
  rewrite collect_managed_run. intros [= Hc <-].
  destruct (collect_ok_keys _ _ _ Hc) as (_ & Hnd & Hkeys).
  split; [done|]. split.
  - intros p. rewrite Hkeys. unfold package_paths. rewrite !list_elem_of_fmap.
    split.
    + intros ([pkg imports] & -> & Hin). exists pkg. split; [|done].
      apply list_elem_of_fmap. by exists (pkg, imports).
    + intros (pkg & ([pkg' imports] & -> & Hin)%list_elem_of_fmap & ->).
      by exists (pkg', imports).
  - intros p c Hin.
    destruct (collect_from_contents _ _ _ _ _ _ Hc Hin)
      as [?%elem_of_nil|(pkg & imports & _ & -> & Hr)]; [done|].
    split; [apply package_path_name|by eapply render_header].
Qed.

Lemma generated_files_witness :
  collect_managed ["r"] sample_registry sample_world = (Ok sample_managed, sample_world)
  ∧ NoDup sample_managed.*1
  ∧ (∀ p, p ∈ sample_managed.*1 ↔
          ∃ pkg, pkg ∈ sample_registry.*1 ∧ p = package_path ["r"] pkg)
  ∧ ∀ p c, (p, c) ∈ sample_managed →
           name p = "__init__.py" ∧ ∃ rest, c = header +:+ rest.
Proof.
  assert (collect_managed ["r"] sample_registry sample_world
          = (Ok sample_managed, sample_world)) as H
    by (vm_compute; reflexivity).
  split; [exact H|]. exact (generated_files _ _ _ _ _ H).
Defined.

(** X7.  A package with one declaration that has no available-until
    value, whatever the names: its file holds the two header lines, the
    import of the alias module, the import of the source module unless
    that is the alias module itself, and one binding, of the alias when
    a non-empty one is given and of the imported name otherwise, to the
    original, wrapped in [deprecated()] when the declaration is flagged. *)
Theorem single_declaration_file root pkg f i a d w :
  collect_managed root [(pkg, [(f, i, mkInModule a d None)])] w =
  (Ok [(package_path root pkg,
        header +:+ "import hopsworks.internal.aliases" +:+ nl
        +:+ (if decide (f = "hopsworks.internal.aliases") then EmptyString
             else "import " +:+ f +:+ nl)
        +:+ (match a with
             | Some x => if String.eqb x "" then i else x
             | None => i
             end)
        +:+ " = "
        +:+ (if d then "hopsworks.internal.aliases.deprecated()("
                        +:+ f +:+ "." +:+ i +:+ ")"
             else f +:+ "." +:+ i)
        +:+ nl)], w).
Proof.
  rewrite collect_managed_single. unfold render, list_sort. cbn [sort_onto insort].
  unfold mbind, result_bind. cbn [render_lines binding_rhs alias_of fst snd].
  cbn [deprecated available_until truthy as_alias].
  rewrite not_in_alias_module.
  assert ((if truthy a then default EmptyString a else i)
          = match a with
            | Some x => if String.eqb x "" then i else x
            | None => i
            end) as ->.
  { destruct a as [x|]; [|done]. simpl. by destruct (String.eqb x ""). }
  destruct d, (decide (f = "hopsworks.internal.aliases")); simpl;
    by rewrite ?append_assoc, ?append_nil_r.
Qed.

(** X8.  Two plain declarations of one source module, registered with
    the greater imported name first: the bindings come in the order of
    the imported names, and the source module is imported once, before
    the first of them. *)
Theorem two_declarations_file root pkg f i1 i2 w :
  String.ltb i1 i2 = true →
  collect_managed root
    [(pkg, [(f, i2, mkInModule None false None);
            (f, i1, mkInModule None false None)])] w =
  (Ok [(package_path root pkg,
        header +:+ "import hopsworks.internal.aliases" +:+ nl
        +:+ (if decide (f = "hopsworks.internal.aliases") then EmptyString
             else "import " +:+ f +:+ nl)
        +:+ i1 +:+ " = " +:+ f +:+ "." +:+ i1 +:+ nl
        +:+ i2 +:+ " = " +:+ f +:+ "." +:+ i2 +:+ nl)], w).
Proof.
  intros Hlt. rewrite collect_managed_single. unfold render, list_sort.
  cbn [sort_onto insort mbind result_bind tuple_lt].
  rewrite String.eqb_refl. cbn [negb].
  assert (String.eqb i1 i2 = false) as ->.
  { apply eqb_false. by apply ltb_true in Hlt as [_ ?]. }
  cbn [negb]. rewrite Hlt.
  unfold mbind, result_bind. cbn [render_lines binding_rhs alias_of fst snd].
  cbn [deprecated available_until truthy as_alias].
  rewrite not_in_alias_module.
  rewrite (bool_decide_eq_false_2 (f ∉ _)).
  2:{ intros H. apply H. apply elem_of_union_r. by apply elem_of_singleton. }
  destruct (decide (f = "hopsworks.internal.aliases")); simpl;
    by rewrite ?append_assoc, ?append_nil_r.
Qed.

Lemma two_declarations_file_witness :
  String.ltb "Bar" "Foo" = true
  ∧ collect_managed ["r"]
      [("pkg.sub", [("pkg.impl", "Foo", mkInModule None false None);
                    ("pkg.impl", "Bar", mkInModule None false None)])] sample_world
    = (Ok [(["r"; "pkg"; "sub"; "__init__.py"],
            header +:+ "import hopsworks.internal.aliases" +:+ nl
            +:+ "import pkg.impl" +:+ nl
            +:+ "Bar = pkg.impl.Bar" +:+ nl
            +:+ "Foo = pkg.impl.Foo" +:+ nl)], sample_world).
Proof.
  split; [reflexivity|].
  exact (two_declarations_file ["r"] "pkg.sub" "pkg.impl" "Bar" "Foo" sample_world
           eq_refl).
Defined.

(** X9.  When the names of two registered packages give the same
    file, the later entry of the registry decides: the content of the
    file is the one generated for that entry alone, and nothing of what
    an earlier entry gave remains. *)
Theorem later_package_decides root r1 pkg imports r2 w m w' :
  collect_managed root (r1 ++ (pkg, imports) :: r2) w = (Ok m, w') →
  package_path root pkg ∉ package_paths root r2 →
  ∃ c, collect_managed root [(pkg, imports)] w = (Ok [(package_path root pkg, c)], w)
       ∧ dict_get (package_path root pkg) m = Some c.
Proof.
  rewrite collect_managed_run, collect_managed_single. intros [= Hc <-] Hlast.
  rewrite collect_from_app in Hc.
  destruct (collect_from root [] r1) as [m1| |]; simpl in Hc; [|done..].
  destruct (render imports) as [c| |]; simpl in Hc; [|done..].
  exists c. split; [done|].
  rewrite (collect_from_get_other _ _ _ _ _ Hc Hlast). apply dict_get_set_eq.
Qed.

Lemma later_package_decides_witness :
  collect_managed ["r"]
    ([("a/b", [("pkg.impl", "Foo", mkInModule None false None)])]
       ++ ("a.b", []) :: []) sample_world
  = (Ok [(["r"; "a"; "b"; "__init__.py"], header)], sample_world)
  ∧ (package_path ["r"] "a.b" ∉ package_paths ["r"] [])
  ∧ ∃ c, collect_managed ["r"] [("a.b", [])] sample_world
         = (Ok [(package_path ["r"] "a.b", c)], sample_world)
         ∧ dict_get (package_path ["r"] "a.b")
             [(["r"; "a"; "b"; "__init__.py"], header)] = Some c.
Proof.
  assert (collect_managed ["r"]
            ([("a/b", [("pkg.impl", "Foo", mkInModule None false None)])]
               ++ ("a.b", []) :: []) sample_world
          = (Ok [(["r"; "a"; "b"; "__init__.py"], header)], sample_world)) as H
    by (vm_compute; reflexivity).
  assert (package_path ["r"] "a.b" ∉ package_paths ["r"] []) as H'
    by apply not_elem_of_nil.
  split; [exact H|]. split; [exact H'|].
  exact (later_package_decides _ _ _ _ _ _ _ _ H H').
Defined.

(** X10.  The file of a package with a dotted name is the __init__.py of
    the directory that the components of the name lead to below the
    root, and the packages of two different names have different files. *)
Theorem package_file_of_name root s1 s2 :
  package_name s1 → package_name s2 →
  package_path root s1 = root ++ split "." s1 ++ ["__init__.py"]
  ∧ (package_path root s1 = package_path root s2 → s1 = s2).
Proof.
  intros H1 H2. split; [by apply package_name_path|by apply package_path_inj].
Qed.

Lemma package_file_of_name_witness :
  package_name "pkg.sub" ∧ package_name "pkg.other"
  ∧ package_path ["r"] "pkg.sub" = ["r"] ++ split "." "pkg.sub" ++ ["__init__.py"]
  ∧ (package_path ["r"] "pkg.sub" = package_path ["r"] "pkg.other"
     → "pkg.sub" = "pkg.other").
Proof.
  assert (package_name "pkg.sub") as H1.
  { split; [reflexivity|]. apply (bool_decide_unpack _). vm_compute. exact I. }
  assert (package_name "pkg.other") as H2.
  { split; [reflexivity|]. apply (bool_decide_unpack _). vm_compute. exact I. }
  split; [exact H1|]. split; [exact H2|].
  exact (package_file_of_name ["r"] _ _ H1 H2).
Defined.



End GeneratedFiles.

(** ** The walk and the source modules *)

Section Discovery.

Implicit Types (p q path root file : Path) (n : node) (w : World).

(** X1.  [traverse(path, f)] calls [f] once on each regular file at or
    below [path], on nothing else, and does nothing when [path] does not
    exist; this for a callback that leaves alone what is not on the path
    it is given, and a tree less deep than the recursion limit. *)
Theorem traverse_visits_each_file (f : Path → M unit) depth path w :
  local f → 0 < depth →
  (∀ n, lookup_node path (fs w) = Some n → height n < depth) →
  ∃ l, NoDup l
       ∧ (∀ q, q ∈ l ↔ path `prefix_of` q ∧ is_Some (file_at q (fs w)))
       ∧ traverse_rec depth path f w = run_all f l w.
Proof.
  intros Hf Hd Hh. exists (tree_files path (fs w)).
  split; [apply NoDup_tree_files|]. split; [apply elem_of_tree_files|].
  rewrite traverse_rec_traverse by done. apply traverse_run.
Qed.

Lemma traverse_visits_each_file_witness :
  local (check_file ["r"] (ignored_paths ["r"]) sample_managed)
  ∧ 0 < 5
  ∧ (∀ n, lookup_node ["r"] (fs sample_world) = Some n → height n < 5)
  ∧ ∃ l, NoDup l
         ∧ (∀ q, q ∈ l ↔ ["r"] `prefix_of` q ∧ is_Some (file_at q (fs sample_world)))
         ∧ traverse_rec 5 ["r"]
             (check_file ["r"] (ignored_paths ["r"]) sample_managed) sample_world
           = run_all (check_file ["r"] (ignored_paths ["r"]) sample_managed) l
               sample_world.
Proof.
  assert (local (check_file ["r"] (ignored_paths ["r"]) sample_managed)) as H1
    by apply check_file_local.
  assert (0 < 5) as H2 by lia.
  assert (∀ n, lookup_node ["r"] (fs sample_world) = Some n → height n < 5) as H3.
  { intros n Hn. vm_compute in Hn. injection Hn as <-. vm_compute. lia. }
  split; [exact H1|]. split; [exact H2|]. split; [exact H3|].
  exact (traverse_visits_each_file _ 5 ["r"] sample_world H1 H2 H3).
Defined.




Lemma relative_to_app root d : relative_to (root ++ d) root = Some d.
Proof.
  induction root as [|x root IH]; simpl; [done|]. by rewrite decide_True by done.
Qed.

Lemma name_snoc p x : name (p ++ [x]) = x.
Proof. unfold name. by rewrite last_last. Qed.

Lemma suffix_name p x : suffix (p ++ [x]) = suffix [x].
Proof. unfold suffix. by rewrite !name_snoc. Qed.

(** What [imports_add] appends for the file [nm] of the directory [d]
    below the root. *)
Lemma imports_add_below root imports d nm :
  imports_add root imports (root ++ d ++ [nm]) =
  Some (imports ++
        if String.eqb nm "__init__.py"
        then [replace "/" "." (relative_str d)]
        else if String.eqb (suffix [nm]) ".py"
        then [replace "/" "." (relative_str d) +:+ "." +:+ drop_last3 nm]
        else []).
Proof.
  unfold imports_add, parent.
  rewrite app_assoc, removelast_last, relative_to_app. simpl.
  rewrite name_snoc, suffix_name.
  destruct (String.eqb nm "__init__.py"); [done|].
  destruct (String.eqb (suffix [nm]) ".py"); [done|]. by rewrite app_nil_r.
Qed.







End Discovery.

(** ** Module names *)

Section ModuleNames.

Implicit Types (s x : string) (c sep : ascii) (d : list string) (root : Path).

Lemma append_cons a s1 s2 : String a s1 +:+ s2 = String a (s1 +:+ s2).
Proof. reflexivity. Qed.

Lemma append_nil_l s : EmptyString +:+ s = s.
Proof. reflexivity. Qed.

Lemma concat_cons_cons glue x y d :
  String.concat glue (x :: y :: d) = x +:+ glue +:+ String.concat glue (y :: d).
Proof. reflexivity. Qed.

Lemma replace_app a b s1 s2 :
  replace a b (s1 +:+ s2) = replace a b s1 +:+ replace a b s2.
Proof.
  induction s1 as [|e s1 IH]; [done|].
  rewrite append_cons. simpl. by rewrite IH.
Qed.

Lemma replace_id a b s : has_char a s = false → replace a b s = s.
Proof.
  induction s as [|e s IH]; simpl; [done|].
  intros [-> Hs]%orb_false_elim. by rewrite IH.
Qed.

Lemma has_char_app c s1 s2 : has_char c (s1 +:+ s2) = has_char c s1 || has_char c s2.
Proof.
  induction s1 as [|e s1 IH]; [done|].
  rewrite append_cons. simpl. by rewrite IH, orb_assoc.
Qed.

Lemma has_char_concat c glue d :
  has_char c glue = false → Forall (λ x, has_char c x = false) d →
  has_char c (String.concat glue d) = false.
Proof.
  intros Hsep. induction d as [|x d IH]; [done|].
  intros [Hx Hd]%Forall_cons. destruct d as [|y d]; [done|].
  rewrite concat_cons_cons, !has_char_app, Hx, Hsep. by apply IH.
Qed.

Lemma replace_concat d :
  Forall (λ x, has_char "/" x = false) d →
  replace "/" "." (String.concat "/" d) = String.concat "." d.
Proof.
  induction d as [|x d IH]; [done|].
  intros [Hx Hd]%Forall_cons. destruct d as [|y d].
  - by apply replace_id.
  - rewrite !concat_cons_cons, !replace_app, IH by done.
    by rewrite (replace_id _ _ x).
Qed.

Lemma concat_snoc glue d x :
  d ≠ [] → String.concat glue d +:+ glue +:+ x = String.concat glue (d ++ [x]).
Proof.
  induction d as [|y d IH]; [done|]. intros _. destruct d as [|z d]; [done|].
  change ((y :: z :: d) ++ [x]) with (y :: (z :: d) ++ [x]).
  change (y :: (z :: d) ++ [x]) with (y :: z :: (d ++ [x])) at 1.
  rewrite !concat_cons_cons.
  change (z :: d ++ [x]) with ((z :: d) ++ [x]).
  rewrite <- IH by done. by rewrite !append_assoc.
Qed.

Lemma split_id sep s : has_char sep s = false → split sep s = [s].
Proof.
  induction s as [|e s IH]; simpl; [done|].
  intros [-> Hs]%orb_false_elim. by rewrite IH.
Qed.

Lemma split_app_sep sep s r :
  has_char sep s = false →
  split sep (s +:+ String sep r) = s :: split sep r.
Proof.
  induction s as [|e s IH]; simpl.
  - intros _. rewrite ?append_nil_l. simpl. by rewrite Ascii.eqb_refl.
  - intros [He Hs]%orb_false_elim. rewrite ?append_cons. simpl.
    by rewrite He, IH.
Qed.

Lemma split_concat sep d :
  d ≠ [] → Forall (λ x, has_char sep x = false) d →
  split sep (String.concat (String sep EmptyString) d) = d.
Proof.
  induction d as [|x d IH]; [done|]. intros _ [Hx Hd]%Forall_cons.
  destruct d as [|y d]; [by apply split_id|].
  rewrite concat_cons_cons, append_cons, append_nil_l.
  rewrite split_app_sep by done. by rewrite IH.
Qed.

(** X3.  For a regular file in a directory below the root whose
    components hold no slash, [imports_add] appends the dotted path of
    the directory for __init__.py, the dotted path followed by the name
    without its last three characters for another file with the suffix
    .py, and nothing for any other file. *)
Theorem module_name_of_file root imports d nm :
  d ≠ [] → Forall (λ x, has_char "/" x = false) d →
  imports_add root imports (root ++ d ++ [nm]) =
  Some (imports ++
        if String.eqb nm "__init__.py" then [String.concat "." d]
        else if String.eqb (suffix [nm]) ".py"
        then [String.concat "." (d ++ [drop_last3 nm])]
        else []).
Proof.
  intros Hd Hall. rewrite imports_add_below.
  assert (replace "/" "." (relative_str d) = String.concat "." d) as ->.
  { destruct d; [done|]. by apply replace_concat. }
  by rewrite concat_snoc.
Qed.

Lemma module_name_of_file_witness :
  ["hopsworks"; "fs"] ≠ []
  ∧ Forall (λ x, has_char "/" x = false) ["hopsworks"; "fs"]
  ∧ imports_add ["r"] ["hopsworks"] ["r"; "hopsworks"; "fs"; "feature.py"]
    = Some ["hopsworks"; "hopsworks.fs.feature"].
Proof.
  assert (["hopsworks"; "fs"] ≠ []) as H1 by discriminate.
  assert (Forall (λ x, has_char "/" x = false) ["hopsworks"; "fs"]) as H2
    by (repeat constructor).
  split; [exact H1|]. split; [exact H2|].
  exact (module_name_of_file ["r"] ["hopsworks"] ["hopsworks"; "fs"] "feature.py"
           H1 H2).
Defined.

(** X4.  The name that [imports_add] gives to the __init__.py of a
    directory is the name of the package whose file the generator puts
    at that very path, when the components of the directory are not
    empty and hold neither a slash nor a dot. *)
Theorem package_of_init_file root imports d :
  d ≠ [] →
  Forall (λ x, x ≠ EmptyString ∧ has_char "/" x = false ∧ has_char "." x = false) d →
  imports_add root imports (root ++ d ++ ["__init__.py"])
  = Some (imports ++ [String.concat "." d])
  ∧ package_path root (String.concat "." d) = root ++ d ++ ["__init__.py"].
Proof.
  intros Hd Hall. split.
  - rewrite imports_add_below.
    assert (replace "/" "." (relative_str d) = String.concat "." d) as ->; [|done].
    destruct d; [done|]. apply replace_concat.
    eapply Forall_impl; [done|]. by intros x (_ & ? & _).
  - rewrite package_name_path.
    + rewrite split_concat; [done..|].
      eapply Forall_impl; [done|]. by intros x (_ & _ & ?).
    + split.
      * apply has_char_concat; [done|].
        eapply Forall_impl; [done|]. by intros x (_ & ? & _).
      * rewrite split_concat; [|done|].
        -- intros Hin. rewrite Forall_forall in Hall.
           by destruct (Hall _ Hin) as [? _].
        -- eapply Forall_impl; [done|]. by intros x (_ & _ & ?).
Qed.

Lemma package_of_init_file_witness :
  ["hopsworks"; "fs"] ≠ []
  ∧ Forall (λ x, x ≠ EmptyString ∧ has_char "/" x = false ∧ has_char "." x = false)
      ["hopsworks"; "fs"]
  ∧ imports_add ["r"] [] ["r"; "hopsworks"; "fs"; "__init__.py"]
    = Some ["hopsworks.fs"]
  ∧ package_path ["r"] "hopsworks.fs" = ["r"; "hopsworks"; "fs"; "__init__.py"].
Proof.
  assert (["hopsworks"; "fs"] ≠ []) as H1 by discriminate.
  assert (Forall (λ x, x ≠ EmptyString ∧ has_char "/" x = false
                       ∧ has_char "." x = false) ["hopsworks"; "fs"]) as H2
    by (repeat constructor; discriminate).
  split; [exact H1|]. split; [exact H2|].
  exact (package_of_init_file ["r"] [] ["hopsworks"; "fs"] H1 H2).
Defined.

End ModuleNames.

(** ** The command line: properties *)

Section CommandLine.

Implicit Types (p q root cwd : Path) (w : World) (s : Process) (reg : Registry)
  (argv : list string).

Lemma help_run {A} msg s :
  ∃ out, @help A msg s = (Exit 1%Z, mkProcess (tree s) (printed s ++ out) (ok_var s)).
Proof.
  unfold help, print_text, exit_with, mbind, Script_bind, mret, Script_ret.
  destruct (truthy msg); simpl; eexists; by rewrite <- ?app_assoc.
Qed.

(** With a path argument, [main] comes to the text of [help] and
    [exit(1)], or to one of the two commands on the resolved path, which
    holds [hopsworks]. *)
Lemma main_three_cases cwd reg a cmd arg s :
  (∃ out, main cwd reg [a; cmd; arg] s
          = (Exit 1%Z, mkProcess (tree s) (printed s ++ out) (ok_var s)))
  ∨ (is_Some (lookup_node (resolve cwd (pure_path arg) ++ ["hopsworks"]) (tree s))
     ∧ ((cmd ∈ ["f"; "fix"]
         ∧ main cwd reg [a; cmd; arg] s
           = command (fix_ (resolve cwd (pure_path arg)) reg) s)
        ∨ (cmd ∈ ["c"; "check"]
           ∧ main cwd reg [a; cmd; arg] s
             = command (check (resolve cwd (pure_path arg)) reg) s))).
Proof.
  unfold main, mbind, Script_bind, mret, Script_ret, exists_path. cbv zeta.
  change (joinpath (resolve cwd (pure_path arg)) "hopsworks")
    with (resolve cwd (pure_path arg) ++ ["hopsworks"]).
  case_bool_decide as He; cbn [negb].
  2:{ left. destruct (@help_run unit
        (Some "The used path doesn't contain the hopsworks package.") s)
        as [out ->]. by exists out. }
  case_bool_decide as Hf; [right; split; [done|]; by left|].
  case_bool_decide as Hc; [right; split; [done|]; by right|].
  left. destruct (@help_run (Path → Registry → M unit)
                    (Some "Unknown command.") s) as [out ->]. by exists out.
Qed.

(** Without a path argument, [main] does what it does for the current
    directory when that holds [hopsworks], and for its subdirectory
    python otherwise. *)
Lemma main_two cwd reg a cmd s :
  main cwd reg [a; cmd] s
  = main cwd reg
      [a; cmd;
       if bool_decide (is_Some (lookup_node (cwd ++ ["hopsworks"]) (tree s)))
       then EmptyString else "python"] s.
Proof.
  unfold main, mbind, Script_bind, mret, Script_ret, exists_path. cbv zeta.
  change (absolute cwd (pure_join (pure_path EmptyString) "hopsworks"))
    with (cwd ++ ["hopsworks"]).
  by destruct (bool_decide (is_Some (lookup_node (cwd ++ ["hopsworks"]) (tree s)))).
Qed.

Lemma main_wrong_count cwd reg argv s :
  length argv ≠ 2 → length argv ≠ 3 →
  ∃ out, main cwd reg argv s
         = (Exit 1%Z, mkProcess (tree s) (printed s ++ out) (ok_var s)).
Proof.
  intros H2 H3. unfold main.
  destruct argv as [|a [|cmd [|arg [|x rest]]]]; try done.
  all: unfold mbind at 1; unfold Script_bind.
  all: destruct (@help_run (string * (bool * list string))
                   (Some "Wrong number of arguments.") s) as [out ->]; by exists out.
Qed.

(** What [main] comes to: the text of [help] and [exit(1)], or one of
    the two commands on a root that holds [hopsworks]. *)
Lemma main_cases cwd reg argv s :
  (∃ out, main cwd reg argv s
          = (Exit 1%Z, mkProcess (tree s) (printed s ++ out) (ok_var s)))
  ∨ ∃ cmd root,
      argv !! 1 = Some cmd
      ∧ is_Some (lookup_node (root ++ ["hopsworks"]) (tree s))
      ∧ ((cmd ∈ ["f"; "fix"] ∧ main cwd reg argv s = command (fix_ root reg) s)
         ∨ (cmd ∈ ["c"; "check"] ∧ main cwd reg argv s = command (check root reg) s)).
Proof.
  destruct (decide (length argv = 2)) as [H2|H2].
  { destruct argv as [|a [|cmd [|arg rest]]]; try done. rewrite main_two.
    destruct (main_three_cases cwd reg a cmd
                (if bool_decide (is_Some (lookup_node (cwd ++ ["hopsworks"]) (tree s)))
                 then EmptyString else "python") s) as [?|[He H]]; [by left|].
    right. eexists cmd, _. split; [done|]. split; [exact He|exact H]. }
  destruct (decide (length argv = 3)) as [H3|H3].
  { destruct argv as [|a [|cmd [|arg [|x rest]]]]; try done.
    destruct (main_three_cases cwd reg a cmd arg s) as [?|[He H]]; [by left|].
    right. eexists cmd, _. split; [done|]. split; [exact He|exact H]. }
  left. by apply main_wrong_count.
Qed.

Lemma main_three cwd reg a cmd arg s :
  is_Some (lookup_node (resolve cwd (pure_path arg) ++ ["hopsworks"]) (tree s)) →
  cmd ∈ ["c"; "check"] →
  main cwd reg [a; cmd; arg] s = command (check (resolve cwd (pure_path arg)) reg) s.
Proof.
  intros He Hc. unfold main, mbind, Script_bind, mret, Script_ret, exists_path. cbv zeta.
  change (joinpath (resolve cwd (pure_path arg)) "hopsworks")
    with (resolve cwd (pure_path arg) ++ ["hopsworks"]).
  rewrite bool_decide_eq_true_2 by done. cbn [negb].
  rewrite bool_decide_eq_false_2, bool_decide_eq_true_2; [done..|].
  intros Hf. repeat (apply elem_of_cons in Hc as [->|Hc]).
  3: by apply elem_of_nil in Hc.
  all: repeat (apply elem_of_cons in Hf as [Hf|Hf]; [discriminate Hf|]).
  all: by apply elem_of_nil in Hf.
Qed.

Lemma check_managed_no_exit item w code w' :
  check_managed tt item w ≠ (Exit code, w').
Proof.
  destruct item as [p c].
  unfold check_managed, path_exists, read_text, print, set_ok. unfold_bind. simpl.
  destruct (lookup_node p (fs w)) as [[t|ch]|] eqn:El; simpl; rewrite ?El; try done.
  by destruct (String.eqb t c).
Qed.

Lemma check_all_no_exit m : ∀ w code w',
  for_each m check_managed tt w ≠ (Exit code, w').
Proof.
  induction m as [|item m IH]; intros w code w'; [done|].
  rewrite for_each_cons.
  destruct (check_managed tt item w) as [[[]| |] w1] eqn:E1; [apply IH| |done].
  by apply check_managed_no_exit in E1.
Qed.

Lemma check_exit_code root reg w code w' :
  check root reg w = (Exit code, w') → code = 1%Z.
Proof.
  rewrite check_run. cbv zeta.
  destruct (collect_from root [] reg) as [m| |] eqn:Ec;
    [|by apply collect_from_no_exit in Ec|done].
  destruct (for_each m check_managed tt _) as [[[]| |] w1] eqn:E1;
    [|by apply check_all_no_exit in E1|done].
  destruct (check_walk root (ignored_paths root) m (tree_files root (fs w1)) w1)
    as (w2 & -> & _).
  destruct (ok w2); [done|]. unfold print, exit. unfold_bind. by intros [= <- _].
Qed.

Lemma fix_no_exit root reg w code w' : fix_ root reg w ≠ (Exit code, w').
Proof.
  rewrite fix_run.
  destruct (collect_from root [] reg) as [m| |] eqn:Ec;
    [|by apply collect_from_no_exit in Ec|done].
  destruct (for_each m write_managed tt w) as [[[]| |] w1] eqn:Ew;
    [|by apply write_all_no_exit in Ew|done].
  destruct (fix_walk root (ignored_paths root) m (tree_files root (fs w1)) w1
              (NoDup_tree_files _ _)) as (w2 & -> & _); [|done].
  intros q. by rewrite elem_of_tree_files.
Qed.

(** An entry directly inside the root is still there after [fix]. *)
Lemma fix_keeps_top_entry root reg w x :
  is_Some (lookup_node (root ++ [x]) (fs w)) →
  is_Some (lookup_node (root ++ [x]) (fs (fix_ root reg w).2)).
Proof.
  intros Hs.
  assert (∀ n, is_Some (lookup_node (root ++ [x]) n) ↔
               is_Some (file_at (root ++ [x]) n) ∨ dir_at (root ++ [x]) n = true)
    as Hsplit.
  { intros n. unfold file_at, dir_at.
    destruct (lookup_node (root ++ [x]) n) as [[c|ch]|]; split; eauto.
    - by intros [??].
    - by intros [[??]|?]. }
  apply Hsplit. apply Hsplit in Hs. rewrite fix_run.
  destruct (collect_from root [] reg) as [m| |] eqn:Ec; [|done..].
  destruct (collect_ok_keys _ _ _ Ec) as (Hk & Hnd & Hkeys).
  destruct (for_each m write_managed tt w) as [r1 w1] eqn:Ew.
  destruct (write_all_frame _ _ _ _ Hk Ew) as (_ & _ & _ & Hkeep).
  pose proof (write_all_dir_at _ _ _ _ Hk Ew (root ++ [x])) as Hdir.
  assert (is_Some (file_at (root ++ [x]) (fs w1)) ∨ dir_at (root ++ [x]) (fs w1) = true)
    as H1 by (destruct Hs; eauto).
  destruct r1 as [[]| |]; [|done..].
  destruct (run_all _ _ w1) as [r2 w2] eqn:E2. cbn [snd].
  rewrite (fix_walk_dir_at _ _ _ _ _ _ _ E2).
  destruct H1 as [Hf|?]; [left|by right].
  destruct (fix_walk root (ignored_paths root) m (tree_files root (fs w1)) w1
              (NoDup_tree_files _ _)) as (w3 & E3 & _ & _ & Hfile).
  { intros q. by rewrite elem_of_tree_files. }
  rewrite E3 in E2. injection E2 as _ <-.
  rewrite Hfile, decide_False; [done|]. intros [_ He]. unfold excess in He.
  rewrite bool_decide_eq_true_2 in He; [done|].
  unfold parent. by rewrite removelast_last.
Qed.

(** X21.  [main] returns, raises, or leaves through [exit(1)]: no
    other exit status is used, by [help], by [check] or anywhere the
    two commands go. *)
Theorem main_exit_status cwd reg argv s :
  (main cwd reg argv s).1 = Ok tt
  ∨ (main cwd reg argv s).1 = Exit 1%Z
  ∨ ∃ e, (main cwd reg argv s).1 = Raise e.
Proof.
  destruct (main_cases cwd reg argv s) as [[out ->]|(cmd & root & _ & _ & H)].
  { right. by left. }
  destruct H as [[_ ->]|[_ ->]]; unfold command.
  - destruct (fix_ root reg _) as [[[]|code|e] w1] eqn:E; simpl; eauto.
    by apply fix_no_exit in E.
  - destruct (check root reg _) as [[[]|code|e] w1] eqn:E; simpl; eauto.
    apply check_exit_code in E as ->. eauto.
Qed.

(** X22.  Only the command fix (or f) changes the tree: with any
    other arguments, [main] leaves every file and directory as it was. *)
Theorem only_fix_changes_the_tree cwd reg argv s :
  argv !! 1 ≠ Some "f" → argv !! 1 ≠ Some "fix" →
  tree (main cwd reg argv s).2 = tree s.
Proof.
  intros Hf Hfix.
  destruct (main_cases cwd reg argv s) as [[out ->]|(cmd & root & Hc & _ & H)];
    [done|].
  destruct H as [[Hin _]|[_ ->]].
  - repeat (apply elem_of_cons in Hin as [->|Hin]); [done..|].
    by apply elem_of_nil in Hin.
  - unfold command. destruct (check root reg _) as [r w1] eqn:E. simpl.
    by destruct (check_lines _ _ _ _ _ E) as [-> _].
Qed.

Lemma only_fix_changes_the_tree_witness :
  ["aliases.py"; "check"; "/r"] !! 1 ≠ Some "f"
  ∧ ["aliases.py"; "check"; "/r"] !! 1 ≠ Some "fix"
  ∧ (main [] sample_registry ["aliases.py"; "check"; "/r"] sample_process).1
    = Exit 1%Z
  ∧ tree (main [] sample_registry ["aliases.py"; "check"; "/r"] sample_process).2
    = tree sample_process.
Proof.
  assert (["aliases.py"; "check"; "/r"] !! 1 ≠ Some "f") as H1 by discriminate.
  assert (["aliases.py"; "check"; "/r"] !! 1 ≠ Some "fix") as H2 by discriminate.
  split; [exact H1|]. split; [exact H2|]. split; [vm_compute; reflexivity|].
  exact (only_fix_changes_the_tree [] sample_registry _ sample_process H1 H2).
Defined.

(** X23.  After a run of the script with the command fix (or f) on a
    path that returned, a run with the command check (or c) on the same
    path, with the same registry, prints the success message and nothing
    else, and returns. *)
Theorem check_command_after_fix cwd reg a1 a2 c1 c2 arg s s1 :
  c1 ∈ ["f"; "fix"] → c2 ∈ ["c"; "check"] →
  main cwd reg [a1; c1; arg] s = (Ok tt, s1) →
  main cwd reg [a2; c2; arg] s1
  = (Ok tt, mkProcess (tree s1) (printed s1 ++ ["The aliases are correct!"]) true).
Proof.
  intros H1 H2 Hrun.
  destruct (main_three_cases cwd reg a1 c1 arg s) as [[out Ho]|[He H]];
    [congruence|].
  destruct H as [[_ Hm]|[Hin _]].
  2:{ repeat (apply elem_of_cons in H1 as [->|H1]).
      3: by apply elem_of_nil in H1.
      all: repeat (apply elem_of_cons in Hin as [Hin|Hin]; [discriminate Hin|]).
      all: by apply elem_of_nil in Hin. }
  rewrite Hm in Hrun. unfold command in Hrun.
  destruct (fix_ _ reg _) as [r w1] eqn:Efix. injection Hrun as -> <-.
  assert (is_Some (lookup_node (resolve cwd (pure_path arg) ++ ["hopsworks"]) (fs w1)))
    as He1.
  { pose proof (fix_keeps_top_entry (resolve cwd (pure_path arg)) reg
                  (mkWorld (tree s) [] (ok_var s)) "hopsworks" He) as Hk.
    by rewrite Efix in Hk. }
  rewrite (main_three cwd reg a2 c2 arg
             (mkProcess (fs w1) (printed s ++ (line_str <$> stdout w1)) (ok w1)) He1 H2).
  unfold command. cbn [tree printed ok_var].
  destruct (fix_ok_inv _ _ _ _ Efix) as (m & Ec & _ & _ & Hrec & _).
  by rewrite (check_reconciled _ _ (mkWorld (fs w1) [] (ok w1)) m Ec Hrec).
Qed.

Lemma check_command_after_fix_witness :
  "fix" ∈ ["f"; "fix"] ∧ "c" ∈ ["c"; "check"]
  ∧ main [] sample_registry ["aliases.py"; "fix"; "/r"] sample_process
    = (Ok tt, (main [] sample_registry ["aliases.py"; "fix"; "/r"] sample_process).2)
  ∧ main [] sample_registry ["aliases.py"; "c"; "/r"]
      (main [] sample_registry ["aliases.py"; "fix"; "/r"] sample_process).2
    = (Ok tt,
       mkProcess
         (tree (main [] sample_registry ["aliases.py"; "fix"; "/r"] sample_process).2)
         (printed (main [] sample_registry ["aliases.py"; "fix"; "/r"] sample_process).2
            ++ ["The aliases are correct!"])
         true).
Proof.
  assert ("fix" ∈ ["f"; "fix"]) as H1 by (right; left).
  assert ("c" ∈ ["c"; "check"]) as H2 by left.
  assert (main [] sample_registry ["aliases.py"; "fix"; "/r"] sample_process
          = (Ok tt, (main [] sample_registry ["aliases.py"; "fix"; "/r"]
                       sample_process).2)) as H3
    by (vm_compute; reflexivity).
  split; [exact H1|]. split; [exact H2|]. split; [exact H3|].
  exact (check_command_after_fix [] sample_registry _ "aliases.py" _ _ _ _ _ H1 H2 H3).
Defined.

End CommandLine.
